(** * leadoptmap: the perturbation-network core

    A shallow embedding of [create], [sign], [cmp_edge], [trim_cluster] and
    [gen_graph] of [src/contribute/graph.py], of [matrix] and [add_mcs_id] of
    [src/contribute/build.py] and of the loops of [OeMcs.search] and
    [OeMcs.search_all] of [src/contribute/mcs.py], together with the parts of
    [networkx] and of the knowledge base [KBASE] that these functions call.

    Conventions of the embedding.
    - Python floats are idealised as rationals ([Q]); every value the loop of
      [gen_graph] stores is kept in reduced form with [Qred], as a float has
      one representation per value.  Python [int]s are [Z], lengths are [nat].
    - A raised exception is the [Raise] branch of [result].
    - A [networkx.Graph] is a list of nodes and a list of undirected edges,
      both in insertion order; every iteration order of a [dict] or a [set]
      is modelled by that insertion order.
    - [logging] calls and the [print] statement append to a list of events. *)

From Stdlib Require Import List Ascii String ZArith QArith Qabs Qround Qreduction.
From Stdlib Require Import Bool Arith Lia Lqa Sorted Permutation Relations.
Import ListNotations.

Set Implicit Arguments.

(** ** Exceptions *)

Inductive exn : Type :=
| LookupError   (* KBASE.ask on a missing key *)
| IndexError    (* list index out of range *)
| ValueError    (* list.remove(x): x not in list *)
| KeyError      (* a missing key of an attribute dictionary *)
| RuleError.    (* the external similarity rule raised *)

Inductive result (A : Type) : Type :=
| Ok (a : A)
| Raise (e : exn).

Arguments Ok {A} a.
Arguments Raise {A} e.

Definition bind {A B : Type} (m : result A) (k : A -> result B) : result B :=
  match m with
  | Ok a => k a
  | Raise e => Raise e
  end.

Notation "'do' x <- m ; k" := (bind m (fun x => k))
  (at level 10, x pattern, m at level 100, k at level 200).

(** ** Floats as rationals *)

Definition Qgt_bool (x y : Q) : bool := negb (Qle_bool x y).
Definition Qlt_bool (x y : Q) : bool := negb (Qle_bool y x).

(** ** Nodes, edges, graphs (the part of networkx.Graph in use) *)

Definition node := string.

Definition node_eqb (a b : node) : bool := String.eqb a b.

Definition mem (a : node) (l : list node) : bool := existsb (node_eqb a) l.

(** The attribute dictionary of an edge.  Every [add_edge] of the source
    passes [similarity]; the other keys may be absent. *)
Record attrs : Type := mkAttrs {
  similarity   : Q;
  partial_ring : option Z;
  mcs_id       : option string;
  boundary     : option bool
}.

(** [datadict.update(attr_dict)]: keys of the new dictionary win, keys only in
    the old one stay. *)
Definition or_else {A : Type} (new old : option A) : option A :=
  match new with Some _ => new | None => old end.

Definition dict_update (old new : attrs) : attrs :=
  {| similarity   := similarity new;
     partial_ring := or_else (partial_ring new) (partial_ring old);
     mcs_id       := or_else (mcs_id new) (mcs_id old);
     boundary     := or_else (boundary new) (boundary old) |}.

Record edge : Type := mkEdge { eu : node; ev : node; ea : attrs }.

Record graph : Type := mkGraph { nodes : list node; edges : list edge }.

Definition empty_graph : graph := {| nodes := []; edges := [] |}.

(** An edge is stored once and found under both orientations. *)
Definition edge_is (u v : node) (e : edge) : bool :=
  (node_eqb (eu e) u && node_eqb (ev e) v) ||
  (node_eqb (eu e) v && node_eqb (ev e) u).

Definition has_edge (g : graph) (u v : node) : bool :=
  existsb (edge_is u v) (edges g).

(** [g[u][v]] *)
Definition get_edge (g : graph) (u v : node) : option attrs :=
  option_map ea (find (edge_is u v) (edges g)).

Definition add_node (ns : list node) (n : node) : list node :=
  if mem n ns then ns else ns ++ [n].

(** [g.add_nodes_from(ns)] *)
Definition add_nodes_from (g : graph) (ns : list node) : graph :=
  {| nodes := fold_left add_node ns (nodes g); edges := edges g |}.

Fixpoint set_edge (es : list edge) (u v : node) (a : attrs) : list edge :=
  match es with
  | [] => [mkEdge u v a]
  | e :: es' =>
      if edge_is u v e
      then mkEdge (eu e) (ev e) (dict_update (ea e) a) :: es'
      else e :: set_edge es' u v a
  end.

(** [g.add_edge(u, v, **a)]: both end points become nodes; an existing edge
    keeps its place and has its attributes updated. *)
Definition add_edge (g : graph) (u v : node) (a : attrs) : graph :=
  {| nodes := add_node (add_node (nodes g) u) v;
     edges := set_edge (edges g) u v a |}.

(** [g.remove_edges_from(del)]: pairs that are no edge are ignored. *)
Definition in_pairs (u v : node) (l : list (node * node)) : bool :=
  existsb (fun p => node_eqb (fst p) u && node_eqb (snd p) v) l.

Definition remove_edges_from (g : graph) (del : list (node * node)) : graph :=
  {| nodes := nodes g;
     edges := filter (fun e => negb (in_pairs (eu e) (ev e) del ||
                                     in_pairs (ev e) (eu e) del)) (edges g) |}.

(** [g.edges(n, data=True)] for a single node [n]: the edges at [n], each
    oriented away from [n]. *)
Definition incident (g : graph) (n : node) : list (node * node * attrs) :=
  flat_map (fun e =>
              if node_eqb (eu e) n then [(n, ev e, ea e)]
              else if node_eqb (ev e) n then [(n, eu e, ea e)]
              else []) (edges g).

(** [g.edges(nbunch)] for a list of nodes: [edges_iter] walks [nbunch], skips
    nodes that are not in the graph, and skips an edge whose other end was
    walked before. *)
Fixpoint edges_iter (g : graph) (nbunch seen : list node)
  : list (node * node * attrs) :=
  match nbunch with
  | [] => []
  | n :: rest =>
      if mem n (nodes g)
      then filter (fun t => negb (mem (snd (fst t)) seen)) (incident g n)
             ++ edges_iter g rest (n :: seen)
      else edges_iter g rest seen
  end.

Definition edges_of (g : graph) (nbunch : list node) : list (node * node * attrs) :=
  edges_iter g nbunch [].

(** [g.edges(data=True)] *)
Definition all_edges (g : graph) : list (node * node * attrs) :=
  edges_of g (nodes g).

(** [networkx.Graph(networkx.subgraph(g, nbunch))]: an independent copy of
    the subgraph induced by [nbunch]. *)
Definition subgraph (g : graph) (nbunch : list node) : graph :=
  {| nodes := fold_left add_node (filter (fun n => mem n (nodes g)) nbunch) [];
     edges := filter (fun e => mem (eu e) nbunch && mem (ev e) nbunch) (edges g) |}.

(** [networkx.edge_boundary(g, nbunch1, nbunch2)]: the pairs [(n1, n2)] with
    [n1] walked in [nbunch1], [n2] a neighbour of [n1] that lies in
    [nbunch2]. *)
Definition edge_boundary (g : graph) (nbunch1 nbunch2 : list node)
  : list (node * node) :=
  flat_map (fun n1 =>
              if mem n1 (nodes g)
              then map (fun t => (n1, snd (fst t)))
                       (filter (fun t => mem (snd (fst t)) nbunch2) (incident g n1))
              else []) nbunch1.

(** ** Python's [sorted] and list indexing *)

Section Sorted.
Variable A : Type.
Variable cmp : A -> A -> Z.

(** [sorted(l, cmp)] is stable and only asks whether [cmp a b < 0]; for a
    comparison that is a total preorder every stable sort returns the list
    that this insertion sort returns. *)
Fixpoint insert (x : A) (l : list A) : list A :=
  match l with
  | [] => [x]
  | y :: l' => if (cmp y x <? 0)%Z then y :: insert x l' else x :: y :: l'
  end.

Fixpoint sorted (l : list A) : list A :=
  match l with
  | [] => []
  | x :: l' => insert x (sorted l')
  end.
End Sorted.

(** [l[-n:]] *)
Definition slice_last {A : Type} (n : Z) (l : list A) : list A :=
  if (n =? 0)%Z then l
  else if (0 <? n)%Z then skipn (List.length l - Z.to_nat n) l
  else skipn (Z.to_nat (- n)) l.

(** [l[k]] for a negative index [k] *)
Definition index_neg {A : Type} (l : list A) (k : Z) : result A :=
  if (Z.of_nat (List.length l) + k <? 0)%Z then Raise IndexError
  else match nth_error l (Z.to_nat (Z.of_nat (List.length l) + k)) with
       | Some x => Ok x
       | None => Raise IndexError
       end.

(** [l.remove(x)]: drops the first element equal to [x]. *)
Fixpoint list_remove (x : list node) (l : list (list node))
  : result (list (list node)) :=
  match l with
  | [] => Raise ValueError
  | y :: l' =>
      if list_eq_dec string_dec x y then Ok l'
      else do r <- list_remove x l'; Ok (y :: r)
  end.

(** ** The knowledge base and the rules *)

(** The part of [KBASE] that [graph.py] reads and writes: the parents of a
    common substructure, its [partial_ring] flag and the extra datum
    ["similarity"].  A missing key makes [KBASE.ask] raise [LookupError]. *)
Record kbase : Type := mkKbase {
  mcs_parents      : string -> option (node * node);
  kb_partial_ring  : string -> option Z;
  kb_similarity    : string -> option Q
}.

Definition ask {A : Type} (o : option A) : result A :=
  match o with Some a => Ok a | None => Raise LookupError end.

(** [mcs.get_parent_ids] *)
Definition get_parent_ids (kb : kbase) (id : string) : result (node * node) :=
  ask (mcs_parents kb id).

(** [KBASE.deposit_extra(id, "similarity", simi)] *)
Definition deposit_similarity (kb : kbase) (id : string) (simi : Q) : kbase :=
  {| mcs_parents     := mcs_parents kb;
     kb_partial_ring := kb_partial_ring kb;
     kb_similarity   := fun i => if String.eqb i id then Some simi
                                 else kb_similarity kb i |}.

(** A rule object: [rule.similarity(id0, id1, mcs_id = id)], which may raise. *)
Definition Rule : Type := kbase -> node -> node -> string -> result Q.

(** Modelled from the spec: [rule.Cutoff] (module [rule] is not among the
    sources).  The spec and the docstring of [gen_graph] say that similarity
    values less than the cutoff are considered as 0; the value compared is
    the one deposited in the knowledge base under ["similarity"]. *)
Definition Cutoff (c : Q) : Rule :=
  fun kb _ _ id =>
    do simi <- ask (kb_similarity kb id);
    Ok (if Qlt_bool simi c then 0%Q else simi).

(** ** [create] *)

Definition create_step (kb : kbase) (rule : Rule) (g : graph) (id : string)
  : result graph :=
  do ids <- get_parent_ids kb id;
  let (id0, id1) := ids : node * node in
  do simi <- rule kb id0 id1 id;
  if Qgt_bool simi 0
  then
    let partial_ring := match kb_partial_ring kb id with
                        | Some r => r
                        | None => 0%Z   (* except LookupError *)
                        end in
    Ok (add_edge g id0 id1
          {| similarity := simi; partial_ring := Some partial_ring;
             mcs_id := Some id; boundary := None |})
  else Ok g.

Fixpoint create_from (kb : kbase) (rule : Rule) (g : graph) (mcs_ids : list string)
  : result graph :=
  match mcs_ids with
  | [] => Ok g
  | id :: rest => do g' <- create_step kb rule g id; create_from kb rule g' rest
  end.

(** [create(basic_graph, mcs_ids, rule)]; the deep copy is the value itself. *)
Definition create (kb : kbase) (basic_graph : graph) (mcs_ids : list string)
  (rule : Rule) : result graph :=
  create_from kb rule basic_graph mcs_ids.

(** ** [sign] and [cmp_edge] *)

Definition sign (x : Q) : Z :=
  if Qgt_bool x 0 then 1%Z else if Qlt_bool x 0 then (-1)%Z else 0%Z.

(** [cmp_edge(g, x, y)] on edges whose similarity is known.  The callers sort
    either triples that carry the attributes of [g] or pairs looked up in
    [g]; [simi_of] is that look-up. *)
Definition cmp_simi (sx sy : Q) : Z := sign (sx - sy).

Definition simi_of (g : graph) (u v : node) : Q :=
  match get_edge g u v with
  | Some a => similarity a
  | None => 0%Q
  end.

Definition cmp_edge (g : graph) (x y : node * node) : Z :=
  cmp_simi (simi_of g (fst x) (snd x)) (simi_of g (fst y) (snd y)).

(** ** Connected components (networkx) *)

Definition neighbors (g : graph) (n : node) : list node :=
  map (fun t => snd (fst t)) (incident g n).

(** One level of the breadth-first search of
    [single_source_shortest_path_length]: the neighbours of the nodes reached
    so far are added behind them. *)
Definition expand (g : graph) (reached : list node) : list node :=
  fold_left add_node (flat_map (neighbors g) reached) reached.

Fixpoint iterate {A : Type} (n : nat) (f : A -> A) (x : A) : A :=
  match n with
  | O => x
  | S n' => iterate n' f (f x)
  end.

(** The nodes reached from [v]; a search has no more levels than the graph
    has nodes. *)
Definition component (g : graph) (v : node) : list node :=
  iterate (List.length (nodes g)) (expand g) [v].

Fixpoint cc_loop (g : graph) (vs seen : list node) : list (list node) :=
  match vs with
  | [] => []
  | v :: vs' =>
      if mem v seen then cc_loop g vs' seen
      else let c := component g v in c :: cc_loop g vs' (c ++ seen)
  end.

(** [networkx.connected_components(g)], in the order in which the components
    are found.  (Releases that sort the components by decreasing length do
    so stably, so the stable ascending sort of the caller returns the same
    list.) *)
Definition connected_components (g : graph) : list (list node) :=
  cc_loop g (nodes g) [].

(** [sorted(networkx.connected_components(g), cmp = lambda x, y : len(x) - len(y))] *)
Definition cmp_len (x y : list node) : Z :=
  (Z.of_nat (List.length x) - Z.of_nat (List.length y))%Z.

Definition sorted_clusters (g : graph) : list (list node) :=
  sorted cmp_len (connected_components g).

(** ** Minimum spanning edges (networkx, Kruskal) *)

(** The union-find structure is observed only through [subtrees[u] !=
    subtrees[v]]; it is modelled by the map from a node to the representative
    of its set. *)
Definition union_find : Type := node -> node.

Definition uf_init : union_find := fun x => x.

Definition uf_union (uf : union_find) (u v : node) : union_find :=
  fun x => if node_eqb (uf x) (uf u) then uf v else uf x.

Fixpoint kruskal (uf : union_find) (es : list (node * node * attrs))
  : list (node * node * attrs) :=
  match es with
  | [] => []
  | (u, v, d) :: rest =>
      if node_eqb (uf u) (uf v) then kruskal uf rest
      else (u, v, d) :: kruskal (uf_union uf u v) rest
  end.

(** The weight of an edge of [sg] is [reversed_similarity = -similarity]. *)
Definition cmp_reversed (x y : node * node * attrs) : Z :=
  cmp_simi (- similarity (snd x)) (- similarity (snd y)).

Definition minimum_spanning_edges (sg : graph) : list (node * node * attrs) :=
  kruskal uf_init (sorted cmp_reversed (all_edges sg)).

(** ** [trim_cluster] *)

Definition pair_of (t : node * node * attrs) : node * node := fst t.

(** The edges kept for one node of the cluster: [r[-num_edges:]]. *)
Definition top_edges (g : graph) (num_edges : Z) (e : node)
  : list (node * node * attrs) :=
  slice_last num_edges
    (sorted (fun x y => cmp_edge g (pair_of x) (pair_of y)) (incident g e)).

Definition kept_edges (g : graph) (cluster : list node) (num_edges : Z)
  : list (node * node) :=
  map pair_of (flat_map (top_edges g num_edges) cluster)
  ++ map pair_of (minimum_spanning_edges (subgraph g cluster)).

Definition del_edges (g : graph) (cluster : list node) (num_edges : Z)
  : list (node * node) :=
  let edges := kept_edges g cluster num_edges in
  filter (fun e => negb (in_pairs (fst e) (snd e) edges) &&
                   negb (in_pairs (snd e) (fst e) edges))
         (map pair_of (edges_of g cluster)).

Definition trim_cluster (g : graph) (cluster : list node) (num_edges : Z) : graph :=
  remove_edges_from g (del_edges g cluster num_edges).

(** ** [gen_graph] *)

(** What the run writes: [logging.debug], the [print] of the search loop,
    [logging.info] and [logging.warn]. *)
Inductive event : Type :=
| Debug (simi : Q)
| Print (n : nat) (high mid low trial pretrial : Q)
| InfoTotal (n : nat)
| InfoSize (i : nat) (size : nat)
| WarnCannotConnect (cluster_index : nat)
| WarnBoundary (simi : Q) (node0 node1 : node).

(** Lines 102-112: the similarity of every pair is computed by the basic
    rule and deposited; the parents become the nodes of [basic_graph].  The
    set [all_ids] is a list without repetition in the order of insertion,
    which stands for the order in which Python iterates the set. *)
Fixpoint deposit_all (kb : kbase) (basic_rule : Rule) (mcs_ids : list string)
  (all_ids : list node) (out : list event)
  : result (kbase * list node * list event) :=
  match mcs_ids with
  | [] => Ok (kb, all_ids, out)
  | id :: rest =>
      do ids <- get_parent_ids kb id;
      let (id0, id1) := ids : node * node in
      do simi <- basic_rule kb id0 id1 id;
      deposit_all (deposit_similarity kb id simi) basic_rule rest
                  (add_node (add_node all_ids id0) id1) (out ++ [Debug simi])
  end.

(** The variables of the binary search. *)
Record search_state : Type := mkSearch {
  high : Q; mid : Q; low : Q; trial : Q; pretrial : Q
}.

Inductive step_result : Type :=
| Continue (st : search_state)
| Break (st : search_state).

(** [int(x)] truncates towards zero. *)
Definition int_trunc (x : Q) : Z := Z.quot (Qnum x) (Zpos (Qden x)).

(** Lines 129-139: one pass through the body of the [while], up to the
    [break] or to the rebuilding of [desired]. *)
Definition search_step (max_csize : Z) (n : nat) (st : search_state) : step_result :=
  if (max_csize <? Z.of_nat n)%Z then
    let t := Qred ((1 # 2) * (high st + mid st)) in
    Continue {| high := high st; mid := t; low := mid st;
                trial := t; pretrial := trial st |}
  else if (int_trunc (inject_Z max_csize * (95 # 100)) >? Z.of_nat n)%Z then
    let t := Qred ((1 # 2) * (mid st + low st)) in
    Continue {| high := mid st; mid := t; low := low st;
                trial := t; pretrial := trial st |}
  else
    Break {| high := high st; mid := mid st; low := low st;
             trial := trial st; pretrial := trial st |}.

Definition tolerance : Q := 1 # 1000000.

(** [while (abs( trial - pretrial ) > 1E-6)] *)
Definition search_goes_on (st : search_state) : bool :=
  Qgt_bool (Qabs (trial st - pretrial st)) tolerance.

(** What the search holds when it is left. *)
Record searched : Type := mkSearched {
  s_state    : search_state;
  s_desired  : graph;
  s_clusters : list (list node);
  s_largest  : list node;
  s_out      : list event
}.

(** Lines 126-142.  [fuel] bounds the number of passes; [None] says that the
    loop was still running when the fuel was used up. *)
Fixpoint search_loop (fuel : nat) (kb : kbase) (basic_graph : graph)
  (mcs_ids : list string) (max_csize : Z) (s : searched)
  : option (result searched) :=
  if search_goes_on (s_state s) then
    match fuel with
    | O => None
    | S fuel' =>
        let st := s_state s in
        let n := List.length (s_largest s) in
        let out := s_out s ++ [Print n (high st) (mid st) (low st)
                                       (trial st) (pretrial st)] in
        match search_step max_csize n st with
        | Break st' =>
            Some (Ok (mkSearched st' (s_desired s) (s_clusters s) (s_largest s) out))
        | Continue st' =>
            match create kb basic_graph mcs_ids (Cutoff (trial st')) with
            | Raise e => Some (Raise e)
            | Ok desired =>
                let clusters := sorted_clusters desired in
                match index_neg clusters (-1) with
                | Raise e => Some (Raise e)
                | Ok largest =>
                    search_loop fuel' kb basic_graph mcs_ids max_csize
                      (mkSearched st' desired clusters largest out)
                end
            end
        end
    end
  else Some (Ok s).

(** The state in which the search is entered. *)
Definition search_init (simi_cutoff : Q) : search_state :=
  {| high := 1; mid := simi_cutoff; low := simi_cutoff; trial := 1; pretrial := 0 |}.

(** Lines 119-125: the search is entered only when the largest cluster is
    too big. *)
Definition threshold_search (fuel : nat) (kb : kbase) (basic_graph : graph)
  (mcs_ids : list string) (simi_cutoff : Q) (max_csize : Z)
  (desired : graph) (clusters : list (list node)) (largest : list node)
  (out : list event) : option (result searched) :=
  let init := search_init simi_cutoff in
  if (max_csize <? Z.of_nat (List.length largest))%Z
  then search_loop fuel kb basic_graph mcs_ids max_csize
         (mkSearched init desired clusters largest out)
  else Some (Ok (mkSearched init desired clusters largest out)).

(** Lines 145-147. *)
Definition trim_clusters (desired : graph) (clusters : list (list node)) : graph :=
  fold_left (fun g e => trim_cluster g e 2) clusters desired.

(** Lines 149-152. *)
Definition info_sizes (clusters : list (list node)) : list event :=
  InfoTotal (List.length clusters)
  :: map (fun ic => InfoSize (fst ic) (List.length (snd ic)))
         (combine (seq 0 (List.length clusters)) clusters).

(** *** Connecting the clusters (lines 154-182) *)

Definition nat_mem (i : nat) (l : list nat) : bool := existsb (Nat.eqb i) l.

Definition set_add (i : nat) (l : list nat) : list nat :=
  if nat_mem i l then l else l ++ [i].

(** [range( -1, -num_c2c - 1, -1 )] *)
Definition range_down (num_c2c : Z) : list Z :=
  map (fun i => (- Z.of_nat (S i))%Z) (seq 0 (Z.to_nat num_c2c)).

(** [clusters[e]] for an index that is not negative. *)
Definition cluster_at (clusters : list (list node)) (e : nat) : result (list node) :=
  match nth_error clusters e with
  | Some c => Ok c
  | None => Raise IndexError
  end.

(** Lines 179-181: the pending clusters that hold an end of the new edge. *)
Fixpoint touched (clusters : list (list node)) (node0 node1 : node)
  (unconnected connected : list nat) : result (list nat) :=
  match unconnected with
  | [] => Ok connected
  | e :: rest =>
      do c <- cluster_at clusters e;
      touched clusters node0 node1 rest
        (if mem node0 c || mem node1 c then set_add e connected else connected)
  end.

(** The keywords of the [add_edge] of line 177. *)
Definition boundary_attrs (simi : Q) (id : string) : attrs :=
  {| similarity := simi; partial_ring := None;
     mcs_id := Some id; boundary := Some true |}.

(** The state of the loop over [k]: the desired graph, the set
    [connected_clusters] and the events. *)
Definition bridging : Type := (graph * list nat * list event)%type.

(** Lines 172-181: the body of the loop over [k].  The two [KBASE.ask] of
    the log line (line 178) are taken to succeed: the nodes are ids of
    molecules that the knowledge base holds. *)
Definition bridge_step (complete : graph) (clusters : list (list node))
  (c2c_edges : list (node * node)) (unconnected : list nat)
  (b : bridging) (k : Z) : result bridging :=
  let '(desired, connected, out) := b in
  do edge <- index_neg c2c_edges k;
  let node0 := fst edge in
  let node1 := snd edge in
  do a <- match get_edge complete node0 node1 with
          | Some a => Ok a
          | None => Raise KeyError
          end;
  let simi := similarity a in
  do id <- match mcs_id a with Some id => Ok id | None => Raise KeyError end;
  let desired' := add_edge desired node0 node1 (boundary_attrs simi id) in
  do connected' <- touched clusters node0 node1 unconnected connected;
  Ok (desired', connected', out ++ [WarnBoundary simi node0 node1]).

Fixpoint bridge_loop (complete : graph) (clusters : list (list node))
  (c2c_edges : list (node * node)) (unconnected : list nat)
  (b : bridging) (ks : list Z) : result bridging :=
  match ks with
  | [] => Ok b
  | k :: ks' =>
      do b' <- bridge_step complete clusters c2c_edges unconnected b k;
      bridge_loop complete clusters c2c_edges unconnected b' ks'
  end.

(** Lines 160-163: the boundary edges of the popped cluster. *)
Definition boundary_edges (complete : graph) (clusters : list (list node))
  (this_cluster : list node) : result (list (node * node)) :=
  do other_clusters <- list_remove this_cluster clusters;
  Ok (flat_map (fun e => edge_boundary complete this_cluster e) other_clusters).

(** Lines 157-182: one pass of the [while] for the popped [cluster_index];
    [unconnected] is the set after the [pop]. *)
Definition connect_step (complete : graph) (clusters : list (list node))
  (num_c2c : Z) (desired : graph) (cluster_index : nat)
  (unconnected : list nat) (out : list event)
  : result (graph * list nat * list event) :=
  do this_cluster <- cluster_at clusters cluster_index;
  do c2c_edges <- boundary_edges complete clusters this_cluster;
  if (List.length c2c_edges =? 0)%nat
  then Ok (desired, unconnected, out ++ [WarnCannotConnect cluster_index])
  else
    let c2c_edges := sorted (cmp_edge complete) c2c_edges in
    do b <- bridge_loop complete clusters c2c_edges unconnected
              (desired, [], out) (range_down num_c2c);
    let '(desired', connected, out') := b in
    Ok (desired', filter (fun e => negb (nat_mem e connected)) unconnected, out').

(** The [while] over the set of unconnected clusters.  The set is a list in
    increasing order and [pop] takes its head (any member may be popped in
    Python; the properties of [connect_step] below hold for each choice). *)
Fixpoint connect_loop (fuel : nat) (complete : graph) (clusters : list (list node))
  (num_c2c : Z) (desired : graph) (unconnected : list nat) (out : list event)
  : option (result (graph * list event)) :=
  match unconnected with
  | [] => Some (Ok (desired, out))
  | cluster_index :: rest =>
      match fuel with
      | O => None
      | S fuel' =>
          match connect_step complete clusters num_c2c desired cluster_index rest out with
          | Raise e => Some (Raise e)
          | Ok (desired', unconnected', out') =>
              connect_loop fuel' complete clusters num_c2c desired' unconnected' out'
          end
      end
  end.

(** What [gen_graph] returns, and what it has written. *)
Record generated : Type := mkGenerated {
  g_desired  : graph;
  g_clusters : list (list node);
  g_out      : list event
}.

Definition lift {A B : Type} (m : result A) (k : A -> option (result B))
  : option (result B) :=
  match m with
  | Ok a => k a
  | Raise e => Some (Raise e)
  end.

Definition lift_opt {A B : Type} (m : option (result A)) (k : A -> option (result B))
  : option (result B) :=
  match m with
  | Some (Ok a) => k a
  | Some (Raise e) => Some (Raise e)
  | None => None
  end.

(** Lines 102-117: the knowledge base after the deposits, the graph of the
    nodes alone, the two graphs built from it and the first clusters. *)
Record built : Type := mkBuilt {
  b_kb       : kbase;
  b_basic    : graph;
  b_complete : graph;
  b_desired  : graph;
  b_clusters : list (list node);
  b_largest  : list node;
  b_out      : list event
}.

Definition build_graphs (kb : kbase) (mcs_ids : list string) (basic_rule : Rule)
  (simi_cutoff : Q) : result built :=
  do d <- deposit_all kb basic_rule mcs_ids [] [];
  let '(kb', all_ids, out) := d in
  let basic_graph := add_nodes_from empty_graph all_ids in
  do complete <- create kb' basic_graph mcs_ids (Cutoff 1);
  do desired <- create kb' basic_graph mcs_ids (Cutoff simi_cutoff);
  let clusters := sorted_clusters desired in
  do largest <- index_neg clusters (-1);
  Ok (mkBuilt kb' basic_graph complete desired clusters largest out).

(** [gen_graph(mcs_ids, basic_rule, simi_cutoff, max_csize, num_c2c)] on the
    knowledge base [kb].  [fuel] bounds the passes of each of the two [while]
    loops; the answer is [None] when a loop has not finished by then. *)
Definition gen_graph (fuel : nat) (kb : kbase) (mcs_ids : list string)
  (basic_rule : Rule) (simi_cutoff : Q) (max_csize : Z) (num_c2c : Z)
  : option (result generated) :=
  lift (build_graphs kb mcs_ids basic_rule simi_cutoff) (fun b =>
  lift_opt (threshold_search fuel (b_kb b) (b_basic b) mcs_ids simi_cutoff
              max_csize (b_desired b) (b_clusters b) (b_largest b) (b_out b))
           (fun s =>
  let desired := trim_clusters (s_desired s) (s_clusters s) in
  let clusters := s_clusters s in
  let out := s_out s ++ info_sizes clusters in
  lift_opt (connect_loop fuel (b_complete b) clusters num_c2c desired
              (seq 0 (List.length clusters)) out) (fun c =>
  Some (Ok (mkGenerated (fst c) clusters (snd c)))))).

(** ** The search step in the words of the specification *)

(** Section 4.3 of the specification: above [target_max_size] the cut-off is
    raised, below 95% of it the cut-off is lowered, otherwise the search
    stops.  [search_step] above is the step of the source; the two are
    compared below. *)
Definition spec_search_step (target_max_size : Z) (n : nat) (st : search_state)
  : step_result :=
  if (target_max_size <? Z.of_nat n)%Z then
    let t := Qred ((1 # 2) * (high st + mid st)) in
    Continue {| high := high st; mid := t; low := mid st;
                trial := t; pretrial := trial st |}
  else if Qlt_bool (inject_Z (Z.of_nat n)) ((95 # 100) * inject_Z target_max_size) then
    let t := Qred ((1 # 2) * (mid st + low st)) in
    Continue {| high := mid st; mid := t; low := low st;
                trial := t; pretrial := trial st |}
  else
    Break {| high := high st; mid := mid st; low := low st;
             trial := trial st; pretrial := trial st |}.

(** [logging.warn] *)
Definition warns (e : event) : bool :=
  match e with
  | WarnCannotConnect _ | WarnBoundary _ _ _ => true
  | Debug _ | Print _ _ _ _ _ _ | InfoTotal _ | InfoSize _ _ => false
  end.

(** ** Predicates used in the statements *)

(** An unordered pair of nodes. *)
Definition same_pair (a b u v : node) : Prop :=
  (a = u /\ b = v) \/ (a = v /\ b = u).

(** The pair of an identifier yields an edge under [rule]: its parents are
    known and its similarity is positive. *)
Definition yields_edge (kb : kbase) (rule : Rule) (id : string) (u v : node) : Prop :=
  exists id0 id1 simi,
    mcs_parents kb id = Some (id0, id1) /\ rule kb id0 id1 id = Ok simi /\
    (0 < simi)%Q /\ same_pair id0 id1 u v.

(** The rule answers for the pair of an identifier. *)
Definition rule_answers (kb : kbase) (rule : Rule) (id : string) : Prop :=
  exists id0 id1 simi,
    mcs_parents kb id = Some (id0, id1) /\ rule kb id0 id1 id = Ok simi.

(** The graph, the clusters and the largest cluster that the search holds
    belong to the cut-off [mid]. *)
Definition search_consistent (kb : kbase) (basic_graph : graph)
  (mcs_ids : list string) (s : searched) : Prop :=
  create kb basic_graph mcs_ids (Cutoff (mid (s_state s))) = Ok (s_desired s) /\
  s_clusters s = sorted_clusters (s_desired s) /\
  index_neg (s_clusters s) (-1) = Ok (s_largest s).

(** Cluster number [i] holds an end of the edge [t]. *)
Definition holds_end (clusters : list (list node)) (i : nat)
  (t : node * node * attrs) : Prop :=
  exists c, nth_error clusters i = Some c /\
            (In (fst (fst t)) c \/ In (snd (fst t)) c).

(** A graph after a sequence of [add_edge]. *)
Definition add_edges (g : graph) (added : list (node * node * attrs)) : graph :=
  fold_left (fun g t => add_edge g (fst (fst t)) (snd (fst t)) (snd t)) added g.

(** Both ends of every edge are nodes of the graph ([add_edge] sees to
    that). *)
Definition wf_graph (g : graph) : Prop :=
  forall e, In e (edges g) -> In (eu e) (nodes g) /\ In (ev e) (nodes g).

(** Reachability in a graph, and reachability along edges that stay inside
    a set of nodes. *)
Definition adjacent (g : graph) (u v : node) : Prop := has_edge g u v = true.

Definition connected (g : graph) : node -> node -> Prop :=
  clos_refl_trans node (adjacent g).

Definition adjacent_in (g : graph) (cluster : list node) (u v : node) : Prop :=
  In u cluster /\ In v cluster /\ has_edge g u v = true.

Definition connected_in (g : graph) (cluster : list node) : node -> node -> Prop :=
  clos_refl_trans node (adjacent_in g cluster).

(** Two nodes are linked by a list of edges when a chain of these edges,
    walked in either direction, leads from one to the other. *)
Definition tree_step (T : list (node * node * attrs)) (a b : node) : Prop :=
  exists d, In (a, b, d) T.

Definition linked (T : list (node * node * attrs)) : node -> node -> Prop :=
  clos_refl_sym_trans node (tree_step T).

(** The same with the links of a relation [R] thrown in. *)
Definition joined (R : node -> node -> Prop) (T : list (node * node * attrs))
  : node -> node -> Prop :=
  clos_refl_sym_trans node (fun a b => R a b \/ tree_step T a b).

(** The pair [(u, v)] is kept by [trim_cluster], in one of its two
    orientations: it is among the top edges of a node of the cluster or
    among the minimum spanning edges of the cluster. *)
Definition top_kept (g : graph) (cluster : list node) (num_edges : Z)
  (u v : node) : Prop :=
  exists n a, In n cluster /\ In (u, v, a) (top_edges g num_edges n).

Definition mst_kept (g : graph) (cluster : list node) (u v : node) : Prop :=
  exists a, In (u, v, a) (minimum_spanning_edges (subgraph g cluster)).

Definition kept (g : graph) (cluster : list node) (num_edges : Z)
  (u v : node) : Prop :=
  top_kept g cluster num_edges u v \/ top_kept g cluster num_edges v u \/
  mst_kept g cluster u v \/ mst_kept g cluster v u.

(** The bounds of the search stay in order and below 1 when the search
    starts from a cut-off of at most 1. *)
Definition search_ordered (st : search_state) : Prop :=
  (low st <= mid st)%Q /\ (mid st <= high st)%Q /\ (high st <= 1)%Q.

(** Powers of two, for the number of halvings of the search interval. *)
Fixpoint pow2 (k : nat) : Q :=
  match k with
  | O => 1
  | S k' => 2 * pow2 k'
  end.

(** A number of passes after which the search has stopped: [k + 1] for the
    least [k] with [2^k >= |1 - simi_cutoff| / tolerance]; 21 passes for a
    cut-off between 0 and 1. *)
Definition halvings (x : Q) : nat :=
  Z.to_nat (Z.log2_up (Qceiling (x / tolerance))).

Definition search_passes (simi_cutoff : Q) : nat :=
  S (halvings (Qabs (1 - simi_cutoff))).

(** The similarity by which [trim_cluster] ranks an edge of [g]. *)
Definition simi_at (g : graph) (t : node * node * attrs) : Q :=
  simi_of g (fst (pair_of t)) (snd (pair_of t)).

(** The union-find structure after Kruskal's loop has walked over [es]. *)
Fixpoint kruskal_uf (uf : union_find) (es : list (node * node * attrs))
  : union_find :=
  match es with
  | [] => uf
  | (u, v, d) :: rest =>
      if node_eqb (uf u) (uf v) then kruskal_uf uf rest
      else kruskal_uf (uf_union uf u v) rest
  end.

(** ** Runs used as examples *)

Module Examples.
Open Scope string_scope.

(** Three molecules A, B, C and the common substructures of A-B and of
    B-C; no [partial_ring] datum. *)
Definition kb_chain : kbase :=
  {| mcs_parents := fun id =>
       if String.eqb id "AB" then Some ("A", "B")
       else if String.eqb id "BC" then Some ("B", "C")
       else None;
     kb_partial_ring := fun _ => None;
     kb_similarity := fun _ => None |}.

(** A basic rule that gives every pair the same similarity. *)
Definition rule_const (simi : Q) : Rule := fun _ _ _ _ => Ok simi.

(** A basic rule that raises for the pair B-C. *)
Definition rule_fails_BC : Rule :=
  fun _ _ _ id => if String.eqb id "BC" then Raise RuleError else Ok (1 # 2).

Definition attrs_of (simi : Q) (id : string) : attrs :=
  {| similarity := simi; partial_ring := Some 0%Z;
     mcs_id := Some id; boundary := None |}.
End Examples.

Module ConnectorExample.
Import Examples.
Open Scope string_scope.

(** Two clusters {A} and {B}; the complete graph has the one edge A-B. *)
Definition complete : graph :=
  {| nodes := ["A"; "B"];
     edges := [mkEdge "A" "B" (attrs_of (3 # 2) "AB")] |}.

Definition desired : graph := {| nodes := ["A"; "B"]; edges := [] |}.

Definition clusters : list (list node) := [["A"]; ["B"]].

(** Three clusters {A}, {B} and {C}; the complete graph links A to both
    other nodes. *)
Definition complete3 : graph :=
  {| nodes := ["A"; "B"; "C"];
     edges := [mkEdge "A" "B" (attrs_of (3 # 2) "AB");
               mkEdge "A" "C" (attrs_of (5 # 4) "AC")] |}.

Definition desired3 : graph := {| nodes := ["A"; "B"; "C"]; edges := [] |}.

Definition clusters3 : list (list node) := [["A"]; ["B"]; ["C"]].
End ConnectorExample.

Module OrderExample.
Open Scope string_scope.

(** Two graphs with the nodes a and b and no edge; one iterates a first,
    the other b. *)
Definition g1 : graph := {| nodes := ["a"; "b"]; edges := [] |}.

Definition g2 : graph := {| nodes := ["b"; "a"]; edges := [] |}.
End OrderExample.

Module TrimExample.
Import Examples.
Open Scope string_scope.

(** A cluster of four nodes: the triangle A, B, C and the node D hanging
    on C by the least similar edge. *)
Definition g : graph :=
  {| nodes := ["A"; "B"; "C"; "D"];
     edges := [mkEdge "A" "B" (attrs_of (9 # 10) "AB");
               mkEdge "A" "C" (attrs_of (8 # 10) "AC");
               mkEdge "B" "C" (attrs_of (7 # 10) "BC");
               mkEdge "C" "D" (attrs_of (1 # 10) "CD")] |}.

Definition cluster : list node := ["A"; "B"; "C"; "D"].
End TrimExample.

(** ** Predicates for the further properties *)

(** The keywords of the [add_edge] of [create] (line 40). *)
Definition created_attrs (kb : kbase) (id : string) (simi : Q) : attrs :=
  {| similarity := simi;
     partial_ring := Some (match kb_partial_ring kb id with
                           | Some r => r
                           | None => 0%Z
                           end);
     mcs_id := Some id;
     boundary := None |}.

(** The edge [e] is as [create] writes it for one of the identifiers. *)
Definition written_by (kb : kbase) (rule : Rule) (mcs_ids : list string)
  (e : edge) : Prop :=
  exists id id0 id1 simi,
    In id mcs_ids /\ mcs_parents kb id = Some (id0, id1) /\
    rule kb id0 id1 id = Ok simi /\ (0 < simi)%Q /\
    same_pair id0 id1 (eu e) (ev e) /\ ea e = created_attrs kb id simi.

(** No two edges of the list join the same pair of nodes. *)
Fixpoint no_parallel (es : list edge) : Prop :=
  match es with
  | [] => True
  | e :: rest =>
      (forall e', In e' rest -> edge_is (eu e) (ev e) e' = false) /\
      no_parallel rest
  end.

(** The edge [t] is as the Connector adds it: it carries the similarity and
    the [mcs_id] of the edge of [complete] between its ends and the
    [boundary] flag, its first end is in a cluster and its second end in
    another cluster of the list. *)
Definition bridge_edge (complete : graph) (clusters : list (list node))
  (t : node * node * attrs) : Prop :=
  exists a id this others other,
    get_edge complete (fst (fst t)) (snd (fst t)) = Some a /\
    mcs_id a = Some id /\
    snd t = boundary_attrs (similarity a) id /\
    In this clusters /\ list_remove this clusters = Ok others /\
    In other others /\
    In (fst (fst t)) this /\ In (snd (fst t)) other.

(** The node [x] is a parent of one of the identifiers. *)
Definition parent_of (kb : kbase) (mcs_ids : list string) (x : node) : Prop :=
  exists id id0 id1,
    In id mcs_ids /\ mcs_parents kb id = Some (id0, id1) /\ (x = id0 \/ x = id1).

(** Some cluster of the list holds both nodes. *)
Definition same_cluster (clusters : list (list node)) (u v : node) : Prop :=
  exists c, In c clusters /\ In u c /\ In v c.

Module GenExample.
Import Examples.
Open Scope string_scope.

(** [gen_graph( ["AB", "BC"], rule, 0.3, 4, 1 )] for a rule that gives every
    pair the similarity 0.5: one cluster, nothing for the Connector to do. *)
Definition plain : generated :=
  {| g_desired :=
       {| nodes := ["A"; "B"; "C"];
          edges := [mkEdge "A" "B" (attrs_of (1 # 2) "AB");
                    mkEdge "B" "C" (attrs_of (1 # 2) "BC")] |};
     g_clusters := [["A"; "B"; "C"]];
     g_out := [Debug (1 # 2); Debug (1 # 2); InfoTotal 1; InfoSize 0 3;
               WarnCannotConnect 0] |}.

(** [gen_graph( ["AB"], rule, 2.0, 2, 1 )] for a rule that gives the pair
    the similarity 1.5: two clusters of one node, joined by the Connector. *)
Definition bridged : generated :=
  {| g_desired :=
       {| nodes := ["A"; "B"];
          edges := [mkEdge "A" "B" (boundary_attrs (3 # 2) "AB")] |};
     g_clusters := [["A"]; ["B"]];
     g_out := [Debug (3 # 2); InfoTotal 2; InfoSize 0 1; InfoSize 1 1;
               WarnBoundary (3 # 2) "A" "B"] |}.

(** The graphs of lines 102-117 for ["AB", "BC"], a rule that gives every
    pair the similarity 1, and the cut-off 0.5. *)
Definition built_chain : built :=
  {| b_kb := deposit_similarity (deposit_similarity kb_chain "AB" 1) "BC" 1;
     b_basic := {| nodes := ["A"; "B"; "C"]; edges := [] |};
     b_complete :=
       {| nodes := ["A"; "B"; "C"];
          edges := [mkEdge "A" "B" (attrs_of 1 "AB");
                    mkEdge "B" "C" (attrs_of 1 "BC")] |};
     b_desired :=
       {| nodes := ["A"; "B"; "C"];
          edges := [mkEdge "A" "B" (attrs_of 1 "AB");
                    mkEdge "B" "C" (attrs_of 1 "BC")] |};
     b_clusters := [["A"; "B"; "C"]];
     b_largest := ["A"; "B"; "C"];
     b_out := [Debug 1; Debug 1] |}.
End GenExample.

(** * [build.py]: the score matrix *)

(** A molecule as [matrix] reads it: [mol.id()] and [mol.title()]. *)
Record mol : Type := mkMol { mol_id : string; mol_title : string }.

(** [os.path.basename]: what follows the last slash. *)
Fixpoint has_slash (p : string) : bool :=
  match p with
  | EmptyString => false
  | String c p' => Ascii.eqb c "/"%char || has_slash p'
  end.

Fixpoint basename (p : string) : string :=
  match p with
  | EmptyString => EmptyString
  | String c p' =>
      if has_slash p' then basename p'
      else if Ascii.eqb c "/"%char then p' else p
  end.

(** A Python [dict] as an association list: a key is stored once, and
    [d[k] = v] replaces the value of a key that is there. *)
Section Dict.
Variables K V : Type.
Variable eqb : K -> K -> bool.

Fixpoint dict_get (d : list (K * V)) (k : K) : option V :=
  match d with
  | [] => None
  | (k', v) :: d' => if eqb k' k then Some v else dict_get d' k
  end.

Fixpoint dict_set (d : list (K * V)) (k : K) (v : V) : list (K * V) :=
  match d with
  | [] => [(k, v)]
  | (k', v') :: d' =>
      if eqb k' k then (k, v) :: d' else (k', v') :: dict_set d' k v
  end.
End Dict.

(** [d[k]] on a key that may be missing. *)
Definition dict_item {V : Type} (d : list (string * V)) (k : string) : result V :=
  match dict_get String.eqb d k with
  | Some v => Ok v
  | None => Raise KeyError
  end.

Definition pair_eqb (a b : string * string) : bool :=
  String.eqb (fst a) (fst b) && String.eqb (snd a) (snd b).

(** Lines 11-28: the lists and dictionaries filled from [mols].  [filename]
    is [KBASE.ask( id, "filename" )]. *)
Record listed : Type := mkListed {
  id_list           : list string;
  title_list        : list string;
  id_vs_title       : list (string * string);
  filename_vs_title : list (string * string)
}.

Definition list_mol (filename : string -> option string) (st : listed) (m : mol)
  : result listed :=
  let title := mol_title m in
  let id := mol_id m in
  do file_path <- ask (filename id);
  Ok {| id_list := add_node (id_list st) id;
        title_list := add_node (title_list st) title;
        id_vs_title := dict_set String.eqb (id_vs_title st) id title;
        filename_vs_title :=
          dict_set String.eqb (filename_vs_title st) (basename file_path) title |}.

Fixpoint list_mols (filename : string -> option string) (st : listed)
  (mols : list mol) : result listed :=
  match mols with
  | [] => Ok st
  | m :: rest => do st' <- list_mol filename st m; list_mols filename st' rest
  end.

(** Lines 29-35: [title_vs_simi], keyed by the ordered pair of titles. *)
Definition title_simi_step (kb : kbase) (rule : Rule)
  (ivt : list (string * string)) (tvs : list (string * string * Q)) (id : string)
  : result (list (string * string * Q)) :=
  do ids <- get_parent_ids kb id;
  let (id0, id1) := ids : node * node in
  do simi <- rule kb id0 id1 id;
  do title0 <- dict_item ivt id0;
  do title1 <- dict_item ivt id1;
  Ok (dict_set pair_eqb tvs (title0, title1) simi).

Fixpoint title_simi (kb : kbase) (rule : Rule) (ivt : list (string * string))
  (tvs : list (string * string * Q)) (mcs_ids : list string)
  : result (list (string * string * Q)) :=
  match mcs_ids with
  | [] => Ok tvs
  | id :: rest =>
      do tvs' <- title_simi_step kb rule ivt tvs id;
      title_simi kb rule ivt tvs' rest
  end.

(** A [numpy] array of two dimensions as a list of rows. *)
Definition zeros (n m : nat) : list (list Q) := repeat (repeat 0%Q m) n.

Fixpoint set_nth {A : Type} (l : list A) (i : nat) (x : A) : result (list A) :=
  match l, i with
  | [], _ => Raise IndexError
  | _ :: l', O => Ok (x :: l')
  | y :: l', S i' => do r <- set_nth l' i' x; Ok (y :: r)
  end.

(** [scores[i, j] = v] *)
Definition mset (scores : list (list Q)) (i j : nat) (v : Q)
  : result (list (list Q)) :=
  do row <- match nth_error scores i with
            | Some row => Ok row
            | None => Raise IndexError
            end;
  do row' <- set_nth row j v;
  set_nth scores i row'.

(** [scores[i, j]] *)
Definition mget (scores : list (list Q)) (i j : nat) : option Q :=
  match nth_error scores i with
  | Some row => nth_error row j
  | None => None
  end.

Definition list_item (l : list string) (i : nat) : result string :=
  match nth_error l i with
  | Some x => Ok x
  | None => Raise IndexError
  end.

(** Lines 41-47: the loop over [j] for one [i]. *)
Fixpoint fill_row (titles : list string) (tvs : list (string * string * Q))
  (i : nat) (js : list nat) (scores : list (list Q)) : result (list (list Q)) :=
  match js with
  | [] => Ok scores
  | j :: js' =>
      do title_i <- list_item titles i;
      do title_j <- list_item titles j;
      match dict_get pair_eqb tvs (title_i, title_j) with
      | Some simi =>
          do s1 <- mset scores i j simi;
          do s2 <- mset s1 j i simi;
          fill_row titles tvs i js' s2
      | None => fill_row titles tvs i js' scores
      end
  end.

(** Lines 39-47: the loop over [i]; [range( i + 1, size )] is
    [seq (i + 1) (size - (i + 1))]. *)
Fixpoint fill_rows (titles : list string) (tvs : list (string * string * Q))
  (size : nat) (is_ : list nat) (scores : list (list Q))
  : result (list (list Q)) :=
  match is_ with
  | [] => Ok scores
  | i :: rest =>
      do s1 <- mset scores i i 1;
      do s2 <- fill_row titles tvs i (seq (i + 1) (size - (i + 1))) s1;
      fill_rows titles tvs size rest s2
  end.

(** [matrix( mols, mcs_ids, rule )] *)
Definition matrix (filename : string -> option string) (kb : kbase)
  (mols : list mol) (mcs_ids : list string) (rule : Rule)
  : result (list string * list string * list (string * string) * list (list Q)) :=
  do st <- list_mols filename (mkListed [] [] [] []) mols;
  do tvs <- title_simi kb rule (id_vs_title st) [] mcs_ids;
  let size := List.length (title_list st) in
  let scores := zeros size size in
  do scores' <- fill_rows (title_list st) tvs size (seq 0 size) scores;
  Ok (title_list st, id_list st, filename_vs_title st, scores').

(** The titles of the parents of an identifier, in their order, as
    [matrix] looks them up: by the title of the last molecule of [mols] that
    has the parent's id. *)
Fixpoint last_title (mols : list mol) (id : string) : option string :=
  match mols with
  | [] => None
  | m :: rest =>
      match last_title rest id with
      | Some t => Some t
      | None => if String.eqb (mol_id m) id then Some (mol_title m) else None
      end
  end.

Definition parent_titles (kb : kbase) (mols : list mol) (id : string)
  : option (string * string) :=
  match mcs_parents kb id with
  | Some (id0, id1) =>
      match last_title mols id0, last_title mols id1 with
      | Some t0, Some t1 => Some (t0, t1)
      | _, _ => None
      end
  | None => None
  end.

(** The score that [matrix] stores for the rows [i] and [j] of the title
    list, read off [title_vs_simi]: the value under the pair of titles, in
    this order, and 0 when the pair is no key. *)
Definition pair_key (titles : list string) (tvs : list (string * string * Q))
  (i j : nat) : option Q :=
  match nth_error titles i, nth_error titles j with
  | Some ti, Some tj => dict_get pair_eqb tvs (ti, tj)
  | _, _ => None
  end.

(** All rows of the array have the length [n], and there are [n] rows. *)
Definition square (n : nat) (scores : list (list Q)) : Prop :=
  List.length scores = n /\ forall row, In row scores -> List.length row = n.

Module MatrixExample.
Open Scope string_scope.

(** Two molecules, [a] titled "A" and [b] titled "B". *)
Definition mols : list mol := [mkMol "a" "A"; mkMol "b" "B"].

Definition filename (id : string) : option string :=
  Some ("/data/" ++ id ++ ".mol2").

(** The common substructure "ba" has the parents [b] and [a], in this
    order; "ab" has them in the order of [mols]. *)
Definition kb : kbase :=
  {| mcs_parents := fun id =>
       if String.eqb id "ba" then Some ("b", "a")
       else if String.eqb id "ab" then Some ("a", "b")
       else if String.eqb id "ac" then Some ("a", "c")
       else None;
     kb_partial_ring := fun _ => None;
     kb_similarity := fun _ => None |}.

Definition rule_half : Rule := fun _ _ _ _ => Ok (1 # 2).
End MatrixExample.

(** What the loop over [j] for the row [i] leaves at [(a, b)] when it has
    walked the columns [js] from the array [scores]. *)
Definition row_filled (titles : list string) (tvs : list (string * string * Q))
  (i : nat) (js : list nat) (scores : list (list Q)) (a b : nat) : option Q :=
  if ((a =? i)%nat && existsb (Nat.eqb b) js)%bool then
    match pair_key titles tvs i b with
    | Some s => Some s
    | None => mget scores a b
    end
  else if ((b =? i)%nat && existsb (Nat.eqb a) js)%bool then
    match pair_key titles tvs i a with
    | Some s => Some s
    | None => mget scores a b
    end
  else mget scores a b.

(** What the loop over [i] leaves at [(a, b)] when it has walked the rows
    [is_] from the array [scores]. *)
Definition rows_filled (titles : list string) (tvs : list (string * string * Q))
  (is_ : list nat) (scores : list (list Q)) (a b : nat) : option Q :=
  if (a =? b)%nat then
    if existsb (Nat.eqb a) is_ then Some 1%Q else mget scores a b
  else if existsb (Nat.eqb (Nat.min a b)) is_ then
    match pair_key titles tvs (Nat.min a b) (Nat.max a b) with
    | Some s => Some s
    | None => mget scores a b
    end
  else mget scores a b.

(** * [mcs.py]: the loops of [OeMcs] *)

(** A match of [mcss.Match( mol0, True )] as [OeMcs.search] reads it: the
    atoms of the molecule that [OESubsetMol] cuts out of it, each with its
    [IsHydrogen()], and the index pairs of [match.GetAtoms()] as
    (pattern, target). *)
Record oematch : Type := mkMatch {
  subset_hydrogens : list bool;
  matchpairs       : list (Z * Z)
}.

(** Lines 134-140: the count of the atoms that are no hydrogen. *)
Definition num_atom (m : oematch) : Z :=
  fold_left (fun n is_hydrogen => if negb is_hydrogen then (n + 1)%Z else n)
            (subset_hydrogens m) 0%Z.

(** The variables that the loop over the matches keeps: [mcs_mol] (the
    match it was cut from), [max_num], [atom_match0] and [atom_match1]; the
    two lists are unbound as long as [mcs_mol] is [None]. *)
Record selection : Type := mkSelection {
  mcs_mol : option (oematch * list Z * list Z);
  max_num : Z
}.

(** Lines 145-149. *)
Definition atom_matches (m : oematch) : list Z * list Z :=
  fold_left (fun am matchpair =>
               let '(atom_match0, atom_match1) := am in
               (atom_match0 ++ [(fst matchpair + 1)%Z],
                atom_match1 ++ [(snd matchpair + 1)%Z]))
            (matchpairs m) ([], []).

(** Lines 133-149: one pass of the loop over the matches. *)
Definition select_step (s : selection) (m : oematch) : selection :=
  if (num_atom m >? max_num s)%Z
  then let '(atom_match0, atom_match1) := atom_matches m in
       {| mcs_mol := Some (m, atom_match0, atom_match1); max_num := num_atom m |}
  else s.

(** Lines 130-149. *)
Definition select_match (matches : list oematch) : selection :=
  fold_left select_step matches {| mcs_mol := None; max_num := 0 |}.

(** [if (result)] on what [search] returns: [None] and the empty string are
    false. *)
Definition truthy (r : option string) : bool :=
  match r with
  | Some id => negb (String.eqb id EmptyString)
  | None => false
  end.

Section SearchAll.
Variables state M : Type.

(** [self.search( mol0, mol1 )]: it may deposit into the knowledge base,
    whose state is [state], and returns an identifier or [None]. *)
Variable search : state -> M -> M -> state * option string.

(** Lines 167-170: the loop over [j] for one [i]. *)
Fixpoint search_row (mols : list M) (i : nat) (js : list nat)
  (st : state) (ret : list string) : result (state * list string) :=
  match js with
  | [] => Ok (st, ret)
  | j :: js' =>
      match nth_error mols i, nth_error mols j with
      | Some mi, Some mj =>
          let (st', r) := search st mi mj in
          search_row mols i js' st'
            (if truthy r
             then match r with Some id => ret ++ [id] | None => ret end
             else ret)
      | _, _ => Raise IndexError
      end
  end.

(** Lines 166-170: the loop over [i]. *)
Fixpoint search_rows (mols : list M) (is_ : list nat)
  (st : state) (ret : list string) : result (state * list string) :=
  match is_ with
  | [] => Ok (st, ret)
  | i :: rest =>
      do r <- search_row mols i (seq 0 i) st ret;
      search_rows mols rest (fst r) (snd r)
  end.

(** [OeMcs.search_all( mols )] *)
Definition search_all (mols : list M) (st : state) : result (state * list string) :=
  search_rows mols (seq 0 (List.length mols)) st [].
End SearchAll.

Module SelectExample.

(** Three matches with 2, 3 and 3 heavy atoms. *)
Definition m2 : oematch :=
  {| subset_hydrogens := [false; true; false]; matchpairs := [(0, 4); (1, 5)]%Z |}.

Definition m3 : oematch :=
  {| subset_hydrogens := [false; false; false];
     matchpairs := [(0, 1); (1, 2); (2, 3)]%Z |}.

Definition m3' : oematch :=
  {| subset_hydrogens := [false; false; true; false];
     matchpairs := [(5, 6); (6, 7); (7, 8)]%Z |}.
End SelectExample.

(** * [build.py]: [add_mcs_id] *)

(** How a call ends: it returns, an exception leaves it, or [sys.exit()]
    ends the program. *)
Inductive ended (A : Type) : Type :=
| Returned (a : A)
| Raised (e : exn)
| Exited.

Arguments Returned {A} a.
Arguments Raised {A} e.
Arguments Exited {A}.

(** ["mcs@%s..%s" % (name0, name1,)] *)
Definition mcs_title (name0 name1 : string) : string :=
  ("mcs@" ++ name0 ++ ".." ++ name1)%string.

(** [graph.add_edge( mol0_id, mol1_id, mcs_id = mcs_id )] for an edge
    [(mol0_id, mol1_id, data)] that [graph.edges( data = True )] has
    yielded.  The only keyword is [mcs_id]; a record of [attrs] always holds
    a similarity, and the one passed here is the one the edge has, which
    the update therefore leaves as it is. *)
Definition relabel (g : graph) (edge : node * node * attrs) (id : string) : graph :=
  add_edge g (fst (fst edge)) (snd (fst edge))
    {| similarity := similarity (snd edge); partial_ring := None;
       mcs_id := Some id; boundary := None |}.

(** Lines 53-67: the body of the loop.  [sha1] is
    [hashlib.sha1( s ).hexdigest()], and [title_of id] the title of
    [KBASE.ask( id )], which raises [LookupError] for an unknown id. *)
Definition add_mcs_id_step (sha1 : string -> string)
  (title_of : node -> option string) (mcs_id_list : list string)
  (g : graph) (edge : node * node * attrs) : ended graph :=
  match title_of (fst (fst edge)) with
  | None => Raised LookupError
  | Some name0 =>
      match title_of (snd (fst edge)) with
      | None => Raised LookupError
      | Some name1 =>
          let id := sha1 (mcs_title name0 name1) in
          if mem id mcs_id_list then Returned (relabel g edge id)
          else
            let id' := sha1 (mcs_title name1 name0) in
            if mem id' mcs_id_list then Returned (relabel g edge id')
            else Exited
      end
  end.

Fixpoint add_mcs_id_loop (sha1 : string -> string)
  (title_of : node -> option string) (mcs_id_list : list string)
  (g : graph) (todo : list (node * node * attrs)) : ended graph :=
  match todo with
  | [] => Returned g
  | edge :: rest =>
      match add_mcs_id_step sha1 title_of mcs_id_list g edge with
      | Returned g' => add_mcs_id_loop sha1 title_of mcs_id_list g' rest
      | Raised e => Raised e
      | Exited => Exited
      end
  end.

(** [add_mcs_id( mcs_id_list, graph )]; the list of [graph.edges( data =
    True )] is made before the loop starts.  The graph that is returned is
    the graph as the call leaves it. *)
Definition add_mcs_id (sha1 : string -> string)
  (title_of : node -> option string) (mcs_id_list : list string) (g : graph)
  : ended graph :=
  add_mcs_id_loop sha1 title_of mcs_id_list g (all_edges g).

(** The [mcs_id] of the edge is in the list and is the hash of the title
    made of the titles of its two ends, in one of the two orders. *)
Definition labelled (sha1 : string -> string) (title_of : node -> option string)
  (mcs_id_list : list string) (e : edge) : Prop :=
  exists name0 name1 id,
    title_of (eu e) = Some name0 /\ title_of (ev e) = Some name1 /\
    mcs_id (ea e) = Some id /\ In id mcs_id_list /\
    (id = sha1 (mcs_title name0 name1) \/ id = sha1 (mcs_title name1 name0)).

(** Neither of the two hashes of the pair of nodes is in the list. *)
Definition unlabellable (sha1 : string -> string)
  (title_of : node -> option string) (mcs_id_list : list string)
  (u v : node) : Prop :=
  exists name0 name1,
    title_of u = Some name0 /\ title_of v = Some name1 /\
    ~ In (sha1 (mcs_title name0 name1)) mcs_id_list /\
    ~ In (sha1 (mcs_title name1 name0)) mcs_id_list.

(** What [add_mcs_id] leaves of an edge as it was: its ends and every
    attribute other than [mcs_id]. *)
Definition edge_core (e : edge) : node * node * Q * option Z * option bool :=
  (eu e, ev e, similarity (ea e), partial_ring (ea e), boundary (ea e)).

Module LabelExample.
Import Examples.
Open Scope string_scope.

(** A stand-in for the hash, and titles for the nodes A, B and C. *)
Definition sha1 (s : string) : string := "#" ++ s.

Definition title_of (id : node) : option string :=
  if String.eqb id "A" then Some "mol-a"
  else if String.eqb id "B" then Some "mol-b"
  else if String.eqb id "C" then Some "mol-c"
  else None.

Definition g : graph :=
  {| nodes := ["A"; "B"; "C"];
     edges := [mkEdge "A" "B" (attrs_of (9 # 10) "x");
               mkEdge "B" "C" (attrs_of (7 # 10) "y")] |}.

(** The first identifier is the hash for A, B in the order of the edge, the
    second the hash for B, C in the other order. *)
Definition ids : list string := ["#mcs@mol-a..mol-b"; "#mcs@mol-c..mol-b"].

Definition labelled_g : graph :=
  {| nodes := ["A"; "B"; "C"];
     edges := [mkEdge "A" "B" (attrs_of (9 # 10) "#mcs@mol-a..mol-b");
               mkEdge "B" "C" (attrs_of (7 # 10) "#mcs@mol-c..mol-b")] |}.
End LabelExample.

(** * Spanning forests of least weight *)

(** The weight of a list of edges under [reversed_similarity]: the sum of
    [-similarity]. *)
Definition reversed_weight (T : list (node * node * attrs)) : Q :=
  fold_right (fun t w => (- similarity (snd t) + w)%Q) 0%Q T.

(** No edge of the list joins two nodes that the edges before it link: the
    edges close no cycle. *)
Definition acyclic (T : list (node * node * attrs)) : Prop :=
  forall pre t post,
    T = pre ++ t :: post -> ~ linked pre (fst (fst t)) (snd (fst t)).

(** [T] is a spanning forest of the edges [E]: it is made of edges of [E],
    closes no cycle, and links the two ends of every edge of [E]. *)
Definition spanning_forest (E T : list (node * node * attrs)) : Prop :=
  incl T E /\ acyclic T /\
  forall t, In t E -> linked T (fst (fst t)) (snd (fst t)).

(** The same notions on the union-find structure: the structure after all
    the edges of a list have been united, a list none of whose edges
    joins two nodes of one set, and two structures with the same sets. *)
Fixpoint uf_all (uf : union_find) (T : list (node * node * attrs)) : union_find :=
  match T with
  | [] => uf
  | (u, v, _) :: T' => uf_all (uf_union uf u v) T'
  end.

Fixpoint forest_from (uf : union_find) (T : list (node * node * attrs)) : Prop :=
  match T with
  | [] => True
  | (u, v, _) :: T' => uf u <> uf v /\ forest_from (uf_union uf u v) T'
  end.

Definition same_classes (uf1 uf2 : union_find) : Prop :=
  forall x y, uf1 x = uf1 y <-> uf2 x = uf2 y.

(** * Properties *)

(** ** Comparisons and membership *)

Lemma Qgt_bool_iff (x y : Q) : Qgt_bool x y = true <-> (y < x)%Q.
Proof.
  unfold Qgt_bool. rewrite negb_true_iff.
  split; intro H.
  - apply Qnot_le_lt. intro Hle. apply Qle_bool_iff in Hle. congruence.
  - destruct (Qle_bool x y) eqn:E; [|reflexivity].
    apply Qle_bool_iff in E. exfalso. exact (Qlt_not_le _ _ H E).
Qed.

Lemma Qlt_bool_iff (x y : Q) : Qlt_bool x y = true <-> (x < y)%Q.
Proof. unfold Qlt_bool. apply (Qgt_bool_iff y x). Qed.

Lemma node_eqb_eq (a b : node) : node_eqb a b = true <-> a = b.
Proof. apply String.eqb_eq. Qed.

Lemma node_eqb_refl (a : node) : node_eqb a a = true.
Proof. apply String.eqb_refl. Qed.

Lemma node_eqb_neq (a b : node) : node_eqb a b = false <-> a <> b.
Proof. apply String.eqb_neq. Qed.

Lemma node_eqb_sym (a b : node) : node_eqb a b = node_eqb b a.
Proof. apply String.eqb_sym. Qed.

Lemma mem_In (a : node) (l : list node) : mem a l = true <-> In a l.
Proof.
  unfold mem. rewrite existsb_exists. split.
  - intros [x [Hx E]]. apply node_eqb_eq in E. subst. exact Hx.
  - intro H. exists a. split; [exact H | apply node_eqb_refl].
Qed.

Lemma mem_false (a : node) (l : list node) : mem a l = false <-> ~ In a l.
Proof.
  rewrite <- mem_In. destruct (mem a l); split; congruence.
Qed.

(** ** The step of the threshold search *)

Lemma int_trunc_band (max_csize : Z) (n : nat) :
  (0 <= max_csize)%Z ->
  (int_trunc (inject_Z max_csize * (95 # 100)) >? Z.of_nat n)%Z = true <->
  (inject_Z (Z.of_nat n) + 1 <= (95 # 100) * inject_Z max_csize)%Q.
Proof.
  intro Hmax.
  unfold int_trunc. cbn [Qnum Qden Qmult inject_Z].
  rewrite Z.quot_div_nonneg by lia.
  rewrite Z.gtb_ltb, Z.ltb_lt.
  unfold Qle, Qplus, Qmult, inject_Z. cbn [Qnum Qden].
  change (Z.pos (1 * 100)) with 100%Z.
  change (Z.pos (1 * 1)) with 1%Z.
  change (Z.pos (100 * 1)) with 100%Z.
  split; intro H.
  - assert (Z.of_nat n + 1 <= max_csize * 95 / 100)%Z as H1 by lia.
    assert (100 * (max_csize * 95 / 100) <= max_csize * 95)%Z
      by (apply Z.mul_div_le; lia).
    lia.
  - assert (Z.of_nat n + 1 <= max_csize * 95 / 100)%Z as H1
      by (apply Z.div_le_lower_bound; lia).
    lia.
Qed.

(** C4, as amended: above [max_csize] the lower bound moves to the old
    [mid] and the trial to the midpoint of [high] and the old [mid]; when
    [n + 1 <= 0.95 * max_csize], that is when [n] is below the integer part
    of 95% of the bound, the upper bound moves to the old [mid] and the
    trial to the midpoint of the old [mid] and [low]; otherwise the search
    stops. *)
Theorem search_step_cases (max_csize : Z) (n : nat) (st : search_state) :
  ((max_csize < Z.of_nat n)%Z ->
     exists t, (t == (1 # 2) * (high st + mid st))%Q /\
       search_step max_csize n st =
       Continue {| high := high st; mid := t; low := mid st;
                   trial := t; pretrial := trial st |}) /\
  ((Z.of_nat n <= max_csize)%Z ->
   (inject_Z (Z.of_nat n) + 1 <= (95 # 100) * inject_Z max_csize)%Q ->
     exists t, (t == (1 # 2) * (mid st + low st))%Q /\
       search_step max_csize n st =
       Continue {| high := mid st; mid := t; low := low st;
                   trial := t; pretrial := trial st |}) /\
  ((Z.of_nat n <= max_csize)%Z ->
   ((95 # 100) * inject_Z max_csize < inject_Z (Z.of_nat n) + 1)%Q ->
     search_step max_csize n st =
     Break {| high := high st; mid := mid st; low := low st;
              trial := trial st; pretrial := trial st |}).
Proof.
  unfold search_step. repeat split.
  - intro H. apply Z.ltb_lt in H. rewrite H.
    eexists. split; [apply Qred_correct | reflexivity].
  - intros H1 H2.
    destruct (max_csize <? Z.of_nat n)%Z eqn:E; [apply Z.ltb_lt in E; lia|].
    apply int_trunc_band in H2; [|lia]. rewrite H2.
    eexists. split; [apply Qred_correct | reflexivity].
  - intros H1 H2.
    destruct (max_csize <? Z.of_nat n)%Z eqn:E; [apply Z.ltb_lt in E; lia|].
    destruct (int_trunc (inject_Z max_csize * (95 # 100)) >? Z.of_nat n)%Z eqn:E2;
      [|reflexivity].
    apply int_trunc_band in E2; [|lia].
    exfalso. exact (Qlt_not_le _ _ H2 E2).
Qed.

Lemma search_step_cases_witness :
  (exists t, (t == (1 # 2) * (1 + (1 # 2)))%Q /\
     search_step 2 3 (search_init (1 # 2)) =
     Continue {| high := 1; mid := t; low := 1 # 2; trial := t; pretrial := 1 |}) /\
  (exists t, (t == (1 # 2) * ((1 # 2) + (1 # 2)))%Q /\
     search_step 40 3 (search_init (1 # 2)) =
     Continue {| high := 1 # 2; mid := t; low := 1 # 2; trial := t; pretrial := 1 |}) /\
  search_step 5 4 (search_init (1 # 2)) =
  Break {| high := 1; mid := 1 # 2; low := 1 # 2; trial := 1; pretrial := 1 |}.
Proof.
  destruct (search_step_cases 2 3 (search_init (1 # 2))) as [H1 _].
  destruct (search_step_cases 40 3 (search_init (1 # 2))) as [_ [H2 _]].
  destruct (search_step_cases 5 4 (search_init (1 # 2))) as [_ [_ H3]].
  split; [|split].
  - apply H1. reflexivity.
  - apply H2; [intro H; discriminate H | intro H; discriminate H].
  - apply H3; [intro H; discriminate H | reflexivity].
Defined.

(** C4 as the specification states it fails: with a bound of 5 the cluster
    size 4 is below 95% of the bound (4 < 4.75), and the source stops the
    search where the specification lowers the cut-off. *)
Lemma search_step_below_band_stops :
  (inject_Z (Z.of_nat 4) < (95 # 100) * inject_Z 5)%Q /\
  search_step 5 4 (search_init (1 # 2)) =
    Break {| high := 1; mid := 1 # 2; low := 1 # 2; trial := 1; pretrial := 1 |} /\
  spec_search_step 5 4 (search_init (1 # 2)) =
    Continue {| high := 1 # 2; mid := 1 # 2; low := 1 # 2;
                trial := 1 # 2; pretrial := 1 |} /\
  search_step 5 4 (search_init (1 # 2)) <> spec_search_step 5 4 (search_init (1 # 2)).
Proof.
  split; [reflexivity|].
  split; [reflexivity|].
  split; [reflexivity|].
  intro H. discriminate H.
Qed.

(** C4 as the specification states it fails: a cluster below 95% of the
    bound does not always make the search lower the cut-off. *)
Lemma search_step_not_95_percent :
  ~ (forall (max_csize : Z) (n : nat) (st : search_state),
        (Z.of_nat n <= max_csize)%Z ->
        (inject_Z (Z.of_nat n) < (95 # 100) * inject_Z max_csize)%Q ->
        exists st', search_step max_csize n st = Continue st' /\ high st' = mid st).
Proof.
  intro H.
  destruct (H 5%Z 4%nat (search_init (1 # 2))) as [st' [E _]].
  - intro C. discriminate C.
  - reflexivity.
  - destruct search_step_below_band_stops as [_ [B _]].
    rewrite B in E. discriminate E.
Qed.

(** ** The complete graph *)

(** C2 fails on the source: [complete] is built with [rule.Cutoff( 1 )], so a
    pair of similarity 1/2 has no edge in it, while the desired graph at the
    cut-off 3/10 has that edge. *)
Theorem complete_misses_positive_similarity :
  exists b,
    build_graphs Examples.kb_chain ["AB"%string] (Examples.rule_const (1 # 2)) (3 # 10)
      = Ok b /\
    kb_similarity (b_kb b) "AB"%string = Some (1 # 2) /\
    has_edge (b_complete b) "A"%string "B"%string = false /\
    has_edge (b_desired b) "A"%string "B"%string = true.
Proof.
  eexists. split; [vm_compute; reflexivity|].
  repeat split.
Qed.

(** ** Edges of a graph under [add_edge] and [create] *)

Lemma edge_is_true (u v : node) (e : edge) :
  edge_is u v e = true <-> same_pair (eu e) (ev e) u v.
Proof.
  unfold edge_is, same_pair.
  rewrite orb_true_iff, !andb_true_iff.
  change (node_eqb (eu e) u = true) with (String.eqb (eu e) u = true).
  change (node_eqb (ev e) v = true) with (String.eqb (ev e) v = true).
  change (node_eqb (eu e) v = true) with (String.eqb (eu e) v = true).
  change (node_eqb (ev e) u = true) with (String.eqb (ev e) u = true).
  rewrite !String.eqb_eq. tauto.
Qed.

Lemma edge_is_sym (u v : node) (e : edge) : edge_is u v e = edge_is v u e.
Proof. unfold edge_is. apply orb_comm. Qed.

Lemma has_edge_sym (g : graph) (u v : node) : has_edge g u v = has_edge g v u.
Proof.
  unfold has_edge. induction (edges g) as [|e es IH]; [reflexivity|].
  cbn. rewrite IH, (edge_is_sym u v e). reflexivity.
Qed.

Lemma has_edge_true (g : graph) (u v : node) :
  has_edge g u v = true <->
  exists e, In e (edges g) /\ same_pair (eu e) (ev e) u v.
Proof.
  unfold has_edge. rewrite existsb_exists.
  split; intros [e [H1 H2]]; exists e; split; auto; apply edge_is_true; auto.
Qed.

Lemma set_edge_has (es : list edge) (a b : node) (at_ : attrs) (u v : node) :
  existsb (edge_is u v) (set_edge es a b at_) = true <->
  existsb (edge_is u v) es = true \/ same_pair a b u v.
Proof.
  induction es as [|e es IH]; cbn [set_edge existsb].
  - rewrite orb_false_r, edge_is_true. cbn. intuition congruence.
  - destruct (edge_is a b e) eqn:E.
    + cbn [existsb]. rewrite !orb_true_iff.
      apply edge_is_true in E.
      assert (edge_is u v {| eu := eu e; ev := ev e; ea := dict_update (ea e) at_ |}
              = edge_is u v e) as -> by reflexivity.
      split; [tauto|].
      intros [[H|H]|H]; auto.
      left. apply edge_is_true. unfold same_pair in *.
      intuition congruence.
    + cbn [existsb]. rewrite !orb_true_iff, IH. tauto.
Qed.

Lemma add_edge_has (g : graph) (a b : node) (at_ : attrs) (u v : node) :
  has_edge (add_edge g a b at_) u v = true <->
  has_edge g u v = true \/ same_pair a b u v.
Proof. unfold has_edge, add_edge. cbn [edges]. apply set_edge_has. Qed.

Lemma create_step_ok (kb : kbase) (rule : Rule) (g : graph) (id : string) :
  rule_answers kb rule id ->
  exists g', create_step kb rule g id = Ok g' /\
    forall u v, has_edge g' u v = true <->
                has_edge g u v = true \/ yields_edge kb rule id u v.
Proof.
  intros [id0 [id1 [simi [Hp Hr]]]].
  unfold create_step, get_parent_ids. rewrite Hp. cbn [ask bind]. rewrite Hr.
  cbn [bind].
  destruct (Qgt_bool simi 0) eqn:E.
  - eexists. split; [reflexivity|]. intros u v.
    rewrite add_edge_has. apply Qgt_bool_iff in E.
    split; intros [H|H]; auto.
    + right. exists id0, id1, simi. auto.
    + right. destruct H as [a [b [s [Ha [Hb [_ Hs]]]]]].
      rewrite Hp in Ha. injection Ha as <- <-. exact Hs.
  - exists g. split; [reflexivity|]. intros u v.
    split; [auto|]. intros [H|H]; auto.
    destruct H as [a [b [s [Ha [Hb [Hpos _]]]]]].
    rewrite Hp in Ha. injection Ha as <- <-.
    rewrite Hr in Hb. injection Hb as <-.
    apply Qgt_bool_iff in Hpos. congruence.
Qed.

Lemma create_from_ok (kb : kbase) (rule : Rule) (mcs_ids : list string) :
  forall g,
  (forall id, In id mcs_ids -> rule_answers kb rule id) ->
  exists g', create_from kb rule g mcs_ids = Ok g' /\
    forall u v, has_edge g' u v = true <->
                has_edge g u v = true \/
                exists id, In id mcs_ids /\ yields_edge kb rule id u v.
Proof.
  induction mcs_ids as [|id rest IH]; intros g Hall.
  - exists g. split; [reflexivity|]. intros u v. split; auto.
    intros [H|[id [[] _]]]. exact H.
  - destruct (create_step_ok g (Hall id (or_introl eq_refl))) as [g1 [E1 H1]].
    destruct (IH g1) as [g2 [E2 H2]].
    { intros i Hi. apply Hall. right. exact Hi. }
    exists g2. split.
    + cbn [create_from]. rewrite E1. exact E2.
    + intros u v. rewrite H2, H1. split.
      * intros [[H|H]|[i [Hi H]]]; auto.
        -- right. exists id. split; [left; reflexivity | exact H].
        -- right. exists i. split; [right; exact Hi | exact H].
      * intros [H|[i [[<-|Hi] H]]]; auto.
        right. exists i. auto.
Qed.

Lemma create_from_raises (kb : kbase) (rule : Rule) (before : list string) :
  forall g id after id0 id1 e,
  (forall i, In i before -> rule_answers kb rule i) ->
  mcs_parents kb id = Some (id0, id1) ->
  rule kb id0 id1 id = Raise e ->
  create_from kb rule g (before ++ id :: after) = Raise e.
Proof.
  induction before as [|i before IH]; intros g id after id0 id1 e Hall Hp Hr.
  - cbn [app create_from]. unfold create_step, get_parent_ids.
    rewrite Hp. cbn [ask bind]. rewrite Hr. reflexivity.
  - cbn [app create_from].
    destruct (create_step_ok g (Hall i (or_introl eq_refl))) as [g1 [E1 _]].
    rewrite E1. cbn [bind]. eapply IH; eauto.
    intros j Hj. apply Hall. right. exact Hj.
Qed.

(** ** Failure of the similarity rule *)

(** C5, as amended: [create] has no handler around [rule.similarity].  When
    the rule raises for a pair, the exception leaves [create] and no graph is
    built; when the rule answers for every pair, [create] returns a graph
    that has, besides the edges it started from, exactly the pairs of
    positive similarity (a similarity of zero or less is skipped). *)
Theorem create_rule_failure_propagates (kb : kbase) (rule : Rule) (g : graph) :
  (forall before id after id0 id1 e,
      (forall i, In i before -> rule_answers kb rule i) ->
      mcs_parents kb id = Some (id0, id1) ->
      rule kb id0 id1 id = Raise e ->
      create kb g (before ++ id :: after) rule = Raise e) /\
  (forall mcs_ids,
      (forall id, In id mcs_ids -> rule_answers kb rule id) ->
      exists g', create kb g mcs_ids rule = Ok g' /\
        forall u v, has_edge g' u v = true <->
                    has_edge g u v = true \/
                    exists id, In id mcs_ids /\ yields_edge kb rule id u v).
Proof.
  split.
  - intros. unfold create. eapply create_from_raises; eauto.
  - intros. unfold create. apply create_from_ok. assumption.
Qed.

Lemma create_rule_failure_propagates_witness :
  create Examples.kb_chain (add_nodes_from empty_graph ["A"; "B"; "C"]%string)
         (["AB"%string] ++ "BC"%string :: [])%list Examples.rule_fails_BC
    = Raise RuleError /\
  exists g',
    create Examples.kb_chain (add_nodes_from empty_graph ["A"; "B"; "C"]%string)
           ["AB"; "BC"]%string (Examples.rule_const (1 # 2)) = Ok g' /\
    has_edge g' "B"%string "C"%string = true.
Proof.
  pose proof (create_rule_failure_propagates Examples.kb_chain Examples.rule_fails_BC
                (add_nodes_from empty_graph ["A"; "B"; "C"]%string)) as [Hfail _].
  pose proof (create_rule_failure_propagates Examples.kb_chain
                (Examples.rule_const (1 # 2))
                (add_nodes_from empty_graph ["A"; "B"; "C"]%string)) as [_ Hok].
  split.
  - apply (Hfail ["AB"%string] "BC"%string [] "B"%string "C"%string RuleError).
    + intros i [<-|[]]. exists "A"%string, "B"%string, (1 # 2). split; reflexivity.
    + reflexivity.
    + reflexivity.
  - destruct (Hok ["AB"; "BC"]%string) as [g' [E H]].
    + intros id [<-|[<-|[]]].
      * exists "A"%string, "B"%string, (1 # 2). split; reflexivity.
      * exists "B"%string, "C"%string, (1 # 2). split; reflexivity.
    + exists g'. split; [exact E|].
      apply H. right. exists "BC"%string. split; [right; left; reflexivity|].
      exists "B"%string, "C"%string, (1 # 2).
      repeat split. left. split; reflexivity.
Defined.

(** C5 as the specification states it fails: a rule that raises for the pair
    B-C makes [create] raise, and [gen_graph] with it; the pair is not
    skipped and the build does not complete. *)
Lemma rule_failure_aborts_build :
  create Examples.kb_chain (add_nodes_from empty_graph ["A"; "B"; "C"]%string)
         ["AB"; "BC"]%string Examples.rule_fails_BC = Raise RuleError /\
  gen_graph 10 Examples.kb_chain ["AB"; "BC"]%string Examples.rule_fails_BC
            (3 # 10) 4 1 = Some (Raise RuleError) /\
  ~ (forall (kb : kbase) (g : graph) (mcs_ids : list string) (rule : Rule),
        (forall id, In id mcs_ids -> mcs_parents kb id <> None) ->
        exists g', create kb g mcs_ids rule = Ok g').
Proof.
  split; [reflexivity|]. split; [reflexivity|].
  intro H.
  destruct (H Examples.kb_chain (add_nodes_from empty_graph ["A"; "B"; "C"]%string)
              ["AB"; "BC"]%string Examples.rule_fails_BC) as [g' E].
  - intros id [<-|[<-|[]]]; discriminate.
  - discriminate E.
Qed.

(** ** What the threshold search returns *)

Lemma search_step_mid (max_csize : Z) (n : nat) (st : search_state) :
  match search_step max_csize n st with
  | Continue st' => mid st' = trial st'
  | Break st' => mid st' = mid st
  end.
Proof.
  unfold search_step.
  destruct (max_csize <? Z.of_nat n)%Z; [reflexivity|].
  destruct (int_trunc (inject_Z max_csize * (95 # 100)) >? Z.of_nat n)%Z; reflexivity.
Qed.

Lemma search_loop_result (kb : kbase) (basic_graph : graph)
  (mcs_ids : list string) (max_csize : Z) (fuel : nat) :
  forall s r,
  search_loop fuel kb basic_graph mcs_ids max_csize s = Some (Ok r) ->
  search_consistent kb basic_graph mcs_ids s ->
  search_consistent kb basic_graph mcs_ids r /\
  exists prints, s_out r = s_out s ++ prints /\
                 Forall (fun e => warns e = false) prints.
Proof.
  induction fuel as [|fuel IH]; intros s r H Hs; cbn [search_loop] in H.
  - destruct (search_goes_on (s_state s)); [discriminate|].
    injection H as <-. split; [exact Hs|].
    exists []. rewrite app_nil_r. split; [reflexivity | constructor].
  - destruct (search_goes_on (s_state s)).
    + pose proof (search_step_mid max_csize (List.length (s_largest s)) (s_state s)) as Hm.
      destruct (search_step max_csize (List.length (s_largest s)) (s_state s))
        as [st'|st'].
      * destruct (create kb basic_graph mcs_ids (Cutoff (trial st'))) as [d|e] eqn:Ec;
          [|discriminate].
        destruct (index_neg (sorted_clusters d) (-1)) as [l|e] eqn:El;
          [|discriminate].
        apply IH in H.
        -- destruct H as [Hr [prints [Ho Hp]]]. split; [exact Hr|].
           cbn [s_out] in Ho.
           eexists. rewrite Ho, <- app_assoc. split; [reflexivity|].
           constructor; [reflexivity | exact Hp].
        -- unfold search_consistent. cbn [s_state s_desired s_clusters s_largest].
           rewrite Hm. auto.
      * injection H as <-. split.
        -- destruct Hs as [H1 [H2 H3]].
           unfold search_consistent. cbn [s_state s_desired s_clusters s_largest].
           rewrite Hm. auto.
        -- eexists. cbn [s_out]. split; [reflexivity|].
           constructor; [reflexivity | constructor].
    + injection H as <-. split; [exact Hs|].
      exists []. rewrite app_nil_r. split; [reflexivity | constructor].
Qed.

Lemma threshold_search_consistent (fuel : nat) (kb : kbase)
  (basic_graph : graph) (mcs_ids : list string) (simi_cutoff : Q)
  (max_csize : Z) (desired : graph) (largest : list node) (out : list event)
  (s : searched) :
  create kb basic_graph mcs_ids (Cutoff simi_cutoff) = Ok desired ->
  index_neg (sorted_clusters desired) (-1) = Ok largest ->
  threshold_search fuel kb basic_graph mcs_ids simi_cutoff max_csize
    desired (sorted_clusters desired) largest out = Some (Ok s) ->
  search_consistent kb basic_graph mcs_ids s.
Proof.
  intros Hd Hl H. unfold threshold_search in H.
  assert (search_consistent kb basic_graph mcs_ids
            (mkSearched (search_init simi_cutoff) desired
                        (sorted_clusters desired) largest out)) as Hc.
  { unfold search_consistent. cbn. auto. }
  destruct (max_csize <? Z.of_nat (List.length largest))%Z.
  - apply search_loop_result in H; [|exact Hc]. destruct H as [H _]. exact H.
  - injection H as <-. exact Hc.
Qed.

(** C7, as amended: when the search is left (whatever the size of the
    largest cluster then is), it holds the desired graph built at the last
    computed cut-off, the clusters of that graph and its largest cluster;
    what it has written is the [print] line of each pass and no warning. *)
Theorem threshold_search_returns_last (fuel : nat) (kb : kbase)
  (basic_graph : graph) (mcs_ids : list string) (simi_cutoff : Q)
  (max_csize : Z) (desired : graph) (largest : list node) (out : list event)
  (s : searched) :
  create kb basic_graph mcs_ids (Cutoff simi_cutoff) = Ok desired ->
  index_neg (sorted_clusters desired) (-1) = Ok largest ->
  threshold_search fuel kb basic_graph mcs_ids simi_cutoff max_csize
    desired (sorted_clusters desired) largest out = Some (Ok s) ->
  create kb basic_graph mcs_ids (Cutoff (mid (s_state s))) = Ok (s_desired s) /\
  s_clusters s = sorted_clusters (s_desired s) /\
  index_neg (s_clusters s) (-1) = Ok (s_largest s) /\
  exists prints, s_out s = out ++ prints /\
                 Forall (fun e => warns e = false) prints.
Proof.
  intros Hd Hl H. unfold threshold_search in H.
  assert (search_consistent kb basic_graph mcs_ids
            (mkSearched (search_init simi_cutoff) desired
                        (sorted_clusters desired) largest out)) as Hc.
  { unfold search_consistent. cbn. auto. }
  destruct (max_csize <? Z.of_nat (List.length largest))%Z.
  - apply search_loop_result in H; [|exact Hc].
    destruct H as [[H1 [H2 H3]] H4]. auto.
  - injection H as <-. destruct Hc as [H1 [H2 H3]].
    repeat split; auto.
    exists []. rewrite app_nil_r. split; [reflexivity | constructor].
Qed.

Lemma threshold_search_returns_last_witness :
  exists s,
    threshold_search 5 (deposit_similarity (deposit_similarity Examples.kb_chain
                          "AB"%string 1) "BC"%string 1)
      (add_nodes_from empty_graph ["A"; "B"; "C"]%string) ["AB"; "BC"]%string
      1 2
      {| nodes := ["A"; "B"; "C"]%string;
         edges := [mkEdge "A"%string "B"%string (Examples.attrs_of 1 "AB"%string);
                   mkEdge "B"%string "C"%string (Examples.attrs_of 1 "BC"%string)] |}
      [["A"; "B"; "C"]%string] ["A"; "B"; "C"]%string [] = Some (Ok s) /\
    s_clusters s = sorted_clusters (s_desired s) /\
    exists prints, s_out s = [] ++ prints /\
                   Forall (fun e => warns e = false) prints.
Proof.
  eexists. split; [vm_compute; reflexivity|].
  match goal with
  | |- context [s_clusters ?s] =>
      pose proof (@threshold_search_returns_last 5
        (deposit_similarity (deposit_similarity Examples.kb_chain
                               "AB"%string 1) "BC"%string 1)
        (add_nodes_from empty_graph ["A"; "B"; "C"]%string) ["AB"; "BC"]%string
        1 2
        {| nodes := ["A"; "B"; "C"]%string;
           edges := [mkEdge "A"%string "B"%string (Examples.attrs_of 1 "AB"%string);
                     mkEdge "B"%string "C"%string (Examples.attrs_of 1 "BC"%string)] |}
        ["A"; "B"; "C"]%string [] s) as H
  end.
  destruct H as [_ [H2 [_ H4]]].
  - vm_compute. reflexivity.
  - vm_compute. reflexivity.
  - vm_compute. reflexivity.
  - split; [exact H2 | exact H4].
Defined.

(** C7 as the specification states it fails: with every similarity equal to
    1 and a bound of 2, the search ends with a cluster of 3 nodes; it has
    written one [print] line and no warning, and [gen_graph] returns
    normally with that cluster; its one warning is the Connector's. *)
Lemma oversized_cluster_is_not_signalled :
  exists b s r,
    build_graphs Examples.kb_chain ["AB"; "BC"]%string (Examples.rule_const 1) 1
      = Ok b /\
    threshold_search 5 (b_kb b) (b_basic b) ["AB"; "BC"]%string 1 2
      (b_desired b) (b_clusters b) (b_largest b) (b_out b) = Some (Ok s) /\
    (2 < Z.of_nat (List.length (s_largest s)))%Z /\
    s_out s = b_out b ++ [Print 3 1 1 1 1 0] /\
    existsb warns (s_out s) = false /\
    gen_graph 5 Examples.kb_chain ["AB"; "BC"]%string (Examples.rule_const 1) 1 2 1
      = Some (Ok r) /\
    g_clusters r = [["A"; "B"; "C"]%string] /\
    g_out r = [Debug 1; Debug 1; Print 3 1 1 1 1 0; InfoTotal 1; InfoSize 0 3;
               WarnCannotConnect 0].
Proof.
  eexists. eexists. eexists.
  split; [vm_compute; reflexivity|].
  split; [vm_compute; reflexivity|].
  split; [reflexivity|].
  split; [reflexivity|].
  split; [reflexivity|].
  split; [vm_compute; reflexivity|].
  split; reflexivity.
Qed.

(** ** The Connector *)

(** C3 fails on the source: the loop over [k] indexes [c2c_edges[k]] for
    every [k] down to [-num_c2c]; with one boundary edge and
    [num_c2c = 2] the second index is out of range, the step raises
    [IndexError] and [gen_graph] with it.  (With [num_c2c = 1] the same
    step adds the edge.) *)
Theorem connector_raises_on_few_boundary_edges :
  boundary_edges ConnectorExample.complete ConnectorExample.clusters ["A"%string]
    = Ok [("A", "B")]%string /\
  connect_step ConnectorExample.complete ConnectorExample.clusters 2
    ConnectorExample.desired 0 [1%nat] [] = Raise IndexError /\
  connect_step ConnectorExample.complete ConnectorExample.clusters 1
    ConnectorExample.desired 0 [1%nat] []
    = Ok ({| nodes := ["A"; "B"]%string;
             edges := [mkEdge "A"%string "B"%string
                         (boundary_attrs (3 # 2) "AB"%string)] |},
          [], [WarnBoundary (3 # 2) "A"%string "B"%string]) /\
  gen_graph 5 Examples.kb_chain ["AB"%string] (Examples.rule_const (3 # 2)) 2 2 2
    = Some (Raise IndexError).
Proof.
  split; [reflexivity|]. split; [reflexivity|]. split; [reflexivity|].
  vm_compute. reflexivity.
Qed.

Lemma nat_mem_In (i : nat) (l : list nat) : nat_mem i l = true <-> In i l.
Proof.
  unfold nat_mem. rewrite existsb_exists. split.
  - intros [x [Hx E]]. apply Nat.eqb_eq in E. subst. exact Hx.
  - intro H. exists i. split; [exact H | apply Nat.eqb_refl].
Qed.

Lemma set_add_In (i e : nat) (l : list nat) :
  In i (set_add e l) <-> i = e \/ In i l.
Proof.
  unfold set_add. destruct (nat_mem e l) eqn:E.
  - apply nat_mem_In in E. split; [auto|]. intros [->|H]; auto.
  - rewrite in_app_iff. cbn. intuition.
Qed.

Lemma touched_spec (clusters : list (list node)) (node0 node1 : node)
  (unconnected : list nat) :
  forall connected r,
  touched clusters node0 node1 unconnected connected = Ok r ->
  forall i, In i r <->
            In i connected \/
            (In i unconnected /\
             exists c, nth_error clusters i = Some c /\ (In node0 c \/ In node1 c)).
Proof.
  induction unconnected as [|e rest IH]; intros connected r H i.
  - injection H as <-. cbn. tauto.
  - cbn [touched] in H. unfold cluster_at in H.
    destruct (nth_error clusters e) as [c|] eqn:Ec; [|discriminate].
    cbn [bind] in H. apply IH with (i := i) in H. rewrite H. clear H.
    destruct (mem node0 c || mem node1 c) eqn:Em.
    + rewrite set_add_In. apply orb_true_iff in Em.
      rewrite !mem_In in Em. split.
      * intros [[->|H]|[H1 H2]]; auto.
        -- right. split; [left; reflexivity|]. exists c. auto.
        -- right. split; [right; exact H1 | exact H2].
      * intros [H|[[<-|H1] H2]]; auto.
    + apply orb_false_iff in Em. rewrite !mem_false in Em. split.
      * intros [H|[H1 H2]]; auto.
        right. split; [right; exact H1 | exact H2].
      * intros [H|[[<-|H1] [c' [Hc H2]]]]; auto.
        -- rewrite Ec in Hc. injection Hc as <-. tauto.
        -- right. split; [exact H1|]. exists c'. auto.
Qed.

Lemma index_neg_In {A : Type} (l : list A) (k : Z) (x : A) :
  index_neg l k = Ok x -> In x l.
Proof.
  unfold index_neg.
  destruct (Z.of_nat (List.length l) + k <? 0)%Z; [discriminate|].
  destruct (nth_error l (Z.to_nat (Z.of_nat (List.length l) + k))) eqn:E;
    [|discriminate].
  intro H. injection H as <-. eapply nth_error_In. exact E.
Qed.

Lemma bridge_loop_spec (complete : graph) (clusters : list (list node))
  (c2c_edges : list (node * node)) (unconnected : list nat) (ks : list Z) :
  forall desired connected out desired' connected' out',
  bridge_loop complete clusters c2c_edges unconnected (desired, connected, out) ks
    = Ok (desired', connected', out') ->
  exists added,
    desired' = add_edges desired added /\
    List.length added = List.length ks /\
    Forall (fun t => boundary (snd t) = Some true /\ In (fst t) c2c_edges) added /\
    forall i, In i connected' <->
              In i connected \/
              (In i unconnected /\ exists t, In t added /\ holds_end clusters i t).
Proof.
  induction ks as [|k ks IH]; intros desired connected out desired' connected' out' H.
  - injection H as <- <- <-. exists []. repeat split; auto.
    + intros [H|[_ [t [[] _]]]]. exact H.
  - cbn [bridge_loop] in H.
    destruct (bridge_step complete clusters c2c_edges unconnected
                (desired, connected, out) k) as [[[d1 c1] o1]|e] eqn:Es;
      [|discriminate].
    cbn [bind] in H. apply IH in H. destruct H as [added [Hd [Hl [Hf Hc]]]].
    unfold bridge_step in Es.
    destruct (index_neg c2c_edges k) as [edge|] eqn:Ei; [|discriminate].
    cbn [bind] in Es.
    destruct (get_edge complete (fst edge) (snd edge)) as [a|]; [|discriminate].
    cbn [bind] in Es.
    destruct (mcs_id a) as [id|]; [|discriminate].
    cbn [bind] in Es.
    destruct (touched clusters (fst edge) (snd edge) unconnected connected)
      as [c1'|] eqn:Et; [|discriminate].
    cbn [bind] in Es. injection Es as <- <- <-.
    exists ((fst edge, snd edge, boundary_attrs (similarity a) id) :: added).
    split; [exact Hd|]. split; [cbn; rewrite Hl; reflexivity|].
    split.
    + constructor; [|exact Hf]. split; [reflexivity|].
      cbn. rewrite <- surjective_pairing. eapply index_neg_In. exact Ei.
    + intro i. rewrite Hc. rewrite (touched_spec _ _ _ _ _ Et i).
      unfold holds_end. split.
      * intros [[H|[H1 H2]]|[H1 [t [H2 H3]]]]; auto.
        -- right. split; [exact H1|]. eexists. split; [left; reflexivity|].
           exact H2.
        -- right. split; [exact H1|]. exists t. split; [right; exact H2|exact H3].
      * intros [H|[H1 [t [[<-|H2] H3]]]]; auto.
        right. split; [exact H1|]. exists t. auto.
Qed.

Lemma range_down_length (num_c2c : Z) :
  List.length (range_down num_c2c) = Z.to_nat num_c2c.
Proof. unfold range_down. rewrite length_map, length_seq. reflexivity. Qed.

(** C9: when a pass of the Connector ends, the pending clusters are the
    former ones less every cluster that holds an end of an edge added in
    this pass; all of them are removed at once.  The edges added are at most
    [num_c2c], each flagged [boundary]. *)
Theorem connect_step_removes_every_bridged_cluster
  (complete : graph) (clusters : list (list node)) (num_c2c : Z)
  (desired : graph) (cluster_index : nat) (unconnected : list nat)
  (out : list event) (desired' : graph) (unconnected' : list nat)
  (out' : list event) :
  connect_step complete clusters num_c2c desired cluster_index unconnected out
    = Ok (desired', unconnected', out') ->
  exists added,
    desired' = add_edges desired added /\
    (List.length added <= Z.to_nat num_c2c)%nat /\
    Forall (fun t => boundary (snd t) = Some true) added /\
    forall i, In i unconnected' <->
              In i unconnected /\
              ~ exists t, In t added /\ holds_end clusters i t.
Proof.
  unfold connect_step. intro H.
  destruct (cluster_at clusters cluster_index) as [this|]; [|discriminate].
  cbn [bind] in H.
  destruct (boundary_edges complete clusters this) as [c2c|]; [|discriminate].
  cbn [bind] in H.
  destruct (List.length c2c =? 0)%nat.
  - injection H as <- <- <-. exists [].
    split; [reflexivity|]. split; [apply Nat.le_0_l|]. split; [constructor|].
    intro i. split.
    + intro Hi. split; [exact Hi|]. intros [t [[] _]].
    + intros [Hi _]. exact Hi.
  - destruct (bridge_loop complete clusters (sorted (cmp_edge complete) c2c)
                unconnected (desired, [], out) (range_down num_c2c))
      as [[[d1 c1] o1]|] eqn:Eb; [|discriminate].
    cbn [bind] in H. injection H as <- <- <-.
    apply bridge_loop_spec in Eb. destruct Eb as [added [Hd [Hl [Hf Hc]]]].
    exists added. split; [exact Hd|].
    split; [rewrite Hl, range_down_length; apply Nat.le_refl|].
    split.
    + eapply Forall_impl; [|exact Hf]. intros t [Ht _]. exact Ht.
    + intro i. rewrite filter_In, negb_true_iff.
      split.
      * intros [H1 H2]. split; [exact H1|]. intro Hex.
        assert (In i c1) as Hin by (apply Hc; right; auto).
        apply nat_mem_In in Hin. congruence.
      * intros [H1 H2]. split; [exact H1|].
        destruct (nat_mem i c1) eqn:E; [|reflexivity].
        apply nat_mem_In in E. apply Hc in E.
        destruct E as [[]|[_ Hex]]. contradiction.
Qed.

Lemma connect_step_removes_every_bridged_cluster_witness :
  exists added,
    {| nodes := ["A"; "B"; "C"]%string;
       edges := [mkEdge "A"%string "B"%string (boundary_attrs (3 # 2) "AB"%string);
                 mkEdge "A"%string "C"%string (boundary_attrs (5 # 4) "AC"%string)] |}
    = add_edges ConnectorExample.desired3 added /\
    (List.length added <= Z.to_nat 2)%nat /\
    Forall (fun t => boundary (snd t) = Some true) added /\
    forall i, In i [] <->
              In i [1; 2]%nat /\
              ~ exists t, In t added /\ holds_end ConnectorExample.clusters3 i t.
Proof.
  apply (@connect_step_removes_every_bridged_cluster
           ConnectorExample.complete3 ConnectorExample.clusters3 2
           ConnectorExample.desired3 0 [1; 2]%nat []
           _ [] [WarnBoundary (3 # 2) "A"%string "B"%string;
                 WarnBoundary (5 # 4) "A"%string "C"%string]).
  reflexivity.
Defined.

(** ** Termination of the threshold search *)

Lemma pow2_ge_1 (k : nat) : (1 <= pow2 k)%Q.
Proof. induction k; cbn [pow2]; lra. Qed.

Lemma pow2_inject (k : nat) : (pow2 k == inject_Z (2 ^ Z.of_nat k))%Q.
Proof.
  induction k as [|k IH].
  - reflexivity.
  - rewrite Nat2Z.inj_succ, Z.pow_succ_r by lia.
    rewrite inject_Z_mult. cbn [pow2]. rewrite IH. reflexivity.
Qed.

Lemma tolerance_reached (x : Q) :
  (x <= tolerance * pow2 (halvings x))%Q.
Proof.
  unfold halvings.
  set (z := Qceiling (x / tolerance)).
  assert (inject_Z z <= pow2 (Z.to_nat (Z.log2_up z)))%Q as Hz.
  { rewrite pow2_inject, Z2Nat.id by apply Z.log2_up_nonneg.
    rewrite <- Zle_Qle.
    destruct (Z.lt_ge_cases 1 z) as [H|H].
    - apply Z.log2_up_spec. exact H.
    - rewrite Z.log2_up_eqn0 by exact H. cbn. lia. }
  pose proof (Qle_ceiling (x / tolerance)) as Hc. fold z in Hc.
  assert (x == tolerance * (x / tolerance))%Q as Hx.
  { field. discriminate. }
  assert (0 < tolerance)%Q by reflexivity.
  rewrite Hx at 1.
  apply Qmult_le_l; [assumption | lra].
Qed.

Lemma search_goes_on_false (st : search_state) :
  (Qabs (trial st - pretrial st) <= tolerance)%Q -> search_goes_on st = false.
Proof.
  intro H. unfold search_goes_on, Qgt_bool.
  apply Qle_bool_iff in H. rewrite H. reflexivity.
Qed.

Lemma search_loop_stopped (kb : kbase) (basic_graph : graph)
  (mcs_ids : list string) (max_csize : Z) (fuel : nat) (s : searched) :
  search_goes_on (s_state s) = false ->
  search_loop fuel kb basic_graph mcs_ids max_csize s = Some (Ok s).
Proof. intro H. destruct fuel; cbn [search_loop]; rewrite H; reflexivity. Qed.

(** One pass halves the distances between the three bounds and the distance
    of two successive trials. *)
Lemma search_step_halves (max_csize : Z) (n : nat) (st st' : search_state) (b : Q) :
  search_step max_csize n st = Continue st' ->
  (Qabs (high st - mid st) <= b)%Q ->
  (Qabs (mid st - low st) <= b)%Q ->
  (trial st == mid st)%Q ->
  (trial st' == mid st')%Q /\
  (Qabs (high st' - mid st') <= (1 # 2) * b)%Q /\
  (Qabs (mid st' - low st') <= (1 # 2) * b)%Q /\
  (Qabs (trial st' - pretrial st') <= (1 # 2) * b)%Q.
Proof.
  unfold search_step. intros H H1 H2 H3.
  apply Qabs_Qle_condition in H1. apply Qabs_Qle_condition in H2.
  destruct (max_csize <? Z.of_nat n)%Z.
  - pose proof (Qred_correct ((1 # 2) * (high st + mid st))) as Ht.
    set (t := Qred ((1 # 2) * (high st + mid st))) in *. clearbody t.
    injection H as <-. cbn [high mid low trial pretrial].
    split; [reflexivity|].
    repeat split; apply Qabs_Qle_condition; lra.
  - destruct (int_trunc (inject_Z max_csize * (95 # 100)) >? Z.of_nat n)%Z;
      [|discriminate].
    pose proof (Qred_correct ((1 # 2) * (mid st + low st))) as Ht.
    set (t := Qred ((1 # 2) * (mid st + low st))) in *. clearbody t.
    injection H as <-. cbn [high mid low trial pretrial].
    split; [reflexivity|].
    repeat split; apply Qabs_Qle_condition; lra.
Qed.

(** The first pass starts from [trial = 1], [mid = low = simi_cutoff]. *)
Lemma search_step_first (max_csize : Z) (n : nat) (simi_cutoff : Q)
  (st' : search_state) :
  search_step max_csize n (search_init simi_cutoff) = Continue st' ->
  (trial st' == mid st')%Q /\
  (Qabs (high st' - mid st') <= Qabs (1 - simi_cutoff))%Q /\
  (Qabs (mid st' - low st') <= Qabs (1 - simi_cutoff))%Q /\
  (Qabs (trial st' - pretrial st') <= Qabs (1 - simi_cutoff))%Q.
Proof.
  unfold search_step, search_init. cbn [high mid low trial pretrial]. intro H.
  assert (forall x y : Q, (- y <= x)%Q -> (x <= y)%Q -> (Qabs x <= y)%Q) as Habs.
  { intros x y Hx Hy. apply Qabs_Qle_condition. split; assumption. }
  pose proof (Qabs_Qle_condition (1 - simi_cutoff) (Qabs (1 - simi_cutoff))) as [Hb _].
  specialize (Hb (Qle_refl _)).
  set (b := Qabs (1 - simi_cutoff)) in *.
  destruct (max_csize <? Z.of_nat n)%Z.
  - pose proof (Qred_correct ((1 # 2) * (1 + simi_cutoff))) as Ht.
    set (t := Qred ((1 # 2) * (1 + simi_cutoff))) in *. clearbody t.
    injection H as <-. cbn [high mid low trial pretrial].
    split; [reflexivity|].
    repeat split; apply Habs; lra.
  - destruct (int_trunc (inject_Z max_csize * (95 # 100)) >? Z.of_nat n)%Z;
      [|discriminate].
    pose proof (Qred_correct ((1 # 2) * (simi_cutoff + simi_cutoff))) as Ht.
    set (t := Qred ((1 # 2) * (simi_cutoff + simi_cutoff))) in *. clearbody t.
    injection H as <-. cbn [high mid low trial pretrial].
    split; [reflexivity|].
    repeat split; apply Habs; lra.
Qed.

Lemma search_loop_terminates (kb : kbase) (basic_graph : graph)
  (mcs_ids : list string) (max_csize : Z) (k : nat) :
  forall (fuel : nat) (s : searched) (b : Q),
  (k <= fuel)%nat ->
  (b <= tolerance * pow2 k)%Q ->
  (Qabs (high (s_state s) - mid (s_state s)) <= b)%Q ->
  (Qabs (mid (s_state s) - low (s_state s)) <= b)%Q ->
  (Qabs (trial (s_state s) - pretrial (s_state s)) <= b)%Q ->
  (trial (s_state s) == mid (s_state s))%Q ->
  search_loop fuel kb basic_graph mcs_ids max_csize s <> None.
Proof.
  induction k as [|k IH]; intros fuel s b Hk Hb H1 H2 H3 H4.
  - rewrite search_loop_stopped; [discriminate|].
    apply search_goes_on_false. cbn [pow2] in Hb. lra.
  - destruct fuel as [|fuel]; [lia|].
    cbn [search_loop].
    destruct (search_goes_on (s_state s)); [|discriminate].
    destruct (search_step max_csize (List.length (s_largest s)) (s_state s))
      as [st'|st'] eqn:Es; [|discriminate].
    destruct (create kb basic_graph mcs_ids (Cutoff (trial st'))) as [d|];
      [|discriminate].
    destruct (index_neg (sorted_clusters d) (-1)) as [l|]; [|discriminate].
    destruct (search_step_halves _ _ _ Es H1 H2 H4) as [G4 [G1 [G2 G3]]].
    apply (IH fuel _ ((1 # 2) * b)%Q); cbn [s_state]; try assumption.
    + lia.
    + cbn [pow2] in Hb. lra.
Qed.

Lemma threshold_search_fuel (kb : kbase) (basic_graph : graph)
  (mcs_ids : list string) (simi_cutoff : Q) (max_csize : Z)
  (desired : graph) (clusters : list (list node)) (largest : list node)
  (out : list event) (fuel : nat) :
  (search_passes simi_cutoff <= fuel)%nat ->
  threshold_search fuel kb basic_graph mcs_ids simi_cutoff max_csize
    desired clusters largest out <> None.
Proof.
  intro Hf. unfold threshold_search.
  destruct (max_csize <? Z.of_nat (List.length largest))%Z; [|discriminate].
  unfold search_passes in Hf.
  destruct fuel as [|fuel]; [lia|].
  cbn [search_loop s_state s_largest s_out s_desired s_clusters].
  destruct (search_goes_on (search_init simi_cutoff)); [|discriminate].
  destruct (search_step max_csize (List.length largest) (search_init simi_cutoff))
    as [st'|st'] eqn:Es; [|discriminate].
  destruct (create kb basic_graph mcs_ids (Cutoff (trial st'))) as [d|];
    [|discriminate].
  destruct (index_neg (sorted_clusters d) (-1)) as [l|]; [|discriminate].
  destruct (search_step_first _ _ _ Es) as [G4 [G1 [G2 G3]]].
  apply (@search_loop_terminates kb basic_graph mcs_ids max_csize
           (halvings (Qabs (1 - simi_cutoff)))
           fuel _ (Qabs (1 - simi_cutoff))); cbn [s_state]; try assumption.
  - lia.
  - apply tolerance_reached.
Qed.

(** C6: the threshold search ends on every input.  A pass is not begun once
    two successive trials differ by no more than the tolerance [1E-6] (so
    whenever they differ by less), and after [search_passes simi_cutoff]
    passes they do, since every pass halves their distance. *)
Theorem threshold_search_terminates (kb : kbase) (basic_graph : graph)
  (mcs_ids : list string) (simi_cutoff : Q) (max_csize : Z)
  (desired : graph) (clusters : list (list node)) (largest : list node)
  (out : list event) :
  (forall fuel s,
      (Qabs (trial (s_state s) - pretrial (s_state s)) < tolerance)%Q ->
      search_loop fuel kb basic_graph mcs_ids max_csize s = Some (Ok s)) /\
  (forall fuel,
      (search_passes simi_cutoff <= fuel)%nat ->
      exists r, threshold_search fuel kb basic_graph mcs_ids simi_cutoff max_csize
                  desired clusters largest out = Some r).
Proof.
  split.
  - intros fuel s H. apply search_loop_stopped, search_goes_on_false.
    apply Qlt_le_weak. exact H.
  - intros fuel Hf.
    pose proof (@threshold_search_fuel kb basic_graph mcs_ids simi_cutoff max_csize
                  desired clusters largest out fuel Hf) as H.
    destruct (threshold_search fuel kb basic_graph mcs_ids simi_cutoff max_csize
                desired clusters largest out) as [r|]; [|congruence].
    exists r. reflexivity.
Qed.

Lemma search_passes_unit_interval :
  search_passes 0 = 21%nat /\ search_passes (1 # 2) = 20%nat /\ search_passes 1 = 1%nat.
Proof. repeat split. Qed.

Lemma threshold_search_terminates_witness :
  search_loop 0 (deposit_similarity (deposit_similarity Examples.kb_chain
                   "AB"%string 1) "BC"%string 1)
    (add_nodes_from empty_graph ["A"; "B"; "C"]%string) ["AB"; "BC"]%string 2
    (mkSearched (mkSearch 1 1 1 1 1) empty_graph [] [] [])
  = Some (Ok (mkSearched (mkSearch 1 1 1 1 1) empty_graph [] [] [])) /\
  exists r,
    threshold_search 20 (deposit_similarity (deposit_similarity Examples.kb_chain
                          "AB"%string 1) "BC"%string 1)
      (add_nodes_from empty_graph ["A"; "B"; "C"]%string) ["AB"; "BC"]%string
      (1 # 2) 2
      {| nodes := ["A"; "B"; "C"]%string;
         edges := [mkEdge "A"%string "B"%string (Examples.attrs_of 1 "AB"%string);
                   mkEdge "B"%string "C"%string (Examples.attrs_of 1 "BC"%string)] |}
      [["A"; "B"; "C"]%string] ["A"; "B"; "C"]%string [] = Some r.
Proof.
  pose proof (@threshold_search_terminates
    (deposit_similarity (deposit_similarity Examples.kb_chain
                           "AB"%string 1) "BC"%string 1)
    (add_nodes_from empty_graph ["A"; "B"; "C"]%string) ["AB"; "BC"]%string
    (1 # 2) 2
    {| nodes := ["A"; "B"; "C"]%string;
       edges := [mkEdge "A"%string "B"%string (Examples.attrs_of 1 "AB"%string);
                 mkEdge "B"%string "C"%string (Examples.attrs_of 1 "BC"%string)] |}
    [["A"; "B"; "C"]%string] ["A"; "B"; "C"]%string []) as [H1 H2].
  split.
  - apply H1. reflexivity.
  - apply H2. apply Nat.le_refl.
Defined.

(** ** The degree cap of the pipeline *)

(** The stages of a run of [gen_graph] that returns. *)
Lemma gen_graph_stages (fuel : nat) (kb : kbase)
  (mcs_ids : list string) (basic_rule : Rule) (simi_cutoff : Q)
  (max_csize num_c2c : Z) (r : generated) :
  gen_graph fuel kb mcs_ids basic_rule simi_cutoff max_csize num_c2c = Some (Ok r) ->
  exists b s,
    build_graphs kb mcs_ids basic_rule simi_cutoff = Ok b /\
    threshold_search fuel (b_kb b) (b_basic b) mcs_ids simi_cutoff max_csize
      (b_desired b) (b_clusters b) (b_largest b) (b_out b) = Some (Ok s) /\
    g_clusters r = s_clusters s /\
    connect_loop fuel (b_complete b) (s_clusters s) num_c2c
      (trim_clusters (s_desired s) (s_clusters s))
      (seq 0 (List.length (s_clusters s)))
      (s_out s ++ info_sizes (s_clusters s))
    = Some (Ok (g_desired r, g_out r)).
Proof.
  unfold gen_graph. intro H.
  destruct (build_graphs kb mcs_ids basic_rule simi_cutoff) as [b|] eqn:Eb;
    [|discriminate].
  cbn [lift] in H.
  destruct (threshold_search fuel (b_kb b) (b_basic b) mcs_ids simi_cutoff
              max_csize (b_desired b) (b_clusters b) (b_largest b) (b_out b))
    as [[s|]|] eqn:Es; [|discriminate|discriminate].
  cbn [lift_opt] in H.
  destruct (connect_loop fuel (b_complete b) (s_clusters s) num_c2c
              (trim_clusters (s_desired s) (s_clusters s))
              (seq 0 (List.length (s_clusters s)))
              (s_out s ++ info_sizes (s_clusters s)))
    as [[[d o]|]|] eqn:Ec; [|discriminate|discriminate].
  cbn [lift_opt fst snd] in H. injection H as <-.
  exists b, s. cbn [g_clusters g_desired g_out].
  split; [reflexivity|]. split; [exact Es|]. split; [reflexivity | exact Ec].
Qed.

(** C10: whatever the arguments of [gen_graph] are, the graph that it hands
    to the Connector is the desired graph of the threshold search after
    [trim_cluster] has run on each of its clusters, in their order, with the
    cap 2; no argument of [gen_graph] reaches that cap. *)
Theorem gen_graph_trims_with_cap_2 (fuel : nat) (kb : kbase)
  (mcs_ids : list string) (basic_rule : Rule) (simi_cutoff : Q)
  (max_csize num_c2c : Z) (r : generated) :
  gen_graph fuel kb mcs_ids basic_rule simi_cutoff max_csize num_c2c = Some (Ok r) ->
  exists b s,
    build_graphs kb mcs_ids basic_rule simi_cutoff = Ok b /\
    threshold_search fuel (b_kb b) (b_basic b) mcs_ids simi_cutoff max_csize
      (b_desired b) (b_clusters b) (b_largest b) (b_out b) = Some (Ok s) /\
    g_clusters r = s_clusters s /\
    connect_loop fuel (b_complete b) (s_clusters s) num_c2c
      (fold_left (fun g cluster => trim_cluster g cluster 2)
                 (s_clusters s) (s_desired s))
      (seq 0 (List.length (s_clusters s)))
      (s_out s ++ info_sizes (s_clusters s))
    = Some (Ok (g_desired r, g_out r)).
Proof.
  intro H.
  destruct (gen_graph_stages _ _ _ _ _ _ _ H) as [b [s [Hb [Hs [Hcl Hconn]]]]].
  exists b, s.
  split; [exact Hb|]. split; [exact Hs|]. split; [exact Hcl|].
  unfold trim_clusters in Hconn. exact Hconn.
Qed.

Lemma gen_graph_trims_with_cap_2_witness :
  exists b s,
    build_graphs Examples.kb_chain ["AB"; "BC"]%string (Examples.rule_const 1) 1
      = Ok b /\
    threshold_search 5 (b_kb b) (b_basic b) ["AB"; "BC"]%string 1 2
      (b_desired b) (b_clusters b) (b_largest b) (b_out b) = Some (Ok s) /\
    [["A"; "B"; "C"]%string] = s_clusters s /\
    connect_loop 5 (b_complete b) (s_clusters s) 1
      (fold_left (fun g cluster => trim_cluster g cluster 2)
                 (s_clusters s) (s_desired s))
      (seq 0 (List.length (s_clusters s)))
      (s_out s ++ info_sizes (s_clusters s))
    = Some (Ok ({| nodes := ["A"; "B"; "C"]%string;
                   edges := [mkEdge "A"%string "B"%string
                               (Examples.attrs_of 1 "AB"%string);
                             mkEdge "B"%string "C"%string
                               (Examples.attrs_of 1 "BC"%string)] |},
                [Debug 1; Debug 1; Print 3 1 1 1 1 0; InfoTotal 1; InfoSize 0 3;
                 WarnCannotConnect 0])).
Proof.
  apply (@gen_graph_trims_with_cap_2 5 Examples.kb_chain ["AB"; "BC"]%string
           (Examples.rule_const 1) 1 2 1
           (mkGenerated
              {| nodes := ["A"; "B"; "C"]%string;
                 edges := [mkEdge "A"%string "B"%string
                             (Examples.attrs_of 1 "AB"%string);
                           mkEdge "B"%string "C"%string
                             (Examples.attrs_of 1 "BC"%string)] |}
              [["A"; "B"; "C"]%string]
              [Debug 1; Debug 1; Print 3 1 1 1 1 0; InfoTotal 1; InfoSize 0 3;
               WarnCannotConnect 0])).
  vm_compute. reflexivity.
Defined.

(** ** Reachability and the breadth-first search *)

Lemma connected_sym (g : graph) (u v : node) : connected g u v -> connected g v u.
Proof.
  intro H. induction H as [x y H| |x y z _ IH1 _ IH2].
  - apply rt_step. unfold adjacent in *. rewrite has_edge_sym. exact H.
  - apply rt_refl.
  - eapply rt_trans; eauto.
Qed.

Lemma connected_in_sym (g : graph) (c : list node) (u v : node) :
  connected_in g c u v -> connected_in g c v u.
Proof.
  intro H. induction H as [x y [H1 [H2 H3]]| |x y z _ IH1 _ IH2].
  - apply rt_step. repeat split; auto. rewrite has_edge_sym. exact H3.
  - apply rt_refl.
  - eapply rt_trans; eauto.
Qed.

Lemma connected_nodes (g : graph) (u v : node) :
  wf_graph g -> connected g u v -> In u (nodes g) -> In v (nodes g).
Proof.
  intros Hwf H. induction H as [x y H| |x y z _ IH1 _ IH2]; auto.
  intros _. apply has_edge_true in H. destruct H as [e [He Hs]].
  destruct (Hwf e He) as [H1 H2].
  destruct Hs as [ [_ E] | [E _] ]; rewrite <- E; assumption.
Qed.

Lemma incident_In (g : graph) (n : node) (t : node * node * attrs) :
  In t (incident g n) <->
  exists e, In e (edges g) /\ snd t = ea e /\ fst (fst t) = n /\
            ((eu e = n /\ snd (fst t) = ev e) \/
             (eu e <> n /\ ev e = n /\ snd (fst t) = eu e)).
Proof.
  unfold incident. rewrite in_flat_map. split.
  - intros [e [He Ht]]. exists e. split; [exact He|].
    destruct (String.eqb_spec (eu e) n) as [E|E];
      unfold node_eqb in Ht; [rewrite (proj2 (String.eqb_eq _ _) E) in Ht|
                              rewrite (proj2 (String.eqb_neq _ _) E) in Ht].
    + destruct Ht as [<-|[]]. cbn. auto.
    + destruct (String.eqb_spec (ev e) n) as [E2|E2].
      * destruct Ht as [<-|[]]. cbn. auto 6.
      * destruct Ht.
  - intros [e [He [Ha [Hn H]]]]. exists e. split; [exact He|].
    destruct t as [[a b] d]. cbn in *. subst.
    unfold node_eqb.
    destruct H as [[H1 H2]|[H1 [H2 H3]]]; subst.
    + rewrite String.eqb_refl. left. reflexivity.
    + rewrite (proj2 (String.eqb_neq _ _) H1), String.eqb_refl.
      left. reflexivity.
Qed.

Lemma neighbors_In (g : graph) (n x : node) :
  In x (neighbors g n) <-> has_edge g n x = true.
Proof.
  unfold neighbors. rewrite in_map_iff, has_edge_true. split.
  - intros [t [Hx Ht]]. apply incident_In in Ht.
    destruct Ht as [e [He [_ [Hn H]]]]. exists e. split; [exact He|].
    unfold same_pair. subst x.
    destruct H as [[H1 H2]|[H1 [H2 H3]]]; rewrite ?H2, ?H3; auto.
  - intros [e [He Hs]].
    destruct (string_dec (eu e) n) as [E|E].
    + exists (n, ev e, ea e). split.
      * cbn. destruct Hs as [[_ H]|[H1 H2]]; congruence.
      * apply incident_In. exists e. cbn. auto 7.
    + exists (n, eu e, ea e). split.
      * cbn. destruct Hs as [[H _]|[H1 H2]]; congruence.
      * apply incident_In. exists e. cbn.
        destruct Hs as [[H _]|[H1 H2]]; [congruence|]. auto 8.
Qed.

Lemma add_node_In (l : list node) (n x : node) :
  In x (add_node l n) <-> In x l \/ x = n.
Proof.
  unfold add_node. destruct (mem n l) eqn:E.
  - apply mem_In in E. split; [auto|]. intros [H| ->]; auto.
  - rewrite in_app_iff. cbn. intuition.
Qed.

Lemma add_node_NoDup (l : list node) (n : node) : NoDup l -> NoDup (add_node l n).
Proof.
  intro H. unfold add_node. destruct (mem n l) eqn:E; [exact H|].
  apply mem_false in E. apply NoDup_app; auto.
  - constructor; [intros [] | constructor].
  - intros a Ha [<-|[]]. contradiction.
Qed.

Lemma add_nodes_In (ns : list node) :
  forall l x, In x (fold_left add_node ns l) <-> In x l \/ In x ns.
Proof.
  induction ns as [|n ns IH]; intros l x; cbn [fold_left].
  - cbn. tauto.
  - rewrite IH, add_node_In. cbn. intuition.
Qed.

Lemma add_nodes_NoDup (ns : list node) :
  forall l, NoDup l -> NoDup (fold_left add_node ns l).
Proof.
  induction ns as [|n ns IH]; intros l H; cbn [fold_left]; auto.
  apply IH, add_node_NoDup, H.
Qed.

Lemma add_nodes_app (ns : list node) :
  forall l, exists extra, fold_left add_node ns l = l ++ extra.
Proof.
  induction ns as [|n ns IH]; intros l; cbn [fold_left].
  - exists []. rewrite app_nil_r. reflexivity.
  - destruct (IH (add_node l n)) as [extra E]. rewrite E.
    unfold add_node. destruct (mem n l).
    + exists extra. reflexivity.
    + exists (n :: extra). rewrite <- app_assoc. reflexivity.
Qed.

Lemma expand_In (g : graph) (reached : list node) (x : node) :
  In x (expand g reached) <->
  In x reached \/ exists y, In y reached /\ has_edge g y x = true.
Proof.
  unfold expand. rewrite add_nodes_In, in_flat_map.
  split; intros [H|[y [H1 H2]]]; auto; right; exists y; split; auto;
    apply neighbors_In; exact H2.
Qed.

Lemma iterate_fixed {A : Type} (f : A -> A) (x : A) (n : nat) :
  f x = x -> iterate n f x = x.
Proof. intro H. induction n as [|n IH]; cbn; [reflexivity|]. rewrite H. exact IH. Qed.

(** After enough levels the search has reached a set that no level
    enlarges. *)
Lemma iterate_expand_closed (g : graph) (n : nat) :
  wf_graph g ->
  forall reached,
  NoDup reached -> incl reached (nodes g) ->
  (List.length (nodes g) < List.length reached + n)%nat ->
  expand g (iterate n (expand g) reached) = iterate n (expand g) reached.
Proof.
  intro Hwf. induction n as [|n IH]; intros reached Hnd Hincl Hlen.
  - exfalso. pose proof (NoDup_incl_length Hnd Hincl). lia.
  - cbn [iterate].
    destruct (add_nodes_app (flat_map (neighbors g) reached) reached) as [extra E].
    fold (expand g reached) in E.
    destruct extra as [|x extra].
    + rewrite app_nil_r in E. rewrite E.
      rewrite (@iterate_fixed _ (expand g) reached n E). exact E.
    + apply IH.
      * apply add_nodes_NoDup. exact Hnd.
      * intros y Hy. apply expand_In in Hy.
        destruct Hy as [Hy|[z [Hz Hy]]]; [auto|].
        apply (@connected_nodes g z y Hwf); [apply rt_step; exact Hy | auto].
      * rewrite E, length_app. cbn [List.length]. lia.
Qed.

Lemma iterate_expand_sound (g : graph) (v : node) (n : nat) :
  forall reached,
  (forall x, In x reached -> connected g v x) ->
  forall x, In x (iterate n (expand g) reached) -> connected g v x.
Proof.
  induction n as [|n IH]; intros reached H x Hx; cbn [iterate] in Hx; auto.
  apply (IH (expand g reached)); [|exact Hx].
  intros y Hy. apply expand_In in Hy. destruct Hy as [Hy|[z [Hz Hy]]]; auto.
  eapply rt_trans; [apply H; exact Hz | apply rt_step; exact Hy].
Qed.

Lemma iterate_expand_incl (g : graph) (n : nat) :
  forall reached x, In x reached -> In x (iterate n (expand g) reached).
Proof.
  induction n as [|n IH]; intros reached x Hx; cbn [iterate]; auto.
  apply IH, expand_In. left. exact Hx.
Qed.

Lemma iterate_expand_NoDup (g : graph) (n : nat) :
  forall reached, NoDup reached -> NoDup (iterate n (expand g) reached).
Proof.
  induction n as [|n IH]; intros reached H; cbn [iterate]; auto.
  apply IH, add_nodes_NoDup, H.
Qed.

Lemma closed_complete (g : graph) (reached : list node) (v x : node) :
  expand g reached = reached -> In v reached -> connected g v x -> In x reached.
Proof.
  intros Hc Hv H. apply clos_rt_rt1n in H.
  induction H as [|a b c Hab _ IH]; auto.
  apply IH. rewrite <- Hc. apply expand_In. right. exists a. auto.
Qed.

(** The component of a node is the set of the nodes reachable from it. *)
Lemma component_spec (g : graph) (v x : node) :
  wf_graph g -> In v (nodes g) ->
  In x (component g v) <-> connected g v x.
Proof.
  intros Hwf Hv. unfold component. split.
  - apply iterate_expand_sound. intros y [<-|[]]. apply rt_refl.
  - apply closed_complete.
    + apply iterate_expand_closed;
        [ exact Hwf
        | constructor; [intros [] | constructor]
        | intros y [<-|[]]; exact Hv
        | cbn; lia ].
    + apply iterate_expand_incl. left. reflexivity.
Qed.

Lemma component_NoDup (g : graph) (v : node) : NoDup (component g v).
Proof.
  apply iterate_expand_NoDup. constructor; [intros [] | constructor].
Qed.

Lemma connected_components_spec (g : graph) :
  wf_graph g ->
  forall vs seen,
  incl vs (nodes g) ->
  (forall x y, In x seen -> connected g x y -> In y seen) ->
  (forall c u x, In c (cc_loop g vs seen) -> In u c ->
                 (In x c <-> connected g u x)) /\
  (forall x, (exists c, In c (cc_loop g vs seen) /\ In x c) <->
             (~ In x seen /\ exists v, In v vs /\ connected g v x)) /\
  NoDup (List.concat (cc_loop g vs seen)).
Proof.
  intro Hwf. induction vs as [|v vs IH]; intros seen Hincl Hseen.
  - cbn. split; [intros c u x []|]. split; [|constructor].
    intro x. split.
    + intros [c [[] _]].
    + intros [_ [v [[] _]]].
  - assert (incl vs (nodes g)) as Hincl' by (intros y Hy; apply Hincl; right; exact Hy).
    cbn [cc_loop]. destruct (mem v seen) eqn:Ev.
    + apply mem_In in Ev.
      destruct (IH seen Hincl' Hseen) as [Ha [Hb Hc]].
      split; [exact Ha|]. split; [|exact Hc].
      intro x. rewrite Hb. split.
      * intros [H1 [w [H2 H3]]]. split; [exact H1|]. exists w. split; [right|]; auto.
      * intros [H1 [w [[<-|H2] H3]]].
        -- exfalso. apply H1. eapply Hseen; eauto.
        -- split; [exact H1|]. exists w. auto.
    + apply mem_false in Ev.
      assert (In v (nodes g)) as Hv by (apply Hincl; left; reflexivity).
      assert (forall x y, In x (component g v ++ seen) -> connected g x y ->
                          In y (component g v ++ seen)) as Hseen'.
      { intros x y Hx Hxy. apply in_app_iff in Hx. apply in_app_iff.
        destruct Hx as [Hx|Hx].
        - left. apply component_spec; auto.
          apply component_spec in Hx; auto. eapply rt_trans; eauto.
        - right. eapply Hseen; eauto. }
      destruct (IH (component g v ++ seen) Hincl' Hseen') as [Ha [Hb Hc]].
      split; [|split].
      * intros c u x [<-|Hin] Hu; [|apply Ha; assumption].
        apply component_spec in Hu; auto.
        rewrite component_spec by auto. split; intro H.
        -- eapply rt_trans; [apply connected_sym; exact Hu | exact H].
        -- eapply rt_trans; eauto.
      * intro x. split.
        -- intros [c [[<-|Hin] Hx]].
           ++ apply component_spec in Hx; auto. split.
              ** intro Hs. apply Ev. eapply Hseen; [exact Hs|].
                 apply connected_sym. exact Hx.
              ** exists v. split; [left; reflexivity | exact Hx].
           ++ destruct (proj1 (Hb x)) as [H1 [w [H2 H3]]].
              { exists c. auto. }
              split.
              ** intro Hs. apply H1. apply in_app_iff. right. exact Hs.
              ** exists w. split; [right; exact H2 | exact H3].
        -- intros [H1 [w [Hw H3]]].
           destruct (in_dec string_dec x (component g v)) as [Hx|Hx].
           ++ exists (component g v). split; [left; reflexivity | exact Hx].
           ++ destruct Hw as [<-|Hw].
              ** exfalso. apply Hx. apply component_spec; auto.
              ** destruct (proj2 (Hb x)) as [c [Hc1 Hc2]].
                 { split.
                   - intro Hs. apply in_app_iff in Hs. tauto.
                   - exists w. auto. }
                 exists c. split; [right; exact Hc1 | exact Hc2].
      * cbn [List.concat]. apply NoDup_app.
        -- apply component_NoDup.
        -- exact Hc.
        -- intros a Ha1 Ha2. apply in_concat in Ha2.
           destruct Ha2 as [c [Hc1 Hc2]].
           destruct (proj1 (Hb a)) as [H1 _].
           { exists c. auto. }
           apply H1. apply in_app_iff. left. exact Ha1.
Qed.

(** ** Python's [sorted] *)

Section SortedFacts.
Variable A : Type.
Variable cmp : A -> A -> Z.

Lemma insert_perm (x : A) (l : list A) : Permutation (insert cmp x l) (x :: l).
Proof.
  induction l as [|y l IH]; cbn [insert]; [apply Permutation_refl|].
  destruct (cmp y x <? 0)%Z; [|apply Permutation_refl].
  eapply Permutation_trans; [apply perm_skip; exact IH | apply perm_swap].
Qed.

Lemma sorted_perm (l : list A) : Permutation (sorted cmp l) l.
Proof.
  induction l as [|x l IH]; cbn [sorted]; [constructor|].
  eapply Permutation_trans; [apply insert_perm | apply perm_skip; exact IH].
Qed.

Lemma sorted_In (l : list A) (x : A) : In x (sorted cmp l) <-> In x l.
Proof.
  split; apply Permutation_in; [|apply Permutation_sym]; apply sorted_perm.
Qed.

Lemma sorted_length (l : list A) : List.length (sorted cmp l) = List.length l.
Proof. apply Permutation_length, sorted_perm. Qed.

Variable le : A -> A -> Prop.
Hypothesis le_trans : forall x y z, le x y -> le y z -> le x z.
Hypothesis cmp_lt : forall x y, (cmp y x <? 0)%Z = true -> le y x.
Hypothesis cmp_ge : forall x y, (cmp y x <? 0)%Z = false -> le x y.

Lemma insert_sorted (x : A) (l : list A) :
  StronglySorted le l -> StronglySorted le (insert cmp x l).
Proof.
  induction 1 as [|y l Hs IH Hy]; cbn [insert].
  - constructor; constructor.
  - destruct (cmp y x <? 0)%Z eqn:E.
    + constructor; [exact IH|].
      apply (Permutation_Forall (Permutation_sym (insert_perm x l))).
      constructor; [apply cmp_lt; exact E | exact Hy].
    + constructor; [constructor; assumption|].
      constructor; [apply cmp_ge; exact E|].
      eapply Forall_impl; [|exact Hy].
      intros z Hz. eapply le_trans; [apply cmp_ge; exact E | exact Hz].
Qed.

Lemma sorted_sorted (l : list A) : StronglySorted le (sorted cmp l).
Proof.
  induction l as [|x l IH]; cbn [sorted]; [constructor|].
  apply insert_sorted, IH.
Qed.

(** Stability: the elements of a class that the comparison does not
    separate keep their order. *)
Variable p : A -> bool.
Hypothesis p_class : forall x y, p x = true -> p y = true -> (cmp y x <? 0)%Z = false.



End SortedFacts.

Lemma Permutation_concat {A : Type} (l l' : list (list A)) :
  Permutation l l' -> Permutation (List.concat l) (List.concat l').
Proof.
  induction 1 as [|x l l' _ IH|x y l|l l' l'' _ IH1 _ IH2]; cbn [List.concat].
  - constructor.
  - apply Permutation_app_head. exact IH.
  - rewrite !app_assoc. apply Permutation_app_tail, Permutation_app_comm.
  - eapply Permutation_trans; eauto.
Qed.

(** ** Graphs built by [create] *)

Lemma set_edge_ends (es : list edge) (u v : node) (a : attrs) (e : edge) :
  In e (set_edge es u v a) ->
  (exists e0, In e0 es /\ eu e = eu e0 /\ ev e = ev e0) \/ (eu e = u /\ ev e = v).
Proof.
  induction es as [|e1 es IH]; cbn [set_edge].
  - intros [<-|[]]. right. split; reflexivity.
  - destruct (edge_is u v e1).
    + intros [<-|H].
      * left. exists e1. cbn. auto.
      * left. exists e. cbn. auto.
    + intros [<-|H].
      * left. exists e1. cbn. auto.
      * destruct (IH H) as [[e0 [H0 H1]]|H1]; [|right; exact H1].
        left. exists e0. cbn. auto.
Qed.

Lemma add_edge_wf (g : graph) (u v : node) (a : attrs) :
  wf_graph g -> wf_graph (add_edge g u v a).
Proof.
  intros Hwf e He. cbn [add_edge nodes edges] in *.
  rewrite !add_node_In.
  destruct (set_edge_ends _ _ _ _ _ He) as [[e0 [H0 [-> ->]]]|[-> ->]].
  - destruct (Hwf e0 H0). auto.
  - auto.
Qed.

Lemma create_step_wf (kb : kbase) (rule : Rule) (g g' : graph) (id : string) :
  wf_graph g -> create_step kb rule g id = Ok g' -> wf_graph g'.
Proof.
  unfold create_step. intros Hwf H.
  destruct (get_parent_ids kb id) as [[id0 id1]|]; [|discriminate].
  cbn [bind] in H.
  destruct (rule kb id0 id1 id) as [simi|]; [|discriminate].
  cbn [bind] in H.
  destruct (Qgt_bool simi 0); injection H as <-; [|exact Hwf].
  apply add_edge_wf, Hwf.
Qed.

Lemma create_wf (kb : kbase) (rule : Rule) (mcs_ids : list string) :
  forall g g', wf_graph g -> create kb g mcs_ids rule = Ok g' -> wf_graph g'.
Proof.
  unfold create. induction mcs_ids as [|id rest IH]; intros g g' Hwf H.
  - injection H as <-. exact Hwf.
  - cbn [create_from] in H.
    destruct (create_step kb rule g id) as [g1|] eqn:E; [|discriminate].
    cbn [bind] in H. eapply IH; [|exact H].
    eapply create_step_wf; eauto.
Qed.

Lemma basic_graph_wf (all_ids : list node) :
  wf_graph (add_nodes_from empty_graph all_ids).
Proof. intros e []. Qed.

(** ** The Cluster Extractor *)

Lemma connected_components_partition (g : graph) :
  wf_graph g ->
  (forall c u x, In c (connected_components g) -> In u c ->
                 (In x c <-> connected g u x)) /\
  (forall x, (exists c, In c (connected_components g) /\ In x c) <->
             In x (nodes g)) /\
  NoDup (List.concat (connected_components g)).
Proof.
  intro Hwf. unfold connected_components.
  destruct (@connected_components_spec g Hwf (nodes g) []) as [Ha [Hb Hc]].
  - apply incl_refl.
  - intros x y [].
  - split; [exact Ha|]. split; [|exact Hc].
    intro x. rewrite Hb. split.
    + intros [_ [v [Hv H]]]. eapply connected_nodes; eauto.
    + intro Hx. split; [intros []|]. exists x. split; [exact Hx | apply rt_refl].
Qed.

Lemma sorted_clusters_components (g : graph) :
  wf_graph g ->
  (forall x, In x (nodes g) <-> exists c, In c (sorted_clusters g) /\ In x c) /\
  NoDup (List.concat (sorted_clusters g)) /\
  (forall c u x, In c (sorted_clusters g) -> In u c ->
                 (In x c <-> connected g u x)).
Proof.
  intro Hwf. unfold sorted_clusters.
  destruct (connected_components_partition Hwf) as [Ha [Hb Hc]].
  split; [|split].
  - intro x. rewrite <- Hb. split; intros [c [H1 H2]]; exists c; split; auto;
      apply (sorted_In cmp_len); exact H1.
  - eapply Permutation_NoDup; [|exact Hc].
    apply Permutation_concat, Permutation_sym, sorted_perm.
  - intros c u x Hin. apply Ha. apply (sorted_In cmp_len). exact Hin.
Qed.





(** ** Kruskal's spanning edges *)

Lemma joined_mono (R R' : node -> node -> Prop) (T T' : list (node * node * attrs))
  (a b : node) :
  (forall x y, R x y -> joined R' T' x y) ->
  (forall t, In t T -> In t T') ->
  joined R T a b -> joined R' T' a b.
Proof.
  intros HR HT H. induction H as [x y [H|[d H]]| |x y _ IH|x y z _ IH1 _ IH2].
  - apply HR. exact H.
  - apply rst_step. right. exists d. apply HT. exact H.
  - apply rst_refl.
  - apply rst_sym. exact IH.
  - eapply rst_trans; eauto.
Qed.

(** Every edge that Kruskal's loop walks over has its ends joined by the
    edges that the loop yields, given that the sets of the union-find
    structure join only nodes that are linked already. *)
Lemma kruskal_joins (es : list (node * node * attrs)) :
  forall (uf : union_find) (R : node -> node -> Prop),
  (forall x y, uf x = uf y -> R x y) ->
  (forall x, R x x) ->
  (forall x y, R x y -> R y x) ->
  (forall x y z, R x y -> R y z -> R x z) ->
  forall t, In t es -> joined R (kruskal uf es) (fst (fst t)) (snd (fst t)).
Proof.
  induction es as [|[[u v] d] rest IH]; intros uf R Huf Hrefl Hsym Htrans t Ht.
  - destruct Ht.
  - unfold joined in *.
    cbn [kruskal]. destruct (node_eqb (uf u) (uf v)) eqn:E.
    + destruct Ht as [<-|Ht].
      * apply rst_step. left. apply Huf. apply node_eqb_eq. exact E.
      * apply IH; auto.
    + destruct Ht as [<-|Ht].
      * apply rst_step. right. exists d. left. reflexivity.
      * assert (forall x y, R x y -> joined R [(u, v, d)] x y) as HRR'.
        { intros x y H. apply rst_step. left. exact H. }
        assert (joined R [(u, v, d)] u v) as Huv.
        { apply rst_step. right. exists d. left. reflexivity. }
        unfold joined in HRR', Huv.
        apply (@joined_mono (joined R [(u, v, d)]) R
                 (kruskal (uf_union uf u v) rest)
                 ((u, v, d) :: kruskal (uf_union uf u v) rest)).
        -- intros x y H.
           eapply joined_mono; [| |exact H].
           ++ intros a b Hab. apply rst_step. left. exact Hab.
           ++ intros t' [<-|[]]. left. reflexivity.
        -- intros t' Ht'. right. exact Ht'.
        -- unfold joined. apply IH; [| | | |exact Ht].
           ++ unfold joined. intros x y. unfold uf_union.
              destruct (node_eqb (uf x) (uf u)) eqn:Ex;
                destruct (node_eqb (uf y) (uf u)) eqn:Ey; intro H.
              ** apply HRR', Huf. apply node_eqb_eq in Ex, Ey. congruence.
              ** apply node_eqb_eq in Ex.
                 apply rst_trans with u; [apply HRR', Huf; exact Ex|].
                 apply rst_trans with v; [exact Huv|]. apply HRR', Huf. exact H.
              ** apply node_eqb_eq in Ey.
                 apply rst_trans with v; [apply HRR', Huf; exact H|].
                 apply rst_trans with u; [apply rst_sym; exact Huv|].
                 apply HRR', Huf. symmetry. exact Ey.
              ** apply HRR', Huf. exact H.
           ++ intro x. unfold joined. apply rst_refl.
           ++ unfold joined. intros x y H. apply rst_sym. exact H.
           ++ unfold joined. intros x y z H1 H2. apply rst_trans with y; assumption.
Qed.

Lemma kruskal_links (es : list (node * node * attrs)) (t : node * node * attrs) :
  In t es -> linked (kruskal uf_init es) (fst (fst t)) (snd (fst t)).
Proof.
  intro Ht.
  assert (joined eq (kruskal uf_init es) (fst (fst t)) (snd (fst t))) as H.
  { apply kruskal_joins; auto; try congruence. }
  unfold linked.
  induction H as [x y [H|H]| |x y _ IH|x y z _ IH1 _ IH2].
  - subst. apply rst_refl.
  - apply rst_step. exact H.
  - apply rst_refl.
  - apply rst_sym. exact IH.
  - eapply rst_trans; eauto.
Qed.

Lemma kruskal_subset (es : list (node * node * attrs)) :
  forall uf t, In t (kruskal uf es) -> In t es.
Proof.
  induction es as [|[[u v] d] rest IH]; intros uf t Ht; cbn [kruskal] in Ht.
  - destruct Ht.
  - destruct (node_eqb (uf u) (uf v)).
    + right. eapply IH; eauto.
    + destruct Ht as [<-|Ht]; [left; reflexivity | right; eapply IH; eauto].
Qed.

(** ** The edges that [g.edges(nbunch)] walks over *)

Lemma in_pairs_In (u v : node) (l : list (node * node)) :
  in_pairs u v l = true <-> In (u, v) l.
Proof.
  unfold in_pairs. rewrite existsb_exists. split.
  - intros [[a b] [H1 H2]]. cbn in H2. apply andb_true_iff in H2.
    destruct H2 as [Ha Hb]. apply node_eqb_eq in Ha, Hb. subst. exact H1.
  - intro H. exists (u, v). split; [exact H|]. cbn.
    rewrite !node_eqb_refl. reflexivity.
Qed.

Lemma incident_of_edge (g : graph) (e : edge) :
  In e (edges g) ->
  In (eu e, ev e, ea e) (incident g (eu e)) /\
  (In (ev e, eu e, ea e) (incident g (ev e)) \/ eu e = ev e).
Proof.
  intro He. split.
  - apply incident_In. exists e. cbn. auto 7.
  - destruct (string_dec (eu e) (ev e)) as [E|E]; [right; exact E|].
    left. apply incident_In. exists e. cbn. auto 8.
Qed.

Lemma edges_iter_sound (g : graph) (nbunch : list node) :
  forall seen t,
  In t (edges_iter g nbunch seen) ->
  In (fst (fst t)) nbunch /\ In t (incident g (fst (fst t))).
Proof.
  induction nbunch as [|n rest IH]; intros seen t Ht; cbn [edges_iter] in Ht.
  - destruct Ht.
  - destruct (mem n (nodes g)).
    + apply in_app_iff in Ht. destruct Ht as [Ht|Ht].
      * apply filter_In in Ht. destruct Ht as [Ht _].
        pose proof Ht as Ht'. apply incident_In in Ht'.
        destruct Ht' as [e [_ [_ [Hn _]]]]. rewrite Hn.
        split; [left; reflexivity | exact Ht].
      * destruct (IH _ _ Ht). split; [right|]; assumption.
    + destruct (IH _ _ Ht). split; [right|]; assumption.
Qed.

Lemma edges_iter_complete (g : graph) (nbunch : list node) :
  forall seen e,
  In e (edges g) ->
  (In (eu e) nbunch /\ In (eu e) (nodes g)) \/
  (In (ev e) nbunch /\ In (ev e) (nodes g)) ->
  ~ In (eu e) seen -> ~ In (ev e) seen ->
  In (eu e, ev e, ea e) (edges_iter g nbunch seen) \/
  In (ev e, eu e, ea e) (edges_iter g nbunch seen).
Proof.
  induction nbunch as [|n rest IH]; intros seen e He Hin Hu Hv.
  - destruct Hin as [[[] _]|[[] _]].
  - cbn [edges_iter].
    destruct (incident_of_edge g e He) as [I1 I2].
    destruct (mem n (nodes g)) eqn:En.
    + destruct (string_dec n (eu e)) as [E1|E1].
      * left. apply in_app_iff. left. apply filter_In. subst n.
        split; [exact I1|]. cbn. apply negb_true_iff, mem_false. exact Hv.
      * destruct (string_dec n (ev e)) as [E2|E2].
        -- right. apply in_app_iff. left. apply filter_In. subst n.
           split.
           ++ destruct I2 as [I2|I2]; [exact I2 | congruence].
           ++ cbn. apply negb_true_iff, mem_false. exact Hu.
        -- assert (In (eu e, ev e, ea e) (edges_iter g rest (n :: seen)) \/
                   In (ev e, eu e, ea e) (edges_iter g rest (n :: seen))) as H.
           { apply IH; auto.
             - destruct Hin as [[[H|H] H']|[[H|H] H']]; auto; congruence.
             - intros [H|H]; auto.
             - intros [H|H]; auto. }
           destruct H as [H|H]; [left|right]; apply in_app_iff; right; exact H.
    + apply mem_false in En.
      apply IH; auto.
      destruct Hin as [[[H|H] H']|[[H|H] H']]; auto; subst n; contradiction.
Qed.

Lemma all_edges_complete (g : graph) (e : edge) :
  wf_graph g -> In e (edges g) ->
  In (eu e, ev e, ea e) (all_edges g) \/ In (ev e, eu e, ea e) (all_edges g).
Proof.
  intros Hwf He. unfold all_edges, edges_of.
  destruct (Hwf e He) as [H1 H2].
  apply edges_iter_complete; auto.
Qed.

Lemma edges_iter_edge (g : graph) (nbunch seen : list node) (t : node * node * attrs) :
  In t (edges_iter g nbunch seen) ->
  In (fst (fst t)) nbunch /\
  exists e, In e (edges g) /\ same_pair (eu e) (ev e) (fst (fst t)) (snd (fst t)).
Proof.
  intro Ht. apply edges_iter_sound in Ht. destruct Ht as [H1 H2].
  split; [exact H1|].
  apply incident_In in H2. destruct H2 as [e [He [_ [Hn H]]]].
  exists e. split; [exact He|]. unfold same_pair.
  destruct H as [[Ha Hb]|[Ha [Hb Hc]]].
  - left. split; congruence.
  - right. split; congruence.
Qed.

(** ** The subgraph of a cluster *)

Lemma subgraph_edges (g : graph) (cluster : list node) (e : edge) :
  In e (edges (subgraph g cluster)) <->
  In e (edges g) /\ In (eu e) cluster /\ In (ev e) cluster.
Proof.
  unfold subgraph. cbn [edges]. rewrite filter_In, andb_true_iff, !mem_In.
  reflexivity.
Qed.

Lemma subgraph_nodes (g : graph) (cluster : list node) (x : node) :
  In x (nodes (subgraph g cluster)) <-> In x cluster /\ In x (nodes g).
Proof.
  unfold subgraph. cbn [nodes]. rewrite add_nodes_In, filter_In, mem_In.
  cbn. tauto.
Qed.

Lemma subgraph_wf (g : graph) (cluster : list node) :
  wf_graph g -> wf_graph (subgraph g cluster).
Proof.
  intros Hwf e He. apply subgraph_edges in He. destruct He as [He [H1 H2]].
  destruct (Hwf e He). rewrite !subgraph_nodes. auto.
Qed.

(** ** [trim_cluster] *)

Lemma map_pair_of_In (u v : node) (l : list (node * node * attrs)) :
  In (u, v) (map pair_of l) <-> exists a, In (u, v, a) l.
Proof.
  rewrite in_map_iff. split.
  - intros [[[a b] d] [H1 H2]]. cbn in H1. injection H1 as -> ->.
    exists d. exact H2.
  - intros [a H]. exists (u, v, a). split; [reflexivity | exact H].
Qed.

Lemma kept_edges_In (g : graph) (cluster : list node) (num_edges : Z) (u v : node) :
  In (u, v) (kept_edges g cluster num_edges) <->
  top_kept g cluster num_edges u v \/ mst_kept g cluster u v.
Proof.
  unfold kept_edges, top_kept, mst_kept.
  rewrite in_app_iff, !map_pair_of_In.
  split; intros [H|H]; auto.
  - left. destruct H as [a H]. apply in_flat_map in H.
    destruct H as [n [H1 H2]]. exists n, a. auto.
  - left. destruct H as [n [a [H1 H2]]]. exists a. apply in_flat_map.
    exists n. auto.
Qed.

Lemma kept_pairs (g : graph) (cluster : list node) (num_edges : Z) (u v : node) :
  kept g cluster num_edges u v <->
  In (u, v) (kept_edges g cluster num_edges) \/
  In (v, u) (kept_edges g cluster num_edges).
Proof. unfold kept. rewrite !kept_edges_In. tauto. Qed.

Lemma kept_sym (g : graph) (cluster : list node) (num_edges : Z) (u v : node) :
  kept g cluster num_edges u v -> kept g cluster num_edges v u.
Proof. unfold kept. tauto. Qed.

Lemma kept_same_pair (g : graph) (cluster : list node) (num_edges : Z)
  (a b u v : node) :
  same_pair a b u v -> kept g cluster num_edges a b -> kept g cluster num_edges u v.
Proof.
  intros [[-> ->]|[-> ->]] H; [exact H | apply kept_sym; exact H].
Qed.

Lemma del_edges_In (g : graph) (cluster : list node) (num_edges : Z) (u v : node) :
  In (u, v) (del_edges g cluster num_edges) <->
  In (u, v) (map pair_of (edges_of g cluster)) /\ ~ kept g cluster num_edges u v.
Proof.
  unfold del_edges. rewrite filter_In. cbn [fst snd].
  rewrite andb_true_iff, !negb_true_iff, kept_pairs.
  split; intros [H1 H2]; (split; [exact H1|]).
  - destruct H2 as [H2 H3]. intros [H|H]; apply in_pairs_In in H; congruence.
  - split.
    + destruct (in_pairs u v (kept_edges g cluster num_edges)) eqn:E; [|reflexivity].
      exfalso. apply H2. left. apply in_pairs_In. exact E.
    + destruct (in_pairs v u (kept_edges g cluster num_edges)) eqn:E; [|reflexivity].
      exfalso. apply H2. right. apply in_pairs_In. exact E.
Qed.

Lemma kept_dec (g : graph) (cluster : list node) (num_edges : Z) (u v : node) :
  kept g cluster num_edges u v \/ ~ kept g cluster num_edges u v.
Proof.
  rewrite kept_pairs, <- !in_pairs_In.
  destruct (in_pairs u v (kept_edges g cluster num_edges));
    destruct (in_pairs v u (kept_edges g cluster num_edges)); auto.
  right. intros [H|H]; discriminate H.
Qed.

Lemma trim_cluster_edges (g : graph) (cluster : list node) (num_edges : Z) (e : edge) :
  In e (edges (trim_cluster g cluster num_edges)) <->
  In e (edges g) /\
  ~ In (eu e, ev e) (del_edges g cluster num_edges) /\
  ~ In (ev e, eu e) (del_edges g cluster num_edges).
Proof.
  unfold trim_cluster, remove_edges_from. cbn [edges].
  rewrite filter_In, negb_true_iff, orb_false_iff.
  rewrite <- !in_pairs_In.
  destruct (in_pairs (eu e) (ev e) (del_edges g cluster num_edges));
    destruct (in_pairs (ev e) (eu e) (del_edges g cluster num_edges));
    intuition congruence.
Qed.

(** The edges of the trimmed graph: an edge that does not touch the cluster
    stays, an edge that touches it stays when it is kept. *)
Lemma trim_cluster_has_edge (g : graph) (cluster : list node) (num_edges : Z)
  (u v : node) :
  wf_graph g ->
  has_edge (trim_cluster g cluster num_edges) u v = true <->
  has_edge g u v = true /\
  (In u cluster \/ In v cluster -> kept g cluster num_edges u v).
Proof.
  intro Hwf. rewrite !has_edge_true. split.
  - intros [e [He Hs]]. apply trim_cluster_edges in He.
    destruct He as [He [Hd1 Hd2]].
    split; [exists e; auto|].
    intro Hc.
    destruct (kept_dec g cluster num_edges u v) as [Hk|Hk]; [exact Hk|].
    exfalso.
    destruct (Hwf e He) as [Hn1 Hn2].
    assert (In (eu e, ev e, ea e) (edges_of g cluster) \/
            In (ev e, eu e, ea e) (edges_of g cluster)) as Hin.
    { apply edges_iter_complete; auto.
      destruct Hs as [[E1 E2]|[E1 E2]]; rewrite E1, E2 in *; tauto. }
    destruct Hin as [Hin|Hin].
    + apply Hd1. apply del_edges_In. split.
      * apply map_pair_of_In. exists (ea e). exact Hin.
      * intro H. apply Hk. eapply kept_same_pair; eauto.
    + apply Hd2. apply del_edges_In. split.
      * apply map_pair_of_In. exists (ea e). exact Hin.
      * intro H. apply Hk. apply kept_sym in H. eapply kept_same_pair; eauto.
  - intros [[e [He Hs]] Hk]. exists e. split; [|exact Hs].
    apply trim_cluster_edges. split; [exact He|].
    split; intro Hd; apply del_edges_In in Hd; destruct Hd as [Hd1 Hd2];
      apply map_pair_of_In in Hd1; destruct Hd1 as [a Ha];
      apply edges_iter_edge in Ha; destruct Ha as [Ha _]; cbn in Ha;
      apply Hd2.
    + assert (kept g cluster num_edges u v) as H.
      { apply Hk. destruct Hs as [[<- <-]|[<- <-]]; auto. }
      destruct Hs as [[<- <-]|[<- <-]]; [exact H | apply kept_sym; exact H].
    + assert (kept g cluster num_edges u v) as H.
      { apply Hk. destruct Hs as [[<- <-]|[<- <-]]; auto. }
      destruct Hs as [[<- <-]|[<- <-]]; [apply kept_sym; exact H | exact H].
Qed.

Lemma mst_edge_inside (g : graph) (cluster : list node) (u v : node) (a : attrs) :
  In (u, v, a) (minimum_spanning_edges (subgraph g cluster)) ->
  In u cluster /\ In v cluster /\ has_edge g u v = true.
Proof.
  unfold minimum_spanning_edges. intro H.
  apply kruskal_subset in H. rewrite sorted_In in H.
  apply edges_iter_edge in H. destruct H as [_ [e [He Hs]]]. cbn in Hs.
  apply subgraph_edges in He. destruct He as [He [H1 H2]].
  destruct Hs as [[<- <-]|[<- <-]]; (split; [|split]; auto);
    apply has_edge_true; exists e; split; auto; unfold same_pair; auto.
Qed.

Lemma mst_links_trimmed (g : graph) (cluster : list node) (num_edges : Z)
  (a b : node) :
  wf_graph g ->
  linked (minimum_spanning_edges (subgraph g cluster)) a b ->
  connected_in (trim_cluster g cluster num_edges) cluster a b.
Proof.
  intros Hwf H. induction H as [x y [d H]| |x y _ IH|x y z _ IH1 _ IH2].
  - destruct (mst_edge_inside _ _ _ _ _ H) as [H1 [H2 H3]].
    apply rt_step. split; [exact H1|]. split; [exact H2|].
    apply trim_cluster_has_edge; [exact Hwf|]. split; [exact H3|].
    intros _. right. right. left. exists d. exact H.
  - apply rt_refl.
  - apply connected_in_sym. exact IH.
  - eapply rt_trans; eauto.
Qed.

Lemma adjacent_in_trimmed (g : graph) (cluster : list node) (num_edges : Z)
  (x y : node) :
  wf_graph g ->
  adjacent_in g cluster x y ->
  connected_in (trim_cluster g cluster num_edges) cluster x y.
Proof.
  intros Hwf [Hx [Hy H]].
  apply has_edge_true in H. destruct H as [e [He Hs]].
  assert (In e (edges (subgraph g cluster))) as Hsg.
  { apply subgraph_edges. split; [exact He|].
    destruct Hs as [[-> ->]|[-> ->]]; auto. }
  destruct (@all_edges_complete (subgraph g cluster) e
              (subgraph_wf cluster Hwf) Hsg) as [Ht|Ht];
    rewrite <- (sorted_In cmp_reversed) in Ht;
    apply kruskal_links in Ht; cbn [fst snd] in Ht;
    apply (@mst_links_trimmed g cluster num_edges _ _ Hwf) in Ht.
  - destruct Hs as [[<- <-]|[<- <-]]; [exact Ht | apply connected_in_sym; exact Ht].
  - destruct Hs as [[<- <-]|[<- <-]]; [apply connected_in_sym; exact Ht | exact Ht].
Qed.

Lemma trim_cluster_connected (g : graph) (cluster : list node) (num_edges : Z)
  (u v : node) :
  wf_graph g ->
  connected_in g cluster u v ->
  connected_in (trim_cluster g cluster num_edges) cluster u v.
Proof.
  intros Hwf H. induction H as [x y H| |x y z _ IH1 _ IH2].
  - apply adjacent_in_trimmed; assumption.
  - apply rt_refl.
  - eapply rt_trans; eauto.
Qed.

(** *** The ranking behind the top edges of a node *)

Lemma sign_neg (x : Q) : (sign x <? 0)%Z = true <-> (x < 0)%Q.
Proof.
  unfold sign. destruct (Qgt_bool x 0) eqn:E1.
  - apply Qgt_bool_iff in E1. split; [discriminate|]. intro H. lra.
  - destruct (Qlt_bool x 0) eqn:E2.
    + apply Qlt_bool_iff in E2. split; [auto | reflexivity].
    + split; [discriminate|]. intro H. apply Qlt_bool_iff in H. congruence.
Qed.

Lemma StronglySorted_app_le {A : Type} (le : A -> A -> Prop) (l1 l2 : list A) :
  StronglySorted le (l1 ++ l2) ->
  forall x y, In x l1 -> In y l2 -> le x y.
Proof.
  induction l1 as [|a l1 IH]; intros H x y Hx Hy; [destruct Hx|].
  cbn in H. inversion H as [|? ? Hs Hf]; subst.
  destruct Hx as [<-|Hx].
  - rewrite Forall_forall in Hf. apply Hf, in_app_iff. right. exact Hy.
  - apply IH; assumption.
Qed.

(** For a positive [num_edges] the edges kept for a node are the last
    [num_edges] of its edges in ascending order of similarity: as many as
    there are if fewer, and none of the edges left out is more similar than
    one that is kept. *)
Lemma top_edges_ranked (g : graph) (num_edges : Z) (n : node) :
  (0 < num_edges)%Z ->
  exists dropped,
    Permutation (dropped ++ top_edges g num_edges n) (incident g n) /\
    List.length (top_edges g num_edges n)
      = Nat.min (Z.to_nat num_edges) (List.length (incident g n)) /\
    forall x y, In x dropped -> In y (top_edges g num_edges n) ->
                (simi_at g x <= simi_at g y)%Q.
Proof.
  intro Hpos. unfold top_edges, slice_last.
  destruct (num_edges =? 0)%Z eqn:E0; [apply Z.eqb_eq in E0; lia|].
  destruct (0 <? num_edges)%Z eqn:E1; [|apply Z.ltb_ge in E1; lia].
  set (cmp := fun x y : node * node * attrs => cmp_edge g (pair_of x) (pair_of y)).
  set (r := sorted cmp (incident g n)).
  exists (firstn (List.length r - Z.to_nat num_edges) r).
  split; [|split].
  - rewrite firstn_skipn. apply sorted_perm.
  - rewrite length_skipn. unfold r. rewrite sorted_length. lia.
  - apply (@StronglySorted_app_le _ (fun x y => (simi_at g x <= simi_at g y)%Q)).
    rewrite firstn_skipn. unfold r.
    apply sorted_sorted.
    + intros x y z. apply Qle_trans.
    + intros x y H. unfold cmp, cmp_edge, cmp_simi in H. apply sign_neg in H.
      unfold simi_at. lra.
    + intros x y H. unfold cmp, cmp_edge, cmp_simi in H.
      unfold simi_at.
      destruct (Qlt_le_dec (simi_of g (fst (pair_of y)) (snd (pair_of y)))
                           (simi_of g (fst (pair_of x)) (snd (pair_of x))))
        as [Hlt|Hle]; [|exact Hle].
      assert ((sign (simi_of g (fst (pair_of y)) (snd (pair_of y)) -
                     simi_of g (fst (pair_of x)) (snd (pair_of x))) <? 0)%Z = true)
        as C by (apply sign_neg; lra).
      congruence.
Qed.

(** ** The spanning edges have the least weight *)

Lemma joined_eq_linked (T : list (node * node * attrs)) (x y : node) :
  joined eq T x y <-> linked T x y.
Proof.
  unfold joined, linked. split; intro H.
  - induction H as [a b [H|H]| |a b _ IH|a b c _ IH1 _ IH2].
    + subst. apply rst_refl.
    + apply rst_step. exact H.
    + apply rst_refl.
    + apply rst_sym. exact IH.
    + apply rst_trans with b; assumption.
  - induction H as [a b H| |a b _ IH|a b c _ IH1 _ IH2].
    + apply rst_step. right. exact H.
    + apply rst_refl.
    + apply rst_sym. exact IH.
    + apply rst_trans with b; assumption.
Qed.

Lemma minimum_spanning_order (sg : graph) :
  StronglySorted (fun x y => (similarity (snd y) <= similarity (snd x))%Q)
                 (sorted cmp_reversed (all_edges sg)) /\
  Permutation (sorted cmp_reversed (all_edges sg)) (all_edges sg).
Proof.
  split; [|apply sorted_perm].
  apply sorted_sorted.
  - intros x y z H1 H2. apply Qle_trans with (similarity (snd y)); assumption.
  - intros x y H. unfold cmp_reversed, cmp_simi in H. apply sign_neg in H. lra.
  - intros x y H. unfold cmp_reversed, cmp_simi in H.
    destruct (Qlt_le_dec (similarity (snd x)) (similarity (snd y))) as [Hlt|Hle];
      [|exact Hle].
    assert ((sign (- similarity (snd y) - - similarity (snd x)) <? 0)%Z = true)
      as C by (apply sign_neg; lra).
    congruence.
Qed.

Lemma uf_union_classes (uf : union_find) (a b x y : node) :
  uf_union uf a b x = uf_union uf a b y <->
  uf x = uf y \/ (uf x = uf a /\ uf y = uf b) \/ (uf x = uf b /\ uf y = uf a).
Proof.
  unfold uf_union.
  destruct (string_dec (uf x) (uf a)) as [Ex|Ex];
    [rewrite (proj2 (node_eqb_eq _ _) Ex) | rewrite (proj2 (node_eqb_neq _ _) Ex)];
    (destruct (string_dec (uf y) (uf a)) as [Ey|Ey];
     [rewrite (proj2 (node_eqb_eq _ _) Ey) | rewrite (proj2 (node_eqb_neq _ _) Ey)]).
  - split; [intros _; left; congruence | reflexivity].
  - split.
    + intro H. right. left. split; [exact Ex | symmetry; exact H].
    + intros [H|[[_ H]|[_ H]]]; congruence.
  - split.
    + intro H. right. right. split; [exact H | exact Ey].
    + intros [H|[[H _]|[H _]]]; congruence.
  - split.
    + intro H. left. exact H.
    + intros [H|[[H _]|[_ H]]]; congruence.
Qed.

Lemma uf_union_joins (uf : union_find) (u v : node) :
  uf_union uf u v u = uf_union uf u v v.
Proof.
  apply uf_union_classes.
  destruct (string_dec (uf u) (uf v)) as [E|E]; [left; exact E|].
  right. left. auto.
Qed.

Lemma same_classes_refl (uf : union_find) : same_classes uf uf.
Proof. intros x y. reflexivity. Qed.

Lemma same_classes_sym (u1 u2 : union_find) :
  same_classes u1 u2 -> same_classes u2 u1.
Proof. intros H x y. symmetry. apply H. Qed.

Lemma same_classes_trans (u1 u2 u3 : union_find) :
  same_classes u1 u2 -> same_classes u2 u3 -> same_classes u1 u3.
Proof. intros H1 H2 x y. rewrite (H1 x y). apply H2. Qed.

Lemma same_classes_union (u1 u2 : union_find) (a b : node) :
  same_classes u1 u2 -> same_classes (uf_union u1 a b) (uf_union u2 a b).
Proof.
  intros H x y. rewrite !uf_union_classes.
  rewrite (H x y), (H x a), (H y b), (H x b), (H y a). reflexivity.
Qed.

Lemma uf_union_swap (uf : union_find) (a b u v : node) :
  same_classes (uf_union (uf_union uf a b) u v) (uf_union (uf_union uf u v) a b).
Proof.
  intros x y. rewrite !uf_union_classes. intuition congruence.
Qed.

Lemma forest_same (T : list (node * node * attrs)) :
  forall u1 u2, same_classes u1 u2 -> forest_from u1 T -> forest_from u2 T.
Proof.
  induction T as [|[[u v] d] T IH]; intros u1 u2 H HF; [exact I|].
  destruct HF as [Hne HF]. split.
  - intro E. apply Hne. apply H. exact E.
  - eapply IH; [|exact HF]. apply same_classes_union. exact H.
Qed.

Lemma uf_all_same (T : list (node * node * attrs)) :
  forall u1 u2, same_classes u1 u2 -> same_classes (uf_all u1 T) (uf_all u2 T).
Proof.
  induction T as [|[[u v] d] T IH]; intros u1 u2 H; [exact H|].
  cbn [uf_all]. apply IH. apply same_classes_union. exact H.
Qed.

Lemma kruskal_same (es : list (node * node * attrs)) :
  forall u1 u2, same_classes u1 u2 -> kruskal u1 es = kruskal u2 es.
Proof.
  induction es as [|[[u v] d] es IH]; intros u1 u2 H; [reflexivity|].
  cbn [kruskal].
  destruct (string_dec (u1 u) (u1 v)) as [E|E].
  - rewrite (proj2 (node_eqb_eq _ _) E).
    rewrite (proj2 (node_eqb_eq _ _) (proj1 (H u v) E)). apply IH. exact H.
  - rewrite (proj2 (node_eqb_neq _ _) E).
    assert (u2 u <> u2 v) as E' by (intro C; apply E, H; exact C).
    rewrite (proj2 (node_eqb_neq _ _) E'). f_equal.
    apply IH. apply same_classes_union. exact H.
Qed.

Lemma uf_all_app (pre post : list (node * node * attrs)) :
  forall uf, uf_all uf (pre ++ post) = uf_all (uf_all uf pre) post.
Proof.
  induction pre as [|[[u v] d] pre IH]; intro uf; [reflexivity|].
  cbn [app uf_all]. apply IH.
Qed.

Lemma forest_app (pre post : list (node * node * attrs)) :
  forall uf,
  forest_from uf (pre ++ post) <->
  forest_from uf pre /\ forest_from (uf_all uf pre) post.
Proof.
  induction pre as [|[[u v] d] pre IH]; intro uf.
  - cbn. tauto.
  - cbn [app forest_from uf_all]. rewrite IH. tauto.
Qed.

Lemma uf_all_mono (T : list (node * node * attrs)) :
  forall uf x y, uf x = uf y -> uf_all uf T x = uf_all uf T y.
Proof.
  induction T as [|[[u v] d] T IH]; intros uf x y H; [exact H|].
  cbn [uf_all]. apply IH. apply uf_union_classes. left. exact H.
Qed.

Lemma uf_all_joins (T : list (node * node * attrs)) :
  forall uf t, In t T -> uf_all uf T (fst (fst t)) = uf_all uf T (snd (fst t)).
Proof.
  induction T as [|[[u v] d] T IH]; intros uf t Ht; [destruct Ht|].
  cbn [uf_all]. destruct Ht as [<-|Ht].
  - cbn [fst snd]. apply uf_all_mono. apply uf_union_classes.
    destruct (string_dec (uf u) (uf v)) as [E|E]; [left; exact E|].
    right. left. auto.
  - apply IH. exact Ht.
Qed.

Lemma forest_edge_apart (T : list (node * node * attrs)) :
  forall uf t, forest_from uf T -> In t T -> uf (fst (fst t)) <> uf (snd (fst t)).
Proof.
  induction T as [|[[u v] d] T IH]; intros uf t HF Ht; [destruct Ht|].
  destruct HF as [Hne HF]. destruct Ht as [<-|Ht]; [exact Hne|].
  intro E. apply (@IH _ _ HF Ht). apply uf_union_classes. left. exact E.
Qed.

(** An edge whose ends the edges of [pre] leave apart can be united before
    them. *)
Lemma forest_commute (pre : list (node * node * attrs)) (a b : node) :
  forall uf,
  forest_from uf pre ->
  uf_all uf pre a <> uf_all uf pre b ->
  forest_from (uf_union uf a b) pre /\
  same_classes (uf_all (uf_union uf a b) pre) (uf_union (uf_all uf pre) a b).
Proof.
  induction pre as [|[[u v] d] pre IH]; intros uf HF Hab.
  - split; [exact I | apply same_classes_refl].
  - destruct HF as [Hne HF]. cbn [uf_all] in Hab.
    destruct (@IH _ HF Hab) as [HF' Hc].
    cbn [forest_from uf_all]. split; [split|].
    + intro E. apply uf_union_classes in E.
      destruct E as [E|[[E1 E2]|[E1 E2]]]; [contradiction| |].
      * apply Hab. apply uf_all_mono. apply uf_union_classes.
        right. left. split; congruence.
      * apply Hab. apply uf_all_mono. apply uf_union_classes.
        right. right. split; congruence.
    + eapply forest_same; [|exact HF']. apply uf_union_swap.
    + eapply same_classes_trans; [|exact Hc].
      apply uf_all_same. apply same_classes_sym, uf_union_swap.
Qed.

(** The first edge of [T] that joins [a] and [b]. *)
Lemma first_joiner (T : list (node * node * attrs)) (a b : node) :
  forall uf,
  uf a <> uf b -> uf_all uf T a = uf_all uf T b ->
  exists pre f post,
    T = pre ++ f :: post /\
    uf_all uf pre a <> uf_all uf pre b /\
    uf_union (uf_all uf pre) (fst (fst f)) (snd (fst f)) a
    = uf_union (uf_all uf pre) (fst (fst f)) (snd (fst f)) b.
Proof.
  induction T as [|[[u v] d] T IH]; intros uf Hne Hj; [contradiction|].
  cbn [uf_all] in Hj.
  destruct (string_dec (uf_union uf u v a) (uf_union uf u v b)) as [E|E].
  - exists [], (u, v, d), T. split; [reflexivity|]. split; [exact Hne | exact E].
  - destruct (@IH _ E Hj) as [pre [f [post [-> [H1 H2]]]]].
    exists ((u, v, d) :: pre), f, post. split; [reflexivity|].
    split; [exact H1 | exact H2].
Qed.

Lemma joiner_classes (uf : union_find) (a b p q : node) :
  uf a <> uf b -> uf_union uf p q a = uf_union uf p q b ->
  same_classes (uf_union uf a b) (uf_union uf p q).
Proof.
  intros Hne E x y. apply uf_union_classes in E. rewrite !uf_union_classes.
  intuition congruence.
Qed.

Lemma reversed_weight_app (l1 l2 : list (node * node * attrs)) :
  (reversed_weight (l1 ++ l2) == reversed_weight l1 + reversed_weight l2)%Q.
Proof.
  induction l1 as [|t l1 IH].
  - change (reversed_weight l2 == 0 + reversed_weight l2)%Q. lra.
  - change (- similarity (snd t) + reversed_weight (l1 ++ l2)
            == - similarity (snd t) + reversed_weight l1 + reversed_weight l2)%Q.
    lra.
Qed.

Lemma kruskal_least_weight (es : list (node * node * attrs)) :
  StronglySorted (fun x y => (similarity (snd y) <= similarity (snd x))%Q) es ->
  forall uf T,
  incl T es -> forest_from uf T ->
  (forall t, In t es -> uf_all uf T (fst (fst t)) = uf_all uf T (snd (fst t))) ->
  (reversed_weight (kruskal uf es) <= reversed_weight T)%Q.
Proof.
  induction es as [|[[a b] d] rest IH]; intros Hs uf T Hincl HF Hspan.
  - destruct T as [|t T]; [apply Qle_refl|].
    exfalso. apply (Hincl t). left. reflexivity.
  - inversion Hs as [|? ? Hs' Hall]; subst. rewrite Forall_forall in Hall.
    cbn [kruskal].
    destruct (string_dec (uf a) (uf b)) as [E|E].
    + rewrite (proj2 (node_eqb_eq _ _) E).
      apply IH; [exact Hs'| |exact HF|].
      * intros t Ht. destruct (Hincl t Ht) as [<-|Hr]; [|exact Hr].
        exfalso. exact (@forest_edge_apart T uf (a, b, d) HF Ht E).
      * intros t Ht. apply Hspan. right. exact Ht.
    + rewrite (proj2 (node_eqb_neq _ _) E).
      destruct (@first_joiner T a b uf E (Hspan (a, b, d) (or_introl eq_refl)))
        as [pre [f [post [-> [Hpre Hf]]]]].
      destruct f as [[p q] df].
      apply forest_app in HF. destruct HF as [HFpre HFpost].
      destruct HFpost as [Hfne HFpost].
      cbn [fst snd uf_all] in *.
      destruct (@forest_commute pre a b uf HFpre Hpre) as [HFpre' Hc].
      pose proof (@joiner_classes (uf_all uf pre) a b p q Hpre Hf) as Hj.
      assert (same_classes (uf_all (uf_union uf a b) pre)
                           (uf_union (uf_all uf pre) p q)) as Hc'.
      { eapply same_classes_trans; [exact Hc | exact Hj]. }
      assert (forest_from (uf_union uf a b) (pre ++ post)) as HF''.
      { apply forest_app. split; [exact HFpre'|].
        eapply forest_same; [apply same_classes_sym; exact Hc' | exact HFpost]. }
      assert (same_classes (uf_all (uf_union uf a b) (pre ++ post))
                           (uf_all uf (pre ++ (p, q, df) :: post))) as Hfin.
      { rewrite !uf_all_app. cbn [uf_all]. apply uf_all_same. exact Hc'. }
      assert (~ In (a, b, d) (pre ++ post)) as Hnot.
      { intro Hin. apply in_app_iff in Hin. destruct Hin as [Hin|Hin].
        - apply Hpre. exact (@uf_all_joins pre uf (a, b, d) Hin).
        - apply (@forest_edge_apart post _ (a, b, d) HFpost Hin). cbn [fst snd]. exact Hf. }
      assert (reversed_weight (kruskal (uf_union uf a b) rest)
              <= reversed_weight (pre ++ post))%Q as HIH.
      { apply IH; [exact Hs'| |exact HF''|].
        - intros t Ht.
          assert (In t (pre ++ (p, q, df) :: post)) as Ht'.
          { apply in_app_iff in Ht. apply in_app_iff.
            destruct Ht as [Ht|Ht]; [left; exact Ht | right; right; exact Ht]. }
          destruct (Hincl t Ht') as [<-|Hr]; [contradiction | exact Hr].
        - intros t Ht. apply Hfin. apply Hspan. right. exact Ht. }
      assert (similarity df <= similarity d)%Q as Hsim.
      { assert (In (p, q, df) ((a, b, d) :: rest)) as Hin.
        { apply Hincl. apply in_app_iff. right. left. reflexivity. }
        destruct Hin as [Hin|Hin].
        - injection Hin as _ _ <-. apply Qle_refl.
        - exact (Hall _ Hin). }
      cbn [reversed_weight fold_right snd].
      fold (reversed_weight (kruskal (uf_union uf a b) rest)).
      rewrite reversed_weight_app. rewrite reversed_weight_app in HIH.
      cbn [reversed_weight fold_right snd]. fold (reversed_weight post).
      lra.
Qed.

Lemma uf_all_classes (T : list (node * node * attrs)) :
  forall uf x y,
  uf_all uf T x = uf_all uf T y <-> joined (fun p q => uf p = uf q) T x y.
Proof.
  induction T as [|[[u v] d] T IH]; intros uf x y.
  - cbn [uf_all]. split.
    + intro H. apply rst_step. left. exact H.
    + intro H. unfold joined in H.
      induction H as [p q [H|[d []]]| |p q _ IH|p q r _ IH1 _ IH2]; congruence.
  - cbn [uf_all]. rewrite IH. split; intro H.
    + eapply joined_mono; [| |exact H].
      * intros p q Hpq. apply uf_union_classes in Hpq. unfold joined.
        assert (clos_refl_sym_trans node
                  (fun a b => uf a = uf b \/ tree_step ((u, v, d) :: T) a b) u v)
          as Huv by (apply rst_step; right; exists d; left; reflexivity).
        destruct Hpq as [E|[[E1 E2]|[E1 E2]]].
        -- apply rst_step. left. exact E.
        -- apply rst_trans with u; [apply rst_step; left; exact E1|].
           apply rst_trans with v; [exact Huv|].
           apply rst_step. left. symmetry. exact E2.
        -- apply rst_trans with v; [apply rst_step; left; exact E1|].
           apply rst_trans with u; [apply rst_sym; exact Huv|].
           apply rst_step. left. symmetry. exact E2.
      * intros t Ht. right. exact Ht.
    + unfold joined in *.
      induction H as [p q [H|[d' [H|H]]]| |p q _ IH'|p q r _ IH1 _ IH2].
      * apply rst_step. left. apply uf_union_classes. left. exact H.
      * injection H as E1 E2 _. subst. apply rst_step. left. apply uf_union_joins.
      * apply rst_step. right. exists d'. exact H.
      * apply rst_refl.
      * apply rst_sym. exact IH'.
      * apply rst_trans with q; assumption.
Qed.

Lemma uf_all_linked (T : list (node * node * attrs)) (x y : node) :
  uf_all uf_init T x = uf_all uf_init T y <-> linked T x y.
Proof.
  rewrite uf_all_classes. apply (joined_eq_linked T x y).
Qed.

Lemma forest_splits (T : list (node * node * attrs)) :
  forall uf,
  forest_from uf T <->
  forall pre t post,
    T = pre ++ t :: post ->
    uf_all uf pre (fst (fst t)) <> uf_all uf pre (snd (fst t)).
Proof.
  induction T as [|[[u v] d] T IH]; intro uf.
  - split; [|intros _; exact I].
    intros _ pre t post E. destruct pre; discriminate E.
  - cbn [forest_from]. rewrite IH. split.
    + intros [Hne H] pre t post E. destruct pre as [|t0 pre].
      * injection E as <- _. exact Hne.
      * injection E as <- E. cbn [uf_all]. apply (H pre t post E).
    + intro H. split.
      * exact (H [] (u, v, d) T eq_refl).
      * intros pre t post E.
        apply (H ((u, v, d) :: pre) t post). rewrite E. reflexivity.
Qed.

Lemma acyclic_forest (T : list (node * node * attrs)) :
  acyclic T <-> forest_from uf_init T.
Proof.
  rewrite forest_splits. unfold acyclic. split; intros H pre t post E.
  - rewrite uf_all_linked. apply (H pre t post E).
  - rewrite <- uf_all_linked. apply (H pre t post E).
Qed.

Lemma kruskal_forest (es : list (node * node * attrs)) :
  forall uf, forest_from uf (kruskal uf es).
Proof.
  induction es as [|[[u v] d] es IH]; intro uf; [exact I|].
  cbn [kruskal].
  destruct (string_dec (uf u) (uf v)) as [E|E].
  - rewrite (proj2 (node_eqb_eq _ _) E). apply IH.
  - rewrite (proj2 (node_eqb_neq _ _) E). split; [exact E | apply IH].
Qed.

Lemma minimum_spanning_least (sg : graph) :
  spanning_forest (all_edges sg) (minimum_spanning_edges sg) /\
  forall T, spanning_forest (all_edges sg) T ->
            (reversed_weight (minimum_spanning_edges sg) <= reversed_weight T)%Q.
Proof.
  unfold minimum_spanning_edges.
  set (es := sorted cmp_reversed (all_edges sg)).
  assert (forall t, In t es <-> In t (all_edges sg)) as Hes
    by (intro t; apply sorted_In).
  split; [split; [|split]|].
  - intros t Ht. apply Hes. eapply kruskal_subset. exact Ht.
  - apply acyclic_forest. apply kruskal_forest.
  - intros t Ht. apply kruskal_links. apply Hes. exact Ht.
  - intros T [Hincl [Hac Hspan]].
    apply kruskal_least_weight.
    + apply minimum_spanning_order.
    + intros t Ht. apply Hes. apply Hincl. exact Ht.
    + apply acyclic_forest. exact Hac.
    + intros t Ht. apply uf_all_linked. apply Hspan. apply Hes. exact Ht.
Qed.

(** C1: let the nodes of [cluster] be connected inside the cluster.  After
    [trim_cluster] they still are.  An edge of the trimmed graph is an edge
    of the graph that either does not touch the cluster or is kept: it is,
    in one of its orientations, among the top edges of a node of the cluster
    or among the minimum spanning edges that Kruskal's algorithm yields for
    the cluster under the weight [-similarity]; every other edge of the
    cluster is removed.  For a positive [num_edges] the top edges of a node
    are its [num_edges] most similar edges.  The minimum spanning edges are
    a spanning forest of the subgraph of the cluster (edges of the subgraph
    that close no cycle and link the ends of every edge of it), and no
    spanning forest of that subgraph has a smaller sum of [-similarity]. *)
Theorem trim_cluster_keeps_cluster_connected
  (g : graph) (cluster : list node) (num_edges : Z) :
  wf_graph g ->
  (forall u v, In u cluster -> In v cluster -> connected_in g cluster u v) ->
  (forall u v, In u cluster -> In v cluster ->
               connected_in (trim_cluster g cluster num_edges) cluster u v) /\
  (forall u v,
      has_edge (trim_cluster g cluster num_edges) u v = true <->
      has_edge g u v = true /\
      (In u cluster \/ In v cluster -> kept g cluster num_edges u v)) /\
  ((0 < num_edges)%Z ->
   forall n, exists dropped,
     Permutation (dropped ++ top_edges g num_edges n) (incident g n) /\
     List.length (top_edges g num_edges n)
       = Nat.min (Z.to_nat num_edges) (List.length (incident g n)) /\
     forall x y, In x dropped -> In y (top_edges g num_edges n) ->
                 (simi_at g x <= simi_at g y)%Q) /\
  spanning_forest (all_edges (subgraph g cluster))
                  (minimum_spanning_edges (subgraph g cluster)) /\
  (forall T, spanning_forest (all_edges (subgraph g cluster)) T ->
             (reversed_weight (minimum_spanning_edges (subgraph g cluster))
              <= reversed_weight T)%Q).
Proof.
  intros Hwf Hconn.
  destruct (minimum_spanning_least (subgraph g cluster)) as [Hforest Hleast].
  split; [|split; [|split; [|split]]].
  - intros u v Hu Hv. apply trim_cluster_connected; auto.
  - intros u v. apply trim_cluster_has_edge. exact Hwf.
  - intros Hpos n. apply top_edges_ranked. exact Hpos.
  - exact Hforest.
  - exact Hleast.
Qed.

Lemma trim_example_wf : wf_graph TrimExample.g.
Proof.
  intros e [<-|[<-|[<-|[<-|[]]]]]; cbn; auto 10.
Qed.

Lemma trim_example_connected (u v : node) :
  In u TrimExample.cluster -> In v TrimExample.cluster ->
  connected_in TrimExample.g TrimExample.cluster u v.
Proof.
  assert (forall a b, In a TrimExample.cluster -> In b TrimExample.cluster ->
                      has_edge TrimExample.g a b = true ->
                      connected_in TrimExample.g TrimExample.cluster a b) as Hstep.
  { intros a b Ha Hb H. apply rt_step. repeat split; assumption. }
  assert (forall x, In x TrimExample.cluster ->
                    connected_in TrimExample.g TrimExample.cluster "A"%string x) as HA.
  { intros x [<-|[<-|[<-|[<-|[]]]]].
    - apply rt_refl.
    - apply Hstep; cbn; auto 10.
    - apply Hstep; cbn; auto 10.
    - apply rt_trans with "C"%string; apply Hstep; cbn; auto 10. }
  intros Hu Hv.
  apply rt_trans with "A"%string; [apply connected_in_sym|]; apply HA; assumption.
Qed.

Lemma trim_cluster_keeps_cluster_connected_witness :
  connected_in (trim_cluster TrimExample.g TrimExample.cluster 1)
               TrimExample.cluster "B"%string "D"%string /\
  has_edge (trim_cluster TrimExample.g TrimExample.cluster 1)
           "B"%string "C"%string = false /\
  List.length (top_edges TrimExample.g 1 "C"%string) = 1%nat /\
  spanning_forest (all_edges (subgraph TrimExample.g TrimExample.cluster))
    (minimum_spanning_edges (subgraph TrimExample.g TrimExample.cluster)).
Proof.
  destruct (@trim_cluster_keeps_cluster_connected TrimExample.g TrimExample.cluster 1
              trim_example_wf trim_example_connected) as [H1 [_ [H3 [H4 _]]]].
  split; [|split; [|split]].
  - apply H1; cbn; auto 10.
  - reflexivity.
  - destruct (H3 eq_refl "C"%string) as [dropped [_ [Hl _]]]. exact Hl.
  - exact H4.
Defined.

(** ** The clusters of the pipeline stay connected *)

Lemma component_connected_in (g : graph) (c : list node) (u : node) :
  In u c ->
  (forall x, connected g u x -> In x c) ->
  forall v, connected g u v -> connected_in g c u v.
Proof.
  intros Hu Hc v H. apply clos_rt_rtn1 in H.
  induction H as [|y z Hyz Huy IH].
  - apply rt_refl.
  - apply clos_rtn1_rt in Huy.
    apply rt_trans with y; [exact IH|].
    apply rt_step. split; [apply Hc; exact Huy|].
    split; [|exact Hyz].
    apply Hc. apply rt_trans with y; [exact Huy | apply rt_step; exact Hyz].
Qed.

(** A cluster of [sorted_clusters] is connected inside itself. *)
Lemma sorted_clusters_connected_in (g : graph) (c : list node) (u v : node) :
  wf_graph g -> In c (sorted_clusters g) -> In u c -> In v c ->
  connected_in g c u v.
Proof.
  intros Hwf Hc Hu Hv.
  destruct (sorted_clusters_components Hwf) as [_ [_ H]].
  apply component_connected_in; [exact Hu | |].
  - intros x Hx. apply (H c u x Hc Hu). exact Hx.
  - apply (H c u v Hc Hu). exact Hv.
Qed.

Lemma trim_cluster_wf (g : graph) (cluster : list node) (num_edges : Z) :
  wf_graph g -> wf_graph (trim_cluster g cluster num_edges).
Proof.
  intros Hwf e He. apply trim_cluster_edges in He. destruct He as [He _].
  exact (Hwf e He).
Qed.

(** Trimming a cluster leaves the edges of a disjoint cluster alone. *)
Lemma trim_other_cluster_connected (g : graph) (c c' : list node) (num_edges : Z)
  (u v : node) :
  wf_graph g ->
  (forall x, In x c -> ~ In x c') ->
  connected_in g c u v ->
  connected_in (trim_cluster g c' num_edges) c u v.
Proof.
  intros Hwf Hdis H. induction H as [x y [Hx [Hy H]]| |x y z _ IH1 _ IH2].
  - apply rt_step. split; [exact Hx|]. split; [exact Hy|].
    apply trim_cluster_has_edge; [exact Hwf|]. split; [exact H|].
    intros [Hc|Hc]; exfalso.
    + exact (Hdis x Hx Hc).
    + exact (Hdis y Hy Hc).
  - apply rt_refl.
  - eapply rt_trans; eauto.
Qed.

Lemma trim_clusters_connected (clusters : list (list node)) :
  forall (g : graph) (c : list node),
  wf_graph g ->
  (forall c', In c' clusters -> c' = c \/ forall x, In x c -> ~ In x c') ->
  (forall u v, In u c -> In v c -> connected_in g c u v) ->
  forall u v, In u c -> In v c ->
              connected_in (trim_clusters g clusters) c u v.
Proof.
  unfold trim_clusters.
  induction clusters as [|c1 rest IH]; intros g c Hwf Hcs Hconn u v Hu Hv.
  - apply Hconn; assumption.
  - cbn [fold_left]. apply IH; auto.
    + apply trim_cluster_wf. exact Hwf.
    + intros c' Hc'. apply Hcs. right. exact Hc'.
    + intros a b Ha Hb.
      destruct (Hcs c1 (or_introl eq_refl)) as [->|Hdis].
      * apply trim_cluster_connected; auto.
      * apply trim_other_cluster_connected; auto.
Qed.

Lemma NoDup_concat_disjoint (cs : list (list node)) (c c' : list node) :
  NoDup (List.concat cs) -> In c cs -> In c' cs ->
  c' = c \/ forall x, In x c -> ~ In x c'.
Proof.
  induction cs as [|a rest IH]; intros Hnd Hc Hc'; [destruct Hc|].
  cbn [List.concat] in Hnd.
  assert (forall x l, In x a -> In l rest -> ~ In x l) as Hdis.
  { intros x l Hx Hl Hxl. apply NoDup_app_remove_r in Hnd as Ha.
    revert Hnd. clear - Hx Hl Hxl.
    induction a as [|y a IHa]; [destruct Hx|].
    cbn. intro Hnd. apply NoDup_cons_iff in Hnd. destruct Hnd as [Hy Hnd].
    destruct Hx as [<-|Hx].
    - apply Hy. apply in_app_iff. right. apply in_concat. exists l. auto.
    - apply IHa; assumption. }
  destruct Hc as [<-|Hc]; destruct Hc' as [<-|Hc'].
  - left. reflexivity.
  - right. intros x Hx. apply Hdis; assumption.
  - right. intros x Hx Hx'. exact (Hdis x c Hx' Hc Hx).
  - apply IH; auto. apply NoDup_app_remove_l in Hnd. exact Hnd.
Qed.

(** After lines 145-147 every cluster of the desired graph is connected
    inside itself, as it was before. *)
Theorem trimmed_clusters_stay_connected (g : graph) (c : list node) (u v : node) :
  wf_graph g -> In c (sorted_clusters g) -> In u c -> In v c ->
  connected_in (trim_clusters g (sorted_clusters g)) c u v.
Proof.
  intros Hwf Hc Hu Hv.
  destruct (sorted_clusters_components Hwf) as [_ [Hnd _]].
  apply trim_clusters_connected; auto.
  - intros c' Hc'. apply NoDup_concat_disjoint with (sorted_clusters g); auto.
  - intros a b Ha Hb. apply sorted_clusters_connected_in; auto.
Qed.

(** ** [gen_graph] ends *)

Lemma search_loop_mono (kb : kbase) (basic_graph : graph)
  (mcs_ids : list string) (max_csize : Z) (fuel : nat) :
  forall fuel' s r,
  (fuel <= fuel')%nat ->
  search_loop fuel kb basic_graph mcs_ids max_csize s = Some r ->
  search_loop fuel' kb basic_graph mcs_ids max_csize s = Some r.
Proof.
  induction fuel as [|fuel IH]; intros fuel' s r Hle H.
  - cbn [search_loop] in H.
    destruct (search_goes_on (s_state s)) eqn:E; [discriminate|].
    rewrite search_loop_stopped; assumption.
  - destruct fuel' as [|fuel']; [lia|].
    cbn [search_loop] in *.
    destruct (search_goes_on (s_state s)); [|exact H].
    destruct (search_step max_csize (List.length (s_largest s)) (s_state s));
      [|exact H].
    destruct (create kb basic_graph mcs_ids (Cutoff (trial st))); [|exact H].
    destruct (index_neg (sorted_clusters a) (-1)); [|exact H].
    apply IH; [lia | exact H].
Qed.

Lemma threshold_search_mono (kb : kbase) (basic_graph : graph)
  (mcs_ids : list string) (simi_cutoff : Q) (max_csize : Z)
  (desired : graph) (clusters : list (list node)) (largest : list node)
  (out : list event) (fuel fuel' : nat) (r : result searched) :
  (fuel <= fuel')%nat ->
  threshold_search fuel kb basic_graph mcs_ids simi_cutoff max_csize
    desired clusters largest out = Some r ->
  threshold_search fuel' kb basic_graph mcs_ids simi_cutoff max_csize
    desired clusters largest out = Some r.
Proof.
  unfold threshold_search. intros Hle H.
  destruct (max_csize <? Z.of_nat (List.length largest))%Z; [|exact H].
  eapply search_loop_mono; eauto.
Qed.

Lemma connect_step_shrinks (complete : graph) (clusters : list (list node))
  (num_c2c : Z) (desired : graph) (cluster_index : nat) (unconnected : list nat)
  (out : list event) (desired' : graph) (unconnected' : list nat)
  (out' : list event) :
  connect_step complete clusters num_c2c desired cluster_index unconnected out
    = Ok (desired', unconnected', out') ->
  (List.length unconnected' <= List.length unconnected)%nat.
Proof.
  unfold connect_step. intro H.
  destruct (cluster_at clusters cluster_index) as [this|]; [|discriminate].
  cbn [bind] in H.
  destruct (boundary_edges complete clusters this) as [c2c|]; [|discriminate].
  cbn [bind] in H.
  destruct (List.length c2c =? 0)%nat.
  - injection H as <- <- <-. apply Nat.le_refl.
  - destruct (bridge_loop complete clusters (sorted (cmp_edge complete) c2c)
                unconnected (desired, [], out) (range_down num_c2c))
      as [[[d1 c1] o1]|]; [|discriminate].
    cbn [bind] in H. injection H as <- <- <-. apply filter_length_le.
Qed.

(** Every pass of the Connector pops a cluster, so as many passes as there
    are pending clusters are enough. *)
Lemma connect_loop_terminates (complete : graph) (clusters : list (list node))
  (num_c2c : Z) (fuel : nat) :
  forall desired unconnected out,
  (List.length unconnected <= fuel)%nat ->
  connect_loop fuel complete clusters num_c2c desired unconnected out <> None.
Proof.
  induction fuel as [|fuel IH]; intros desired unconnected out Hle.
  - destruct unconnected; [discriminate | cbn in Hle; lia].
  - destruct unconnected as [|i rest]; [discriminate|].
    cbn [connect_loop].
    destruct (connect_step complete clusters num_c2c desired i rest out)
      as [[[d u] o]|] eqn:E; [|discriminate].
    apply IH. apply connect_step_shrinks in E. cbn [List.length] in Hle. lia.
Qed.

(** X16: [gen_graph] ends on every input: there is a number of passes with
    which both of its [while] loops have finished, and it then returns a
    graph or raises. *)
Theorem gen_graph_terminates (kb : kbase) (mcs_ids : list string)
  (basic_rule : Rule) (simi_cutoff : Q) (max_csize num_c2c : Z) :
  exists N, forall fuel, (N <= fuel)%nat ->
    exists r, gen_graph fuel kb mcs_ids basic_rule simi_cutoff max_csize num_c2c
              = Some r.
Proof.
  unfold gen_graph.
  destruct (build_graphs kb mcs_ids basic_rule simi_cutoff) as [b|e].
  2:{ exists 0%nat. intros fuel _. eexists. reflexivity. }
  cbn [lift].
  destruct (threshold_search (search_passes simi_cutoff) (b_kb b) (b_basic b)
              mcs_ids simi_cutoff max_csize (b_desired b) (b_clusters b)
              (b_largest b) (b_out b)) as [r1|] eqn:E1.
  2:{ exfalso. revert E1. apply threshold_search_fuel. apply Nat.le_refl. }
  destruct r1 as [s|e].
  - exists (Nat.max (search_passes simi_cutoff) (List.length (s_clusters s))).
    intros fuel Hf.
    rewrite (@threshold_search_mono _ _ _ _ _ _ _ _ _ _ fuel _
               (Nat.le_trans _ _ _ (Nat.le_max_l _ _) Hf) E1).
    cbn [lift_opt].
    destruct (connect_loop fuel (b_complete b) (s_clusters s) num_c2c
                (trim_clusters (s_desired s) (s_clusters s))
                (seq 0 (List.length (s_clusters s)))
                (s_out s ++ info_sizes (s_clusters s))) as [[c|e]|] eqn:E2.
    + eexists. reflexivity.
    + eexists. reflexivity.
    + exfalso. revert E2. apply connect_loop_terminates.
      rewrite length_seq. lia.
  - exists (search_passes simi_cutoff). intros fuel Hf.
    rewrite (@threshold_search_mono _ _ _ _ _ _ _ _ _ _ fuel _ Hf E1).
    eexists. reflexivity.
Qed.

(** ** The edges of the complete and of the desired graph *)

Lemma deposit_all_spec (basic_rule : Rule) (mcs_ids : list string) :
  forall kb all_ids out kb' all_ids' out',
  deposit_all kb basic_rule mcs_ids all_ids out = Ok (kb', all_ids', out') ->
  (forall id, mcs_parents kb' id = mcs_parents kb id) /\
  (forall id, kb_similarity kb id <> None -> kb_similarity kb' id <> None) /\
  (forall id, In id mcs_ids ->
              mcs_parents kb id <> None /\ kb_similarity kb' id <> None).
Proof.
  induction mcs_ids as [|i rest IH]; intros kb all_ids out kb' all_ids' out' H.
  - injection H as <- <- <-.
    split; [reflexivity|]. split; [auto|]. intros id [].
  - cbn [deposit_all] in H. unfold get_parent_ids in H.
    destruct (mcs_parents kb i) as [[id0 id1]|] eqn:Ep; [|discriminate].
    cbn [ask bind] in H.
    destruct (basic_rule kb id0 id1 i) as [simi|]; [|discriminate].
    cbn [bind] in H. apply IH in H. destruct H as [H1 [H2 H3]].
    cbn [deposit_similarity mcs_parents kb_similarity] in *.
    split; [exact H1|]. split.
    + intros id Hid. apply H2. destruct (String.eqb id i); [discriminate | exact Hid].
    + intros id [<-|Hid].
      * split; [congruence|]. apply H2. rewrite String.eqb_refl. discriminate.
      * apply H3. exact Hid.
Qed.

Lemma Cutoff_answers (c : Q) (kb : kbase) (id : string) :
  mcs_parents kb id <> None -> kb_similarity kb id <> None ->
  rule_answers kb (Cutoff c) id.
Proof.
  intros Hp Hs. unfold rule_answers, Cutoff.
  destruct (mcs_parents kb id) as [[id0 id1]|]; [|congruence].
  destruct (kb_similarity kb id) as [s|]; [|congruence].
  exists id0, id1. eexists. split; reflexivity.
Qed.

(** Under [Cutoff c] a pair yields an edge when its deposited similarity is
    positive and not less than [c]. *)
Lemma Cutoff_yields (c : Q) (kb : kbase) (id : string) (u v : node) :
  yields_edge kb (Cutoff c) id u v <->
  exists id0 id1 s,
    mcs_parents kb id = Some (id0, id1) /\ kb_similarity kb id = Some s /\
    (0 < s)%Q /\ (c <= s)%Q /\ same_pair id0 id1 u v.
Proof.
  unfold yields_edge, Cutoff. split.
  - intros [id0 [id1 [simi [Hp [Hr [Hpos Hs]]]]]].
    destruct (kb_similarity kb id) as [s|]; [|discriminate].
    cbn [ask bind] in Hr. injection Hr as <-.
    exists id0, id1, s. split; [exact Hp|]. split; [reflexivity|].
    destruct (Qlt_bool s c) eqn:E.
    + exfalso. revert Hpos. apply Qlt_irrefl.
    + split; [exact Hpos|]. split; [|exact Hs].
      destruct (Qlt_le_dec s c) as [Hlt|Hle]; [|exact Hle].
      apply Qlt_bool_iff in Hlt. congruence.
  - intros [id0 [id1 [s [Hp [Hk [Hpos [Hc Hs]]]]]]].
    exists id0, id1, s. split; [exact Hp|]. rewrite Hk. cbn [ask bind].
    destruct (Qlt_bool s c) eqn:E.
    + apply Qlt_bool_iff in E. exfalso. exact (Qlt_not_le _ _ E Hc).
    + auto.
Qed.

(** What [build_graphs] builds: the complete graph has the pairs whose
    similarity is 1 or more, the desired graph those whose similarity is
    positive and not below the cut-off. *)
Lemma build_graphs_edges (kb : kbase) (mcs_ids : list string) (basic_rule : Rule)
  (simi_cutoff : Q) (b : built) :
  build_graphs kb mcs_ids basic_rule simi_cutoff = Ok b ->
  (forall u v, has_edge (b_complete b) u v = true <->
     exists id, In id mcs_ids /\ yields_edge (b_kb b) (Cutoff 1) id u v) /\
  (forall u v, has_edge (b_desired b) u v = true <->
     exists id, In id mcs_ids /\ yields_edge (b_kb b) (Cutoff simi_cutoff) id u v).
Proof.
  unfold build_graphs. intro H.
  destruct (deposit_all kb basic_rule mcs_ids [] []) as [[[kb' all_ids] out]|] eqn:Ed;
    [|discriminate].
  cbn [bind] in H.
  destruct (deposit_all_spec _ _ _ _ _ Ed) as [H1 [_ H3]].
  assert (forall c id, In id mcs_ids -> rule_answers kb' (Cutoff c) id) as Hans.
  { intros c id Hid. destruct (H3 id Hid) as [Hp Hs].
    apply Cutoff_answers; [rewrite H1; exact Hp | exact Hs]. }
  destruct (@create_from_ok kb' (Cutoff 1) mcs_ids
              (add_nodes_from empty_graph all_ids) (Hans 1))
    as [gc [Ec Hc]].
  destruct (@create_from_ok kb' (Cutoff simi_cutoff) mcs_ids
              (add_nodes_from empty_graph all_ids) (Hans simi_cutoff))
    as [gd [Ed' Hd]].
  unfold create in H. rewrite Ec, Ed' in H. cbn [bind] in H.
  destruct (index_neg (sorted_clusters gd) (-1)); [|discriminate].
  cbn [bind] in H. injection H as <-. cbn [b_complete b_desired b_kb].
  split; intros u v; [rewrite Hc | rewrite Hd];
    (split; [intros [Hf|Hx]; [discriminate Hf | exact Hx] | intro Hx; right; exact Hx]).
Qed.

(** X17: for a cut-off of at most 1 the complete graph of the source is a
    part of the desired graph, not the other way round. *)
Theorem complete_within_desired (kb : kbase) (mcs_ids : list string)
  (basic_rule : Rule) (simi_cutoff : Q) (b : built) (u v : node) :
  (simi_cutoff <= 1)%Q ->
  build_graphs kb mcs_ids basic_rule simi_cutoff = Ok b ->
  has_edge (b_complete b) u v = true -> has_edge (b_desired b) u v = true.
Proof.
  intros Hc Hb H. destruct (build_graphs_edges _ _ _ _ Hb) as [H1 H2].
  apply H2. apply H1 in H. destruct H as [id [Hid Hy]].
  exists id. split; [exact Hid|].
  apply Cutoff_yields. apply Cutoff_yields in Hy.
  destruct Hy as [id0 [id1 [s [Hp [Hk [Hpos [H1s Hs]]]]]]].
  exists id0, id1, s. repeat split; auto. apply Qle_trans with 1%Q; assumption.
Qed.

(** ** Kruskal's loop is greedy *)

Lemma kruskal_app (pre post : list (node * node * attrs)) :
  forall uf,
  kruskal uf (pre ++ post) = kruskal uf pre ++ kruskal (kruskal_uf uf pre) post.
Proof.
  induction pre as [|[[u v] d] pre IH]; intro uf; cbn [app kruskal kruskal_uf].
  - reflexivity.
  - destruct (node_eqb (uf u) (uf v)); [apply IH|].
    rewrite IH. reflexivity.
Qed.

(** The sets of the union-find structure are the classes of the nodes that
    the yielded edges link. *)
Lemma kruskal_uf_classes (es : list (node * node * attrs)) :
  forall (uf : union_find) (R : node -> node -> Prop),
  (forall x y, uf x = uf y <-> R x y) ->
  forall x y, kruskal_uf uf es x = kruskal_uf uf es y <-> joined R (kruskal uf es) x y.
Proof.
  induction es as [|[[u v] d] rest IH]; intros uf R Huf x y.
  - cbn [kruskal kruskal_uf]. rewrite Huf. split.
    + intro H. apply rst_step. left. exact H.
    + intro H. apply Huf.
      induction H as [a b [H|[d []]]| |a b _ IH|a b c _ IH1 _ IH2].
      * apply Huf. exact H.
      * reflexivity.
      * symmetry. exact IH.
      * congruence.
  - cbn [kruskal kruskal_uf].
    destruct (node_eqb (uf u) (uf v)) eqn:E; [apply IH; exact Huf|].
    rewrite (IH (uf_union uf u v) (joined R [(u, v, d)])).
    + split; intro H.
      * eapply joined_mono; [| |exact H].
        -- intros a b Hab. eapply joined_mono; [| |exact Hab].
           ++ intros p q Hpq. apply rst_step. left. exact Hpq.
           ++ intros t [<-|[]]. left. reflexivity.
        -- intros t Ht. right. exact Ht.
      * unfold joined in *.
        induction H as [a b [H|[d' [H|H]]]| |a b _ IH'|a b c _ IH1 _ IH2].
        -- apply rst_step. left. apply rst_step. left. exact H.
        -- injection H as E1 E2 E3. subst. apply rst_step. left.
           apply rst_step. right. eexists. left. reflexivity.
        -- apply rst_step. right. exists d'. exact H.
        -- apply rst_refl.
        -- apply rst_sym. exact IH'.
        -- apply rst_trans with b; assumption.
    + intros a b. unfold uf_union. split.
      * intro H.
        assert (forall p q, uf p = uf q -> joined R [(u, v, d)] p q) as HR.
        { intros p q Hpq. apply rst_step. left. apply Huf. exact Hpq. }
        assert (joined R [(u, v, d)] u v) as Huv.
        { apply rst_step. right. exists d. left. reflexivity. }
        unfold joined in *.
        destruct (node_eqb (uf a) (uf u)) eqn:Ea;
          destruct (node_eqb (uf b) (uf u)) eqn:Eb.
        -- apply HR. apply node_eqb_eq in Ea, Eb. congruence.
        -- apply node_eqb_eq in Ea.
           apply rst_trans with u; [apply HR; exact Ea|].
           apply rst_trans with v; [exact Huv | apply HR; exact H].
        -- apply node_eqb_eq in Eb.
           apply rst_trans with v; [apply HR; exact H|].
           apply rst_trans with u; [apply rst_sym; exact Huv|].
           apply HR. symmetry. exact Eb.
        -- apply HR. exact H.
      * intro H. unfold joined in H.
        induction H as [p q [H|[d' [H|[]]]]| |p q _ IH'|p q r _ IH1 _ IH2].
        -- apply Huf in H. rewrite H. reflexivity.
        -- injection H as E1 E2 E3. subst. rewrite node_eqb_refl.
           match goal with
           | |- context [node_eqb ?a ?b] => destruct (node_eqb a b)
           end; reflexivity.
        -- reflexivity.
        -- symmetry. exact IH'.
        -- congruence.
Qed.

(** Kruskal's loop yields an edge exactly when the edges yielded before it
    do not link its ends.  The edges are walked in ascending order of
    [-similarity], so an edge that is left out closes a cycle with edges
    that are at least as similar: the edges yielded form a spanning forest
    of least weight. *)
Theorem kruskal_greedy (pre post : list (node * node * attrs))
  (u v : node) (d : attrs) :
  (linked (kruskal uf_init pre) u v ->
   kruskal uf_init (pre ++ (u, v, d) :: post)
   = kruskal uf_init pre ++ kruskal (kruskal_uf uf_init pre) post) /\
  (~ linked (kruskal uf_init pre) u v ->
   kruskal uf_init (pre ++ (u, v, d) :: post)
   = kruskal uf_init pre ++
     (u, v, d) :: kruskal (uf_union (kruskal_uf uf_init pre) u v) post).
Proof.
  rewrite kruskal_app. cbn [kruskal].
  pose proof (@kruskal_uf_classes pre uf_init eq (fun x y => iff_refl _) u v) as H.
  rewrite joined_eq_linked in H.
  destruct (node_eqb (kruskal_uf uf_init pre u) (kruskal_uf uf_init pre v)) eqn:E.
  - split; [reflexivity|]. intro Hn. exfalso. apply Hn, H.
    apply node_eqb_eq. exact E.
  - split; [|reflexivity]. intro Hl. apply H in Hl.
    apply node_eqb_eq in Hl. congruence.
Qed.

(** The order in which [minimum_spanning_edges] walks over the edges: from
    the most similar to the least similar. *)

(** ** The Connector below a cut-off of 1 *)

Lemma search_step_ordered (max_csize : Z) (n : nat) (st : search_state) :
  search_ordered st ->
  match search_step max_csize n st with
  | Continue st' => search_ordered st'
  | Break st' => search_ordered st'
  end.
Proof.
  unfold search_step, search_ordered. intros [H1 [H2 H3]].
  destruct (max_csize <? Z.of_nat n)%Z.
  - pose proof (Qred_correct ((1 # 2) * (high st + mid st))) as Ht.
    set (t := Qred ((1 # 2) * (high st + mid st))) in *. clearbody t.
    cbn [high mid low]. repeat split; lra.
  - destruct (int_trunc (inject_Z max_csize * (95 # 100)) >? Z.of_nat n)%Z.
    + pose proof (Qred_correct ((1 # 2) * (mid st + low st))) as Ht.
      set (t := Qred ((1 # 2) * (mid st + low st))) in *. clearbody t.
      cbn [high mid low]. repeat split; lra.
    + cbn [high mid low]. auto.
Qed.

Lemma search_loop_ordered (kb : kbase) (basic_graph : graph)
  (mcs_ids : list string) (max_csize : Z) (fuel : nat) :
  forall s r,
  search_loop fuel kb basic_graph mcs_ids max_csize s = Some (Ok r) ->
  search_ordered (s_state s) -> search_ordered (s_state r).
Proof.
  induction fuel as [|fuel IH]; intros s r H Hs; cbn [search_loop] in H.
  - destruct (search_goes_on (s_state s)); [discriminate|].
    injection H as <-. exact Hs.
  - destruct (search_goes_on (s_state s)); [|injection H as <-; exact Hs].
    pose proof (search_step_ordered max_csize (List.length (s_largest s)) Hs) as Ho.
    destruct (search_step max_csize (List.length (s_largest s)) (s_state s))
      as [st'|st'].
    + destruct (create kb basic_graph mcs_ids (Cutoff (trial st'))) as [d|];
        [|discriminate].
      destruct (index_neg (sorted_clusters d) (-1)) as [l|]; [|discriminate].
      apply IH in H; [exact H | exact Ho].
    + injection H as <-. exact Ho.
Qed.

Lemma build_graphs_consistent (kb : kbase) (mcs_ids : list string)
  (basic_rule : Rule) (simi_cutoff : Q) (b : built) :
  build_graphs kb mcs_ids basic_rule simi_cutoff = Ok b ->
  wf_graph (b_basic b) /\
  (forall u v, has_edge (b_basic b) u v = false) /\
  (forall c id, In id mcs_ids -> rule_answers (b_kb b) (Cutoff c) id) /\
  create (b_kb b) (b_basic b) mcs_ids (Cutoff 1) = Ok (b_complete b) /\
  create (b_kb b) (b_basic b) mcs_ids (Cutoff simi_cutoff) = Ok (b_desired b) /\
  b_clusters b = sorted_clusters (b_desired b) /\
  index_neg (b_clusters b) (-1) = Ok (b_largest b).
Proof.
  unfold build_graphs. intro H.
  destruct (deposit_all kb basic_rule mcs_ids [] []) as [[[kb' all_ids] out]|] eqn:Ed;
    [|discriminate].
  cbn [bind] in H.
  destruct (deposit_all_spec _ _ _ _ _ Ed) as [H1 [_ H3]].
  destruct (create kb' (add_nodes_from empty_graph all_ids) mcs_ids (Cutoff 1))
    as [gc|] eqn:Ec; [|discriminate].
  cbn [bind] in H.
  destruct (create kb' (add_nodes_from empty_graph all_ids) mcs_ids
              (Cutoff simi_cutoff)) as [gd|] eqn:Eg; [|discriminate].
  cbn [bind] in H.
  destruct (index_neg (sorted_clusters gd) (-1)) as [l|] eqn:El; [|discriminate].
  cbn [bind] in H. injection H as <-.
  cbn [b_basic b_kb b_complete b_desired b_clusters b_largest].
  split; [apply basic_graph_wf|]. split; [reflexivity|].
  split; [|auto].
  intros c id Hid. destruct (H3 id Hid) as [Hp Hs].
  apply Cutoff_answers; [rewrite H1; exact Hp | exact Hs].
Qed.

Lemma list_remove_disjoint (this : list node) (clusters : list (list node)) :
  forall others,
  list_remove this clusters = Ok others ->
  NoDup (List.concat clusters) ->
  this <> [] ->
  forall other, In other others -> forall x, In x this -> ~ In x other.
Proof.
  induction clusters as [|c rest IH]; intros others H Hnd Hne other Ho x Hx;
    cbn [list_remove] in H; [discriminate|].
  cbn [List.concat] in Hnd.
  destruct (list_eq_dec string_dec this c) as [->|Hc].
  - injection H as <-. intro Hxo.
    revert Hnd. clear - Hx Ho Hxo.
    induction c as [|y c IHc]; [destruct Hx|].
    cbn. intro Hnd. apply NoDup_cons_iff in Hnd. destruct Hnd as [Hy Hnd].
    destruct Hx as [<-|Hx].
    + apply Hy. apply in_app_iff. right. apply in_concat. exists other. auto.
    + apply IHc; assumption.
  - destruct (list_remove this rest) as [r|] eqn:Er; [|discriminate].
    cbn [bind] in H. injection H as <-.
    destruct Ho as [<-|Ho].
    + (* [this] occurs in [rest], the cluster [c] lies before it *)
      intro Hxc.
      assert (exists l, In l rest /\ In x l) as [l [Hl Hxl]].
      { clear - Er Hx. revert r Er.
        induction rest as [|c' rest IHr]; intros r Er; cbn [list_remove] in Er;
          [discriminate|].
        destruct (list_eq_dec string_dec this c') as [->|Hc'].
        - exists c'. split; [left; reflexivity | exact Hx].
        - destruct (list_remove this rest) as [r'|]; [|discriminate].
          destruct (IHr r' eq_refl) as [l [Hl Hxl]].
          exists l. split; [right; exact Hl | exact Hxl]. }
      revert Hnd. clear - Hxc Hl Hxl.
      induction c as [|y c IHc]; [destruct Hxc|].
      cbn. intro Hnd. apply NoDup_cons_iff in Hnd. destruct Hnd as [Hy Hnd].
      destruct Hxc as [<-|Hxc].
      * apply Hy. apply in_app_iff. right. apply in_concat. exists l. auto.
      * apply IHc; assumption.
    + eapply IH; eauto. apply NoDup_app_remove_l in Hnd. exact Hnd.
Qed.

Lemma filter_none {A : Type} (p : A -> bool) (l : list A) :
  (forall x, In x l -> p x = false) -> filter p l = [].
Proof.
  induction l as [|a l IH]; intro H; [reflexivity|].
  cbn [filter]. rewrite (H a (or_introl eq_refl)).
  apply IH. intros x Hx. apply H. right. exact Hx.
Qed.

(** When every edge of [complete] is an edge of the graph whose components
    the clusters are, no edge of [complete] leaves a cluster. *)
Lemma boundary_edges_none (complete desired : graph) (i : nat) (this : list node) :
  wf_graph desired ->
  (forall u v, has_edge complete u v = true -> has_edge desired u v = true) ->
  nth_error (sorted_clusters desired) i = Some this ->
  boundary_edges complete (sorted_clusters desired) this = Ok [].
Proof.
  intros Hwf Hsub Hi.
  destruct (sorted_clusters_components Hwf) as [Hcover [Hnd Hcomp]].
  assert (In this (sorted_clusters desired)) as Hin by (eapply nth_error_In; eauto).
  assert (this <> []) as Hne.
  { intro E. subst this.
    (* an empty cluster would be the empty component of a node *)
    unfold sorted_clusters in Hin. rewrite sorted_In in Hin.
    unfold connected_components in Hin.
    assert (forall vs seen, ~ In [] (cc_loop desired vs seen)) as Hno.
    { induction vs as [|v vs IHv]; intros seen; cbn [cc_loop]; [intros []|].
      destruct (mem v seen); [apply IHv|].
      intros [Hc|Hc]; [|exact (IHv _ Hc)].
      assert (In v (component desired v)) as Hv.
      { unfold component. apply iterate_expand_incl. left. reflexivity. }
      rewrite Hc in Hv. destruct Hv. }
    exact (Hno _ _ Hin). }
  unfold boundary_edges.
  destruct (list_remove this (sorted_clusters desired)) as [others|] eqn:Er.
  - cbn [bind]. f_equal.
    assert (forall others', (forall o, In o others' -> In o others) ->
              flat_map (fun e => edge_boundary complete this e) others' = []) as Hall.
    { induction others' as [|o others' IHo]; intro Hsubl; [reflexivity|].
      cbn [flat_map]. rewrite IHo by (intros o' Ho'; apply Hsubl; right; exact Ho').
      rewrite app_nil_r. unfold edge_boundary.
      assert (forall ns, (forall n, In n ns -> In n this) ->
                flat_map (fun n1 =>
                  if mem n1 (nodes complete)
                  then map (fun t => (n1, snd (fst t)))
                           (filter (fun t => mem (snd (fst t)) o) (incident complete n1))
                  else []) ns = []) as Hns.
      { induction ns as [|n ns IHn]; intro Hsubn; [reflexivity|].
        cbn [flat_map]. rewrite IHn by (intros n' Hn'; apply Hsubn; right; exact Hn').
        rewrite app_nil_r. destruct (mem n (nodes complete)); [|reflexivity].
        assert (filter (fun t => mem (snd (fst t)) o) (incident complete n) = [])
          as ->; [|reflexivity].
        apply filter_none. intros t Ht.
        apply mem_false. intro Hto.
        assert (has_edge complete n (snd (fst t)) = true) as He.
        { apply neighbors_In. unfold neighbors. apply in_map_iff.
          exists t. split; [reflexivity | exact Ht]. }
        apply Hsub in He.
        assert (In n this) as Hn by (apply Hsubn; left; reflexivity).
        assert (In (snd (fst t)) this) as Hth.
        { apply (Hcomp this n _ Hin Hn). apply rt_step. exact He. }
        exact (@list_remove_disjoint this (sorted_clusters desired) others
                 Er Hnd Hne o (Hsubl o (or_introl eq_refl)) (snd (fst t)) Hth Hto). }
      apply Hns. auto. }
    apply Hall. auto.
  - exfalso. clear - Hin Er.
    induction (sorted_clusters desired) as [|c rest IH]; [destruct Hin|].
    cbn [list_remove] in Er.
    destruct (list_eq_dec string_dec this c); [discriminate|].
    destruct (list_remove this rest); [discriminate|].
    apply IH; auto. destruct Hin as [E|Hin]; [congruence | exact Hin].
Qed.

Lemma connect_loop_idle (complete desired0 : graph) (num_c2c : Z) (fuel : nat) :
  wf_graph desired0 ->
  (forall u v, has_edge complete u v = true -> has_edge desired0 u v = true) ->
  forall unconnected desired out,
  (forall i, In i unconnected -> (i < List.length (sorted_clusters desired0))%nat) ->
  (List.length unconnected <= fuel)%nat ->
  connect_loop fuel complete (sorted_clusters desired0) num_c2c desired
    unconnected out
  = Some (Ok (desired, out ++ map WarnCannotConnect unconnected)).
Proof.
  intros Hwf Hsub.
  induction fuel as [|fuel IH]; intros unconnected desired out Hi Hle.
  - destruct unconnected; [|cbn in Hle; lia].
    cbn. rewrite app_nil_r. reflexivity.
  - destruct unconnected as [|i rest].
    + cbn. rewrite app_nil_r. reflexivity.
    + cbn [connect_loop]. unfold connect_step, cluster_at.
      destruct (nth_error (sorted_clusters desired0) i) as [this|] eqn:Ei.
      * cbn [bind]. rewrite (boundary_edges_none complete i Hwf Hsub Ei).
        cbn [bind List.length Nat.eqb].
        rewrite IH.
        -- cbn [map]. rewrite <- app_assoc. reflexivity.
        -- intros j Hj. apply Hi. right. exact Hj.
        -- cbn [List.length] in Hle. lia.
      * exfalso. apply nth_error_None in Ei.
        specialize (Hi i (or_introl eq_refl)). lia.
Qed.

Lemma threshold_search_ordered (fuel : nat) (kb : kbase) (basic_graph : graph)
  (mcs_ids : list string) (simi_cutoff : Q) (max_csize : Z)
  (desired : graph) (clusters : list (list node)) (largest : list node)
  (out : list event) (s : searched) :
  (simi_cutoff <= 1)%Q ->
  threshold_search fuel kb basic_graph mcs_ids simi_cutoff max_csize
    desired clusters largest out = Some (Ok s) ->
  (mid (s_state s) <= 1)%Q.
Proof.
  intros Hc H.
  assert (search_ordered (search_init simi_cutoff)) as Hinit.
  { unfold search_ordered, search_init. cbn. repeat split; lra. }
  assert (search_ordered (s_state s)) as [_ [H2 H3]].
  { unfold threshold_search in H.
    destruct (max_csize <? Z.of_nat (List.length largest))%Z.
    - apply search_loop_ordered in H; [exact H | exact Hinit].
    - injection H as <-. exact Hinit. }
  lra.
Qed.

(** With a cut-off of at most 1 the Connector of the source finds no
    boundary edge: [complete], built with [rule.Cutoff( 1 )], lies inside the
    desired graph whose components the clusters are.  The graph that the
    search has left is trimmed and handed back as it is, and a warning is
    written for every cluster. *)
Lemma connector_idle_run (fuel : nat) (kb : kbase)
  (mcs_ids : list string) (basic_rule : Rule) (simi_cutoff : Q)
  (max_csize num_c2c : Z) (r : generated) :
  (simi_cutoff <= 1)%Q ->
  gen_graph fuel kb mcs_ids basic_rule simi_cutoff max_csize num_c2c = Some (Ok r) ->
  exists b s,
    build_graphs kb mcs_ids basic_rule simi_cutoff = Ok b /\
    threshold_search fuel (b_kb b) (b_basic b) mcs_ids simi_cutoff max_csize
      (b_desired b) (b_clusters b) (b_largest b) (b_out b) = Some (Ok s) /\
    g_clusters r = s_clusters s /\
    g_desired r = trim_clusters (s_desired s) (s_clusters s) /\
    g_out r = s_out s ++ info_sizes (s_clusters s)
              ++ map WarnCannotConnect (seq 0 (List.length (s_clusters s))).
Proof.
  intros Hc H.
  destruct (gen_graph_stages _ _ _ _ _ _ _ H) as [b [s [Hb [Hs [Hcl Hconn]]]]].
  exists b, s. split; [exact Hb|]. split; [exact Hs|]. split; [exact Hcl|].
  destruct (build_graphs_consistent _ _ _ _ Hb)
    as [Hwf [Hno [Hans [Hcomp [Hdes [Hclu Hlar]]]]]].
  rewrite Hclu in Hs, Hlar.
  destruct (@threshold_search_consistent fuel (b_kb b) (b_basic b) mcs_ids
              simi_cutoff max_csize (b_desired b) (b_largest b) (b_out b) s
              Hdes Hlar Hs) as [Hd' [Hc' _]].
  pose proof (@threshold_search_ordered fuel (b_kb b) (b_basic b) mcs_ids
                simi_cutoff max_csize (b_desired b)
                (sorted_clusters (b_desired b)) (b_largest b) (b_out b) s
                Hc Hs) as Hmid.
  assert (wf_graph (s_desired s)) as Hwfs.
  { eapply create_wf; [exact Hwf | exact Hd']. }
  assert (forall u v, has_edge (b_complete b) u v = true ->
                      has_edge (s_desired s) u v = true) as Hsub.
  { intros u v Hu.
    destruct (@create_from_ok (b_kb b) (Cutoff 1) mcs_ids (b_basic b) (Hans 1))
      as [gc [Ec Hgc]].
    destruct (@create_from_ok (b_kb b) (Cutoff (mid (s_state s))) mcs_ids
                (b_basic b) (Hans (mid (s_state s)))) as [gd [Ed Hgd]].
    unfold create in Hcomp, Hd'. rewrite Ec in Hcomp. rewrite Ed in Hd'.
    injection Hcomp as Egc. injection Hd' as Egd.
    rewrite <- Egd. rewrite <- Egc in Hu.
    apply Hgd. apply Hgc in Hu.
    destruct Hu as [Hu|[id [Hid Hy]]]; [rewrite Hno in Hu; discriminate|].
    right. exists id. split; [exact Hid|].
    apply Cutoff_yields. apply Cutoff_yields in Hy.
    destruct Hy as [id0 [id1 [sim [Hp [Hk [Hpos [H1s Hsp]]]]]]].
    exists id0, id1, sim. repeat split; auto.
    apply Qle_trans with 1%Q; assumption. }
  rewrite Hc' in Hconn.
  destruct (Nat.le_gt_cases (List.length (sorted_clusters (s_desired s))) fuel)
    as [Hf|Hf].
  - rewrite (@connect_loop_idle (b_complete b) (s_desired s) num_c2c fuel Hwfs Hsub)
      in Hconn.
    + injection Hconn as <- <-. rewrite Hc'. rewrite <- app_assoc. auto.
    + intros i Hi. apply in_seq in Hi. lia.
    + rewrite length_seq. exact Hf.
  - (* too little fuel for the Connector: the run has not ended *)
    exfalso.
    assert (forall f unconnected desired out,
              (forall i, In i unconnected ->
                         (i < List.length (sorted_clusters (s_desired s)))%nat) ->
              (f < List.length unconnected)%nat ->
              connect_loop f (b_complete b) (sorted_clusters (s_desired s)) num_c2c
                desired unconnected out = None) as Hnone.
    { induction f as [|f IHf]; intros unconnected desired out Hi Hlt.
      - destruct unconnected; [cbn in Hlt; lia | reflexivity].
      - destruct unconnected as [|i rest]; [cbn in Hlt; lia|].
        cbn [connect_loop]. unfold connect_step, cluster_at.
        destruct (nth_error (sorted_clusters (s_desired s)) i) as [this|] eqn:Ei.
        + cbn [bind]. rewrite (boundary_edges_none (b_complete b) i Hwfs Hsub Ei).
          cbn [bind List.length Nat.eqb]. apply IHf.
          * intros j Hj. apply Hi. right. exact Hj.
          * cbn [List.length] in Hlt. lia.
        + exfalso. apply nth_error_None in Ei.
          specialize (Hi i (or_introl eq_refl)). lia. }
    rewrite Hnone in Hconn; [discriminate| |].
    + intros i Hi. apply in_seq in Hi. lia.
    + rewrite length_seq. exact Hf.
Qed.

(** * Further properties of [graph.py] *)

(** ** [sign] and [cmp_edge] *)

Lemma sign_values (x : Q) :
  (sign x = 1%Z /\ (0 < x)%Q) \/ (sign x = 0%Z /\ (x == 0)%Q) \/
  (sign x = (-1)%Z /\ (x < 0)%Q).
Proof.
  unfold sign. destruct (Qgt_bool x 0) eqn:E1.
  - left. split; [reflexivity | apply Qgt_bool_iff; exact E1].
  - destruct (Qlt_bool x 0) eqn:E2.
    + right. right. split; [reflexivity | apply Qlt_bool_iff; exact E2].
    + right. left. split; [reflexivity|].
      destruct (Qlt_le_dec 0 x) as [H|H].
      * apply Qgt_bool_iff in H. congruence.
      * destruct (Qlt_le_dec x 0) as [H'|H'].
        -- apply Qlt_bool_iff in H'. congruence.
        -- apply Qle_antisym; assumption.
Qed.

(** X1: on edges of [g] (for any other pair the look-up of the source raises
    [KeyError]) [cmp_edge] is a comparison that [sorted] can rely on.  It is
    1, 0 or -1 as the similarity of the first edge is greater than, equal to
    or less than that of the second; swapping the two edges negates it; and
    "not greater" is transitive. *)
Theorem cmp_edge_is_a_comparison (g : graph) (x y z : node * node)
  (ax ay az : attrs) :
  get_edge g (fst x) (snd x) = Some ax ->
  get_edge g (fst y) (snd y) = Some ay ->
  get_edge g (fst z) (snd z) = Some az ->
  (cmp_edge g x y = 1%Z <-> (similarity ay < similarity ax)%Q) /\
  (cmp_edge g x y = 0%Z <-> (similarity ax == similarity ay)%Q) /\
  (cmp_edge g x y = (-1)%Z <-> (similarity ax < similarity ay)%Q) /\
  cmp_edge g y x = (- cmp_edge g x y)%Z /\
  ((cmp_edge g x y <= 0)%Z -> (cmp_edge g y z <= 0)%Z -> (cmp_edge g x z <= 0)%Z).
Proof.
  intros Hx Hy Hz. unfold cmp_edge, cmp_simi, simi_of. rewrite Hx, Hy, Hz.
  set (a := similarity ax). set (b := similarity ay). set (c := similarity az).
  destruct (sign_values (a - b)) as [[E1 H1]|[[E1 H1]|[E1 H1]]];
    destruct (sign_values (b - a)) as [[E2 H2]|[[E2 H2]|[E2 H2]]];
    try (exfalso; lra);
    rewrite ?E1, ?E2.
  - split; [split; [intros _; lra | reflexivity]|].
    split; [split; [discriminate | intro H; exfalso; lra]|].
    split; [split; [discriminate | intro H; exfalso; lra]|].
    split; [reflexivity|]. intro H. lia.
  - split; [split; [discriminate | intro H; exfalso; lra]|].
    split; [split; [intros _; lra | reflexivity]|].
    split; [split; [discriminate | intro H; exfalso; lra]|].
    split; [reflexivity|]. intros _ H.
    destruct (sign_values (b - c)) as [[E3 H3]|[[E3 H3]|[E3 H3]]];
      rewrite E3 in H; [lia| |];
      destruct (sign_values (a - c)) as [[E4 H4]|[[E4 H4]|[E4 H4]]];
      rewrite E4; try lia; exfalso; lra.
  - split; [split; [discriminate | intro H; exfalso; lra]|].
    split; [split; [discriminate | intro H; exfalso; lra]|].
    split; [split; [intros _; lra | reflexivity]|].
    split; [reflexivity|]. intros _ H.
    destruct (sign_values (b - c)) as [[E3 H3]|[[E3 H3]|[E3 H3]]];
      rewrite E3 in H; [lia| |];
      destruct (sign_values (a - c)) as [[E4 H4]|[[E4 H4]|[E4 H4]]];
      rewrite E4; try lia; exfalso; lra.
Qed.

Lemma cmp_edge_is_a_comparison_witness :
  (cmp_edge TrimExample.g ("A"%string, "B"%string) ("A"%string, "C"%string) = 1%Z
   <-> (8 # 10 < 9 # 10)%Q) /\
  (cmp_edge TrimExample.g ("A"%string, "B"%string) ("A"%string, "C"%string) = 0%Z
   <-> (9 # 10 == 8 # 10)%Q) /\
  (cmp_edge TrimExample.g ("A"%string, "B"%string) ("A"%string, "C"%string) = (-1)%Z
   <-> (9 # 10 < 8 # 10)%Q) /\
  cmp_edge TrimExample.g ("A"%string, "C"%string) ("A"%string, "B"%string)
  = (- cmp_edge TrimExample.g ("A"%string, "B"%string) ("A"%string, "C"%string))%Z /\
  ((cmp_edge TrimExample.g ("A"%string, "B"%string) ("A"%string, "C"%string) <= 0)%Z ->
   (cmp_edge TrimExample.g ("A"%string, "C"%string) ("B"%string, "C"%string) <= 0)%Z ->
   (cmp_edge TrimExample.g ("A"%string, "B"%string) ("B"%string, "C"%string) <= 0)%Z).
Proof.
  apply (@cmp_edge_is_a_comparison TrimExample.g
           ("A"%string, "B"%string) ("A"%string, "C"%string)
           ("B"%string, "C"%string)
           (Examples.attrs_of (9 # 10) "AB"%string)
           (Examples.attrs_of (8 # 10) "AC"%string)
           (Examples.attrs_of (7 # 10) "BC"%string)); reflexivity.
Defined.

(** ** What [trim_cluster] leaves alone *)

Lemma remove_nothing (g : graph) : remove_edges_from g [] = g.
Proof.
  destruct g as [ns es]. unfold remove_edges_from. cbn [nodes edges]. f_equal.
  induction es as [|e es IH]; [reflexivity|].
  cbn [filter]. unfold in_pairs at 1 2. cbn [existsb orb negb].
  f_equal. exact IH.
Qed.

Lemma filter_all {A : Type} (p : A -> bool) (l : list A) :
  (forall x, In x l -> p x = true) -> filter p l = l.
Proof.
  induction l as [|a l IH]; intro H; [reflexivity|].
  cbn [filter]. rewrite (H a (or_introl eq_refl)). f_equal.
  apply IH. intros x Hx. apply H. right. exact Hx.
Qed.

Lemma del_edges_touch_cluster (g : graph) (cluster : list node) (num_edges : Z)
  (u v : node) :
  In (u, v) (del_edges g cluster num_edges) ->
  In u cluster /\ In (u, v) (map pair_of (edges_of g cluster)).
Proof.
  intro H. apply del_edges_In in H. destruct H as [H _].
  split; [|exact H].
  apply map_pair_of_In in H. destruct H as [a H].
  apply edges_iter_edge in H. destruct H as [H _]. exact H.
Qed.

(** X2: [trim_cluster] only removes edges, and only edges that touch the
    cluster: the nodes stay, every edge of the result is an edge of the graph
    with its attributes, and an edge with no end in the cluster stays. *)
Theorem trim_cluster_only_removes_cluster_edges
  (g : graph) (cluster : list node) (num_edges : Z) :
  nodes (trim_cluster g cluster num_edges) = nodes g /\
  (forall e, In e (edges (trim_cluster g cluster num_edges)) -> In e (edges g)) /\
  (forall e, In e (edges g) -> ~ In (eu e) cluster -> ~ In (ev e) cluster ->
             In e (edges (trim_cluster g cluster num_edges))).
Proof.
  split; [reflexivity|]. split.
  - intros e He. apply trim_cluster_edges in He. destruct He as [He _]. exact He.
  - intros e He Hu Hv. apply trim_cluster_edges. split; [exact He|].
    split; intro Hd; apply del_edges_touch_cluster in Hd; destruct Hd as [Hd _];
      contradiction.
Qed.

Lemma del_edges_none (g : graph) (cluster : list node) (num_edges : Z) :
  (forall u v, In (u, v) (map pair_of (edges_of g cluster)) ->
               kept g cluster num_edges u v) ->
  trim_cluster g cluster num_edges = g.
Proof.
  intro H. unfold trim_cluster.
  assert (del_edges g cluster num_edges = []) as ->; [|apply remove_nothing].
  destruct (del_edges g cluster num_edges) as [|[u v] l] eqn:E; [reflexivity|].
  exfalso.
  assert (In (u, v) (del_edges g cluster num_edges)) as Hin
      by (rewrite E; left; reflexivity).
  apply del_edges_In in Hin. destruct Hin as [H1 H2]. apply H2, H, H1.
Qed.

(** X3: with [num_edges = 0] the slice [r[-num_edges:]] is the whole list
    [r], so every edge of every node of the cluster is kept and
    [trim_cluster] returns the graph as it is: a cap of 0 removes nothing. *)
Theorem trim_cluster_cap_0_removes_nothing (g : graph) (cluster : list node) :
  trim_cluster g cluster 0 = g.
Proof.
  apply del_edges_none. intros u v H.
  apply map_pair_of_In in H. destruct H as [a H].
  apply edges_iter_sound in H. cbn [fst] in H. destruct H as [Hu Hin].
  left. exists u, a. split; [exact Hu|].
  unfold top_edges, slice_last. cbn [Z.eqb].
  apply sorted_In. exact Hin.
Qed.

(** X4: a cluster whose nodes have no edge (a singleton cluster of an
    isolated node, for one) is left as it is, whatever the cap. *)
Theorem trim_cluster_without_edges_is_identity
  (g : graph) (cluster : list node) (num_edges : Z) :
  (forall n, In n cluster -> incident g n = []) ->
  trim_cluster g cluster num_edges = g.
Proof.
  intro Hiso. apply del_edges_none. intros u v H. exfalso.
  apply map_pair_of_In in H. destruct H as [a H].
  apply edges_iter_sound in H. cbn [fst] in H. destruct H as [Hu Hin].
  rewrite (Hiso u Hu) in Hin. destruct Hin.
Qed.

Lemma trim_cluster_without_edges_is_identity_witness :
  trim_cluster {| nodes := ["A"; "B"; "C"]%string;
                  edges := [mkEdge "A"%string "B"%string
                              (Examples.attrs_of 1 "AB"%string)] |}
               ["C"%string] 2
  = {| nodes := ["A"; "B"; "C"]%string;
       edges := [mkEdge "A"%string "B"%string (Examples.attrs_of 1 "AB"%string)] |}.
Proof.
  apply trim_cluster_without_edges_is_identity.
  intros n [<-|[]]. reflexivity.
Defined.

Lemma last_in_skipn {A : Type} (d : A) (l : list A) :
  forall a, (a < List.length l)%nat -> In (last l d) (skipn a l).
Proof.
  induction l as [|x l IH]; intros a Ha; [cbn in Ha; lia|].
  destruct a as [|a].
  - cbn [skipn]. destruct l as [|y l]; [left; reflexivity|].
    right. specialize (IH 0%nat). cbn [skipn] in IH. apply IH. cbn. lia.
  - cbn [skipn]. destruct l as [|y l]; [cbn in Ha; lia|].
    change (last (x :: y :: l) d) with (last (y :: l) d).
    apply IH. cbn in *. lia.
Qed.

Lemma StronglySorted_last {A : Type} (le : A -> A -> Prop) (d : A) (l : list A) :
  (forall x, le x x) ->
  StronglySorted le l -> forall x, In x l -> le x (last l d).
Proof.
  intros Hrefl H. induction H as [|a l Hs IH Hf]; intros x Hx; [destruct Hx|].
  destruct l as [|y l].
  - destruct Hx as [<-|[]]. apply Hrefl.
  - change (last (a :: y :: l) d) with (last (y :: l) d).
    destruct Hx as [<-|Hx].
    + rewrite Forall_forall in Hf. apply Hf.
      clear. generalize y. induction l as [|z l IHl]; intro y0.
      * left. reflexivity.
      * right. apply IHl.
    + apply IH. exact Hx.
Qed.

Lemma sorted_by_similarity (g : graph) (l : list (node * node * attrs)) :
  StronglySorted (fun x y => (simi_at g x <= simi_at g y)%Q)
    (sorted (fun x y => cmp_edge g (pair_of x) (pair_of y)) l).
Proof.
  apply sorted_sorted.
  - intros x y z. apply Qle_trans.
  - intros x y H. unfold cmp_edge, cmp_simi in H. apply sign_neg in H.
    unfold simi_at. lra.
  - intros x y H. unfold cmp_edge, cmp_simi in H. unfold simi_at.
    destruct (Qlt_le_dec (simi_of g (fst (pair_of y)) (snd (pair_of y)))
                         (simi_of g (fst (pair_of x)) (snd (pair_of x))))
      as [Hlt|Hle]; [|exact Hle].
    assert ((sign (simi_of g (fst (pair_of y)) (snd (pair_of y)) -
                   simi_of g (fst (pair_of x)) (snd (pair_of x))) <? 0)%Z = true)
      as C by (apply sign_neg; lra).
    congruence.
Qed.

(** X5: trimming with a positive cap never strips a node of all its edges: a
    node of the cluster that has an edge keeps an edge of highest
    similarity among its edges. *)
Theorem trim_cluster_keeps_best_edge
  (g : graph) (cluster : list node) (num_edges : Z) (n : node) :
  wf_graph g -> (0 < num_edges)%Z -> In n cluster -> incident g n <> [] ->
  exists t,
    In t (incident g n) /\
    (forall t', In t' (incident g n) -> (simi_at g t' <= simi_at g t)%Q) /\
    has_edge (trim_cluster g cluster num_edges) n (snd (fst t)) = true.
Proof.
  intros Hwf Hpos Hn Hne.
  set (cmp := fun x y : node * node * attrs => cmp_edge g (pair_of x) (pair_of y)).
  set (r := sorted cmp (incident g n)).
  assert (List.length r = List.length (incident g n)) as Hlen
      by apply sorted_length.
  assert (0 < List.length r)%nat as Hr.
  { rewrite Hlen. destruct (incident g n); [congruence | cbn; lia]. }
  destruct r as [|t0 r'] eqn:Er; [cbn in Hr; lia|].
  set (t := last (t0 :: r') t0).
  assert (In t (t0 :: r')) as Htr.
  { apply (@last_in_skipn _ t0 (t0 :: r') 0%nat). exact Hr. }
  assert (In t (incident g n)) as Hti.
  { apply (sorted_In cmp). fold r. rewrite Er. exact Htr. }
  exists t. split; [exact Hti|]. split.
  - intros t' Ht'.
    apply (@StronglySorted_last _ (fun x y => (simi_at g x <= simi_at g y)%Q)
             t0 (t0 :: r')).
    + intro x. apply Qle_refl.
    + rewrite <- Er. apply sorted_by_similarity.
    + rewrite <- Er. apply (sorted_In cmp). exact Ht'.
  - apply trim_cluster_has_edge; [exact Hwf|]. split.
    + apply neighbors_In. unfold neighbors. apply in_map_iff.
      exists t. split; [reflexivity | exact Hti].
    + intros _. left. exists n, (snd t). split; [exact Hn|].
      assert (fst (fst t) = n) as Hfst.
      { apply incident_In in Hti. destruct Hti as [e [_ [_ [H _]]]]. exact H. }
      assert ((n, snd (fst t), snd t) = t) as ->.
      { destruct t as [[a b] d]. cbn in *. congruence. }
      unfold top_edges, slice_last.
      destruct (num_edges =? 0)%Z eqn:E0; [apply Z.eqb_eq in E0; lia|].
      destruct (0 <? num_edges)%Z eqn:E1; [|apply Z.ltb_ge in E1; lia].
      fold cmp. fold r. rewrite Er.
      apply last_in_skipn. cbn [List.length] in *. lia.
Qed.

Lemma trim_cluster_keeps_best_edge_witness :
  exists t,
    In t (incident TrimExample.g "B"%string) /\
    (forall t', In t' (incident TrimExample.g "B"%string) ->
                (simi_at TrimExample.g t' <= simi_at TrimExample.g t)%Q) /\
    has_edge (trim_cluster TrimExample.g TrimExample.cluster 1)
             "B"%string (snd (fst t)) = true.
Proof.
  apply (@trim_cluster_keeps_best_edge TrimExample.g TrimExample.cluster 1 "B"%string).
  - exact trim_example_wf.
  - reflexivity.
  - cbn. auto.
  - discriminate.
Defined.

(** X28: the cap of [trim_cluster] is no upper bound of the degree.  A node
    of the cluster that has at most [num_edges] edges keeps every one of
    them, so a hub keeps each edge that leads to such a node, however many
    of these there are. *)
Theorem trim_cluster_spares_nodes_of_low_degree
  (g : graph) (cluster : list node) (num_edges : Z) (n v : node) :
  wf_graph g -> (0 < num_edges)%Z -> In n cluster ->
  (Z.of_nat (List.length (incident g n)) <= num_edges)%Z ->
  has_edge g n v = true ->
  has_edge (trim_cluster g cluster num_edges) n v = true /\
  has_edge (trim_cluster g cluster num_edges) v n = true.
Proof.
  intros Hwf Hpos Hn Hdeg He.
  assert (has_edge (trim_cluster g cluster num_edges) n v = true) as Hkeep.
  { apply trim_cluster_has_edge; [exact Hwf|]. split; [exact He|].
    intros _. left.
    apply neighbors_In in He. unfold neighbors in He. apply in_map_iff in He.
    destruct He as [t [Hv Ht]].
    assert (fst (fst t) = n) as Hfst.
    { apply incident_In in Ht. destruct Ht as [e [_ [_ [H _]]]]. exact H. }
    exists n, (snd t). split; [exact Hn|].
    assert ((n, v, snd t) = t) as ->.
    { destruct t as [[a b] d]. cbn in *. congruence. }
    unfold top_edges, slice_last.
    destruct (num_edges =? 0)%Z eqn:E0; [apply Z.eqb_eq in E0; lia|].
    destruct (0 <? num_edges)%Z eqn:E1; [|apply Z.ltb_ge in E1; lia].
    rewrite sorted_length.
    replace (List.length (incident g n) - Z.to_nat num_edges)%nat with 0%nat by lia.
    cbn [skipn]. apply sorted_In. exact Ht. }
  split; [exact Hkeep|]. rewrite has_edge_sym. exact Hkeep.
Qed.

Lemma trim_cluster_spares_nodes_of_low_degree_witness :
  has_edge (trim_cluster TrimExample.g TrimExample.cluster 1)
           "D"%string "C"%string = true /\
  has_edge (trim_cluster TrimExample.g TrimExample.cluster 1)
           "C"%string "D"%string = true.
Proof.
  apply (@trim_cluster_spares_nodes_of_low_degree TrimExample.g
           TrimExample.cluster 1 "D"%string "C"%string).
  - exact trim_example_wf.
  - reflexivity.
  - cbn. auto.
  - vm_compute. discriminate.
  - reflexivity.
Defined.

(** ** The edges that [create] writes *)

Lemma set_edge_In (es : list edge) (u v : node) (a : attrs) (e : edge) :
  In e (set_edge es u v a) ->
  In e es \/
  (exists e0, In e0 es /\ edge_is u v e0 = true /\
              e = mkEdge (eu e0) (ev e0) (dict_update (ea e0) a)) \/
  e = mkEdge u v a.
Proof.
  induction es as [|e1 es IH]; cbn [set_edge].
  - intros [<-|[]]. right. right. reflexivity.
  - destruct (edge_is u v e1) eqn:E.
    + intros [<-|H].
      * right. left. exists e1. split; [left; reflexivity|]. auto.
      * left. right. exact H.
    + intros [<-|H].
      * left. left. reflexivity.
      * destruct (IH H) as [H1|[[e0 [H0 [H1 H2]]]|H1]].
        -- left. right. exact H1.
        -- right. left. exists e0. split; [right; exact H0|]. auto.
        -- right. right. exact H1.
Qed.

Lemma create_step_written (kb : kbase) (rule : Rule) (all : list string)
  (g g' : graph) (id : string) :
  In id all ->
  (forall e, In e (edges g) -> written_by kb rule all e) ->
  create_step kb rule g id = Ok g' ->
  forall e, In e (edges g') -> written_by kb rule all e.
Proof.
  unfold create_step, get_parent_ids. intros Hid Hg H e He.
  destruct (mcs_parents kb id) as [[id0 id1]|] eqn:Ep; [|discriminate].
  cbn [ask bind] in H.
  destruct (rule kb id0 id1 id) as [simi|] eqn:Er; [|discriminate].
  cbn [bind] in H.
  destruct (Qgt_bool simi 0) eqn:Es; injection H as <-; [|apply Hg; exact He].
  apply Qgt_bool_iff in Es.
  cbn [add_edge edges] in He. apply set_edge_In in He.
  destruct He as [He|[[e0 [H0 [H1 ->]]]| ->]].
  - apply Hg. exact He.
  - destruct (Hg e0 H0) as [i0 [a0 [b0 [s0 [_ [_ [_ [_ [_ Hea]]]]]]]]].
    exists id, id0, id1, simi. cbn [eu ev ea].
    repeat (split; [assumption|]).
    split.
    + apply edge_is_true in H1. unfold same_pair in *. intuition congruence.
    + rewrite Hea. reflexivity.
  - exists id, id0, id1, simi. cbn [eu ev ea].
    repeat (split; [assumption|]).
    split; [left; split; reflexivity | reflexivity].
Qed.

Lemma create_from_written (kb : kbase) (rule : Rule) (all rest : list string) :
  forall g g',
  incl rest all ->
  (forall e, In e (edges g) -> written_by kb rule all e) ->
  create_from kb rule g rest = Ok g' ->
  forall e, In e (edges g') -> written_by kb rule all e.
Proof.
  induction rest as [|id rest IH]; intros g g' Hincl Hg H.
  - injection H as <-. exact Hg.
  - cbn [create_from] in H.
    destruct (create_step kb rule g id) as [g1|] eqn:E; [|discriminate].
    cbn [bind] in H. eapply IH; [| |exact H].
    + intros i Hi. apply Hincl. right. exact Hi.
    + eapply create_step_written; [|exact Hg|exact E].
      apply Hincl. left. reflexivity.
Qed.

Lemma create_written (kb : kbase) (basic_graph g' : graph)
  (mcs_ids : list string) (rule : Rule) :
  edges basic_graph = [] ->
  create kb basic_graph mcs_ids rule = Ok g' ->
  forall e, In e (edges g') -> written_by kb rule mcs_ids e.
Proof.
  intros He H. unfold create in H.
  eapply create_from_written; [apply incl_refl| |exact H].
  rewrite He. intros e [].
Qed.

(** X6: in a graph that [create] builds from a graph without edges, every
    edge is as one identifier of the list wrote it: it joins the parents of
    the identifier, its [similarity] is the positive value of the rule for
    that identifier, its [mcs_id] is the identifier, its [partial_ring] is
    the stored flag or 0, and it has no [boundary] key. *)
Theorem create_edges_written_by_the_ids (kb : kbase) (basic_graph g' : graph)
  (mcs_ids : list string) (rule : Rule) :
  edges basic_graph = [] ->
  create kb basic_graph mcs_ids rule = Ok g' ->
  forall e, In e (edges g') -> written_by kb rule mcs_ids e.
Proof.
  intros Hno H. unfold create in H.
  eapply create_from_written; [apply incl_refl| |exact H].
  rewrite Hno. intros e [].
Qed.

Lemma create_edges_written_by_the_ids_witness :
  written_by Examples.kb_chain (Examples.rule_const (1 # 2)) ["AB"; "BC"]%string
             (mkEdge "B"%string "C"%string (Examples.attrs_of (1 # 2) "BC"%string)).
Proof.
  apply (@create_edges_written_by_the_ids Examples.kb_chain
           (add_nodes_from empty_graph ["A"; "B"; "C"]%string)
           {| nodes := ["A"; "B"; "C"]%string;
              edges := [mkEdge "A"%string "B"%string
                          (Examples.attrs_of (1 # 2) "AB"%string);
                        mkEdge "B"%string "C"%string
                          (Examples.attrs_of (1 # 2) "BC"%string)] |}
           ["AB"; "BC"]%string (Examples.rule_const (1 # 2))).
  - reflexivity.
  - reflexivity.
  - cbn. auto.
Defined.

(** ** No parallel edges *)

Lemma edge_is_swap (e e' : edge) :
  edge_is (eu e) (ev e) e' = edge_is (eu e') (ev e') e.
Proof.
  unfold edge_is.
  rewrite (node_eqb_sym (eu e') (eu e)), (node_eqb_sym (ev e') (ev e)),
          (node_eqb_sym (eu e') (ev e)), (node_eqb_sym (ev e') (eu e)).
  destruct (node_eqb (eu e) (eu e')), (node_eqb (ev e) (ev e')),
           (node_eqb (ev e) (eu e')), (node_eqb (eu e) (ev e')); reflexivity.
Qed.

Lemma set_edge_no_parallel (es : list edge) (u v : node) (a : attrs) :
  no_parallel es -> no_parallel (set_edge es u v a).
Proof.
  induction es as [|e es IH]; intro H; cbn [set_edge].
  - cbn. split; [intros e' []|exact I].
  - destruct H as [H1 H2]. destruct (edge_is u v e) eqn:E.
    + cbn [no_parallel eu ev]. split; assumption.
    + cbn [no_parallel]. split; [|apply IH; exact H2].
      intros e' He'. apply set_edge_In in He'.
      destruct He' as [He'|[[e0 [H0 [_ ->]]]| ->]].
      * apply H1. exact He'.
      * change (edge_is (eu e) (ev e)
                  {| eu := eu e0; ev := ev e0; ea := dict_update (ea e0) a |})
          with (edge_is (eu e) (ev e) e0).
        apply H1. exact H0.
      * rewrite edge_is_swap. cbn [eu ev]. exact E.
Qed.

Lemma filter_no_parallel (p : edge -> bool) (es : list edge) :
  no_parallel es -> no_parallel (filter p es).
Proof.
  induction es as [|e es IH]; intro H; [exact I|].
  destruct H as [H1 H2]. cbn [filter].
  destruct (p e); [|apply IH; exact H2].
  cbn [no_parallel]. split; [|apply IH; exact H2].
  intros e' He'. apply filter_In in He'. apply H1. apply He'.
Qed.

Lemma create_no_parallel (kb : kbase) (rule : Rule) (mcs_ids : list string) :
  forall g g',
  no_parallel (edges g) -> create kb g mcs_ids rule = Ok g' ->
  no_parallel (edges g').
Proof.
  unfold create. induction mcs_ids as [|id rest IH]; intros g g' Hg H.
  - injection H as <-. exact Hg.
  - cbn [create_from] in H.
    destruct (create_step kb rule g id) as [g1|] eqn:E; [|discriminate].
    cbn [bind] in H. eapply IH; [|exact H].
    unfold create_step in E.
    destruct (get_parent_ids kb id) as [[id0 id1]|]; [|discriminate].
    cbn [bind] in E.
    destruct (rule kb id0 id1 id) as [simi|]; [|discriminate].
    cbn [bind] in E.
    destruct (Qgt_bool simi 0); injection E as <-; [|exact Hg].
    cbn [add_edge edges]. apply set_edge_no_parallel. exact Hg.
Qed.

(** ** The edges that the Connector adds *)

Lemma edge_boundary_In (g : graph) (nbunch1 nbunch2 : list node) (a b : node) :
  In (a, b) (edge_boundary g nbunch1 nbunch2) ->
  In a nbunch1 /\ In b nbunch2 /\ has_edge g a b = true.
Proof.
  unfold edge_boundary. intro H. apply in_flat_map in H.
  destruct H as [n1 [Hn1 H]].
  destruct (mem n1 (nodes g)); [|destruct H].
  apply in_map_iff in H. destruct H as [t [Ht H]].
  injection Ht as <- <-.
  apply filter_In in H. destruct H as [H1 H2]. apply mem_In in H2.
  split; [exact Hn1|]. split; [exact H2|].
  apply neighbors_In. unfold neighbors. apply in_map_iff.
  exists t. split; [reflexivity | exact H1].
Qed.

Lemma add_edges_app (g : graph) (l1 l2 : list (node * node * attrs)) :
  add_edges g (l1 ++ l2) = add_edges (add_edges g l1) l2.
Proof. unfold add_edges. apply fold_left_app. Qed.

Lemma bridge_loop_added (complete : graph) (clusters : list (list node))
  (c2c_edges : list (node * node)) (unconnected : list nat) (ks : list Z) :
  forall desired connected out desired' connected' out',
  bridge_loop complete clusters c2c_edges unconnected (desired, connected, out) ks
    = Ok (desired', connected', out') ->
  exists added,
    desired' = add_edges desired added /\
    Forall (fun t => In (fst t) c2c_edges /\
                     exists a id,
                       get_edge complete (fst (fst t)) (snd (fst t)) = Some a /\
                       mcs_id a = Some id /\
                       snd t = boundary_attrs (similarity a) id) added.
Proof.
  induction ks as [|k ks IH]; intros desired connected out desired' connected' out' H.
  - injection H as <- <- <-. exists []. split; [reflexivity | constructor].
  - cbn [bridge_loop] in H.
    destruct (bridge_step complete clusters c2c_edges unconnected
                (desired, connected, out) k) as [[[d1 c1] o1]|e] eqn:Es;
      [|discriminate].
    cbn [bind] in H. apply IH in H. destruct H as [added [Hd Hf]].
    unfold bridge_step in Es.
    destruct (index_neg c2c_edges k) as [edge|] eqn:Ei; [|discriminate].
    cbn [bind] in Es.
    destruct (get_edge complete (fst edge) (snd edge)) as [a|] eqn:Eg; [|discriminate].
    cbn [bind] in Es.
    destruct (mcs_id a) as [id|] eqn:Em; [|discriminate].
    cbn [bind] in Es.
    destruct (touched clusters (fst edge) (snd edge) unconnected connected)
      as [c1'|]; [|discriminate].
    cbn [bind] in Es. injection Es as <- <- <-.
    exists ((fst edge, snd edge, boundary_attrs (similarity a) id) :: added).
    split; [exact Hd|].
    constructor; [|exact Hf]. cbn [fst snd]. split.
    + rewrite <- surjective_pairing. eapply index_neg_In. exact Ei.
    + exists a, id. auto.
Qed.

Lemma connect_step_added (complete : graph) (clusters : list (list node))
  (num_c2c : Z) (desired : graph) (cluster_index : nat) (unconnected : list nat)
  (out : list event) (desired' : graph) (unconnected' : list nat)
  (out' : list event) :
  connect_step complete clusters num_c2c desired cluster_index unconnected out
    = Ok (desired', unconnected', out') ->
  exists added,
    desired' = add_edges desired added /\
    Forall (bridge_edge complete clusters) added.
Proof.
  unfold connect_step, cluster_at. intro H.
  destruct (nth_error clusters cluster_index) as [this|] eqn:Et; [|discriminate].
  cbn [bind] in H. unfold boundary_edges in H.
  destruct (list_remove this clusters) as [others|] eqn:Er; [|discriminate].
  cbn [bind] in H.
  set (c2c := flat_map (fun e => edge_boundary complete this e) others) in *.
  destruct (List.length c2c =? 0)%nat.
  - injection H as <- <- <-. exists []. split; [reflexivity | constructor].
  - destruct (bridge_loop complete clusters (sorted (cmp_edge complete) c2c)
                unconnected (desired, [], out) (range_down num_c2c))
      as [[[d1 c1] o1]|] eqn:Eb; [|discriminate].
    cbn [bind] in H. injection H as <- <- <-.
    apply bridge_loop_added in Eb. destruct Eb as [added [Hd Hf]].
    exists added. split; [exact Hd|].
    eapply Forall_impl; [|exact Hf].
    intros t [Hin [a [id [Hg [Hm Ha]]]]].
    rewrite sorted_In in Hin. unfold c2c in Hin. apply in_flat_map in Hin.
    destruct Hin as [other [Ho Hin]].
    rewrite (surjective_pairing (fst t)) in Hin.
    apply edge_boundary_In in Hin. destruct Hin as [H1 [H2 _]].
    exists a, id, this, others, other.
    repeat (split; [assumption|]).
    split; [eapply nth_error_In; exact Et|].
    repeat (split; [assumption|]). exact H2.
Qed.

Lemma connect_loop_added (complete : graph) (clusters : list (list node))
  (num_c2c : Z) (fuel : nat) :
  forall desired unconnected out desired' out',
  connect_loop fuel complete clusters num_c2c desired unconnected out
    = Some (Ok (desired', out')) ->
  exists added,
    desired' = add_edges desired added /\
    Forall (bridge_edge complete clusters) added.
Proof.
  induction fuel as [|fuel IH]; intros desired unconnected out desired' out' H.
  - destruct unconnected; [|discriminate].
    injection H as <- <-. exists []. split; [reflexivity | constructor].
  - destruct unconnected as [|i rest].
    + injection H as <- <-. exists []. split; [reflexivity | constructor].
    + cbn [connect_loop] in H.
      destruct (connect_step complete clusters num_c2c desired i rest out)
        as [[[d1 u1] o1]|] eqn:Es; [|discriminate].
      apply connect_step_added in Es. destruct Es as [added1 [Hd1 Hf1]].
      apply IH in H. destruct H as [added2 [Hd2 Hf2]].
      exists (added1 ++ added2). split.
      * rewrite add_edges_app, <- Hd1. exact Hd2.
      * apply Forall_app. split; assumption.
Qed.

(** ** The stages of [gen_graph], with what each hands on *)

Lemma build_graphs_basic (kb : kbase) (mcs_ids : list string) (basic_rule : Rule)
  (simi_cutoff : Q) (b : built) :
  build_graphs kb mcs_ids basic_rule simi_cutoff = Ok b ->
  edges (b_basic b) = [] /\
  exists all_ids out,
    deposit_all kb basic_rule mcs_ids [] [] = Ok (b_kb b, all_ids, out) /\
    b_basic b = add_nodes_from empty_graph all_ids /\ b_out b = out.
Proof.
  unfold build_graphs. intro H.
  destruct (deposit_all kb basic_rule mcs_ids [] []) as [[[kb' all_ids] out]|] eqn:Ed;
    [|discriminate].
  cbn [bind] in H.
  destruct (create kb' (add_nodes_from empty_graph all_ids) mcs_ids (Cutoff 1))
    as [gc|] eqn:Ec; [|discriminate].
  cbn [bind] in H.
  destruct (create kb' (add_nodes_from empty_graph all_ids) mcs_ids
              (Cutoff simi_cutoff)) as [gd|] eqn:Eg; [|discriminate].
  cbn [bind] in H.
  destruct (index_neg (sorted_clusters gd) (-1)) as [l|] eqn:El; [|discriminate].
  cbn [bind] in H. injection H as <-.
  cbn [b_basic b_kb b_out]. split; [reflexivity|].
  exists all_ids, out. auto.
Qed.

Lemma search_step_low (c : Q) (max_csize : Z) (n : nat) (st : search_state) :
  (c <= low st)%Q -> search_ordered st ->
  match search_step max_csize n st with
  | Continue st' => (c <= low st')%Q
  | Break st' => (c <= low st')%Q
  end.
Proof.
  intros Hc [H1 [H2 H3]]. unfold search_step.
  destruct (max_csize <? Z.of_nat n)%Z; cbn [low].
  - lra.
  - destruct (int_trunc (inject_Z max_csize * (95 # 100)) >? Z.of_nat n)%Z;
      cbn [low]; exact Hc.
Qed.

Lemma search_loop_low (c : Q) (kb : kbase) (basic_graph : graph)
  (mcs_ids : list string) (max_csize : Z) (fuel : nat) :
  forall s r,
  search_loop fuel kb basic_graph mcs_ids max_csize s = Some (Ok r) ->
  search_ordered (s_state s) -> (c <= low (s_state s))%Q ->
  (c <= low (s_state r))%Q.
Proof.
  induction fuel as [|fuel IH]; intros s r H Hs Hc; cbn [search_loop] in H.
  - destruct (search_goes_on (s_state s)); [discriminate|].
    injection H as <-. exact Hc.
  - destruct (search_goes_on (s_state s)); [|injection H as <-; exact Hc].
    pose proof (search_step_ordered max_csize (List.length (s_largest s)) Hs) as Ho.
    pose proof (search_step_low max_csize (List.length (s_largest s)) Hc Hs) as Hl.
    destruct (search_step max_csize (List.length (s_largest s)) (s_state s))
      as [st'|st'].
    + destruct (create kb basic_graph mcs_ids (Cutoff (trial st'))) as [d|];
        [|discriminate].
      destruct (index_neg (sorted_clusters d) (-1)) as [l|]; [|discriminate].
      apply IH in H; [exact H | exact Ho | exact Hl].
    + injection H as <-. exact Hl.
Qed.

Lemma threshold_search_low (fuel : nat) (kb : kbase) (basic_graph : graph)
  (mcs_ids : list string) (simi_cutoff : Q) (max_csize : Z)
  (desired : graph) (clusters : list (list node)) (largest : list node)
  (out : list event) (s : searched) :
  (simi_cutoff <= 1)%Q ->
  threshold_search fuel kb basic_graph mcs_ids simi_cutoff max_csize
    desired clusters largest out = Some (Ok s) ->
  (simi_cutoff <= mid (s_state s))%Q.
Proof.
  intros Hc H.
  assert (search_ordered (search_init simi_cutoff)) as Hinit.
  { unfold search_ordered, search_init. cbn. repeat split; lra. }
  assert (simi_cutoff <= low (search_init simi_cutoff))%Q as Hlow.
  { unfold search_init. cbn [low]. lra. }
  assert (search_ordered (s_state s) /\ (simi_cutoff <= low (s_state s))%Q)
    as [[H1 _] H2].
  { unfold threshold_search in H.
    destruct (max_csize <? Z.of_nat (List.length largest))%Z.
    - split.
      + apply search_loop_ordered in H; [exact H | exact Hinit].
      + eapply search_loop_low; [exact H | exact Hinit | exact Hlow].
    - injection H as <-. split; [exact Hinit | exact Hlow]. }
  lra.
Qed.

Lemma gen_graph_parts (fuel : nat) (kb : kbase)
  (mcs_ids : list string) (basic_rule : Rule) (simi_cutoff : Q)
  (max_csize num_c2c : Z) (r : generated) :
  gen_graph fuel kb mcs_ids basic_rule simi_cutoff max_csize num_c2c = Some (Ok r) ->
  exists b s added,
    build_graphs kb mcs_ids basic_rule simi_cutoff = Ok b /\
    create (b_kb b) (b_basic b) mcs_ids (Cutoff 1) = Ok (b_complete b) /\
    search_consistent (b_kb b) (b_basic b) mcs_ids s /\
    g_clusters r = s_clusters s /\
    g_desired r = add_edges (trim_clusters (s_desired s) (s_clusters s)) added /\
    Forall (bridge_edge (b_complete b) (s_clusters s)) added /\
    ((simi_cutoff <= 1)%Q -> (simi_cutoff <= mid (s_state s))%Q).
Proof.
  intro H. apply gen_graph_stages in H.
  destruct H as [b [s [Hb [Hs [Hc Hl]]]]].
  destruct (build_graphs_consistent _ _ _ _ Hb) as [_ [_ [_ [H1 [H2 [H3 H4]]]]]].
  rewrite H3 in Hs, H4.
  pose proof (@threshold_search_consistent _ _ _ _ _ _ _ _ _ _ H2 H4 Hs) as Hcons.
  apply connect_loop_added in Hl. destruct Hl as [added [Hd Hf]].
  exists b, s, added.
  split; [exact Hb|]. split; [exact H1|]. split; [exact Hcons|].
  split; [exact Hc|]. split; [exact Hd|]. split; [exact Hf|].
  intro Hle. eapply threshold_search_low; [exact Hle | exact Hs].
Qed.

Lemma gen_example_plain :
  gen_graph 5 Examples.kb_chain ["AB"; "BC"]%string (Examples.rule_const (1 # 2))
            (3 # 10) 4 1 = Some (Ok GenExample.plain).
Proof. vm_compute. reflexivity. Qed.

Lemma gen_example_bridged :
  gen_graph 5 Examples.kb_chain ["AB"]%string (Examples.rule_const (3 # 2))
            2 2 1 = Some (Ok GenExample.bridged).
Proof. vm_compute. reflexivity. Qed.

(** ** What trimming and bridging leave alone *)

Lemma trim_clusters_edges_incl (clusters : list (list node)) :
  forall g e, In e (edges (trim_clusters g clusters)) -> In e (edges g).
Proof.
  unfold trim_clusters.
  induction clusters as [|c cs IH]; intros g e H; [exact H|].
  cbn [fold_left] in H. apply IH in H.
  apply trim_cluster_edges in H. tauto.
Qed.

Lemma trim_clusters_nodes (clusters : list (list node)) :
  forall g, nodes (trim_clusters g clusters) = nodes g.
Proof.
  unfold trim_clusters.
  induction clusters as [|c cs IH]; intro g; [reflexivity|].
  cbn [fold_left]. rewrite IH. reflexivity.
Qed.

Lemma trim_clusters_no_parallel (clusters : list (list node)) :
  forall g, no_parallel (edges g) -> no_parallel (edges (trim_clusters g clusters)).
Proof.
  unfold trim_clusters.
  induction clusters as [|c cs IH]; intros g H; [exact H|].
  cbn [fold_left]. apply IH.
  unfold trim_cluster, remove_edges_from. cbn [edges].
  apply filter_no_parallel. exact H.
Qed.

Lemma add_edges_no_parallel (added : list (node * node * attrs)) :
  forall g, no_parallel (edges g) -> no_parallel (edges (add_edges g added)).
Proof.
  unfold add_edges.
  induction added as [|t rest IH]; intros g H; [exact H|].
  cbn [fold_left]. apply IH. unfold add_edge. cbn [edges].
  apply set_edge_no_parallel. exact H.
Qed.

Lemma add_edges_has_mono (added : list (node * node * attrs)) :
  forall g u v, has_edge g u v = true -> has_edge (add_edges g added) u v = true.
Proof.
  unfold add_edges.
  induction added as [|t rest IH]; intros g u v H; [exact H|].
  cbn [fold_left]. apply IH. apply add_edge_has. left. exact H.
Qed.

Lemma connected_in_mono (g g' : graph) (c : list node) (u v : node) :
  (forall a b, has_edge g a b = true -> has_edge g' a b = true) ->
  connected_in g c u v -> connected_in g' c u v.
Proof.
  intros Hm H. unfold connected_in in *.
  induction H as [x y [H1 [H2 H3]]|x|x y z _ IH1 _ IH2].
  - apply rt_step. unfold adjacent_in. auto.
  - apply rt_refl.
  - eapply rt_trans; eassumption.
Qed.

Lemma add_node_known (l : list node) (n : node) : In n l -> add_node l n = l.
Proof. intro H. unfold add_node. apply mem_In in H. rewrite H. reflexivity. Qed.

Lemma add_edges_nodes (added : list (node * node * attrs)) :
  forall g,
  (forall t, In t added -> In (fst (fst t)) (nodes g) /\ In (snd (fst t)) (nodes g)) ->
  nodes (add_edges g added) = nodes g.
Proof.
  unfold add_edges.
  induction added as [|t rest IH]; intros g H; [reflexivity|].
  cbn [fold_left].
  destruct (H t (or_introl eq_refl)) as [H0 H1].
  assert (nodes (add_edge g (fst (fst t)) (snd (fst t)) (snd t)) = nodes g) as E.
  { unfold add_edge. cbn [nodes].
    rewrite (add_node_known _ _ H0). apply add_node_known. exact H1. }
  rewrite IH; [exact E|].
  intros t' Ht'. rewrite E. apply H. right. exact Ht'.
Qed.

Lemma create_nodes (kb : kbase) (rule : Rule) (mcs_ids : list string) :
  forall g g',
  (forall id id0 id1, In id mcs_ids -> mcs_parents kb id = Some (id0, id1) ->
                      In id0 (nodes g) /\ In id1 (nodes g)) ->
  create kb g mcs_ids rule = Ok g' -> nodes g' = nodes g.
Proof.
  unfold create.
  induction mcs_ids as [|id rest IH]; intros g g' Hp H.
  - injection H as <-. reflexivity.
  - cbn [create_from] in H.
    destruct (create_step kb rule g id) as [g1|] eqn:Es; [|discriminate].
    cbn [bind] in H.
    assert (nodes g1 = nodes g) as E.
    { unfold create_step, get_parent_ids in Es.
      destruct (mcs_parents kb id) as [[id0 id1]|] eqn:Ep; [|discriminate].
      cbn [ask bind] in Es.
      destruct (rule kb id0 id1 id) as [simi|]; [|discriminate].
      cbn [bind] in Es.
      destruct (Hp id id0 id1 (or_introl eq_refl) Ep) as [H0 H1].
      destruct (Qgt_bool simi 0); injection Es as <-; [|reflexivity].
      unfold add_edge. cbn [nodes].
      rewrite (add_node_known _ _ H0). apply add_node_known. exact H1. }
    apply IH in H.
    + rewrite H. exact E.
    + intros i i0 i1 Hi Hpi. rewrite E. apply (Hp i); [right; exact Hi | exact Hpi].
Qed.

Lemma deposit_all_ids (basic_rule : Rule) (mcs_ids : list string) :
  forall kb all_ids out kb' all_ids' out',
  deposit_all kb basic_rule mcs_ids all_ids out = Ok (kb', all_ids', out') ->
  forall x, In x all_ids' <-> In x all_ids \/ parent_of kb mcs_ids x.
Proof.
  induction mcs_ids as [|i rest IH]; intros kb all_ids out kb' all_ids' out' H x.
  - injection H as <- <- <-. split; [auto|].
    intros [Hx|[id [id0 [id1 [[] _]]]]]. exact Hx.
  - cbn [deposit_all] in H. unfold get_parent_ids in H.
    destruct (mcs_parents kb i) as [[id0 id1]|] eqn:Ep; [|discriminate].
    cbn [ask bind] in H.
    destruct (basic_rule kb id0 id1 i) as [simi|]; [|discriminate].
    cbn [bind] in H. rewrite (IH _ _ _ _ _ _ H x).
    rewrite !add_node_In. unfold parent_of.
    cbn [deposit_similarity mcs_parents].
    split.
    + intros [[[Hx|Hx]|Hx]|[id [a [b [Hid [Hp Hab]]]]]].
      * left. exact Hx.
      * right. exists i, id0, id1. cbn. auto.
      * right. exists i, id0, id1. cbn. auto.
      * right. exists id, a, b. cbn. auto.
    + intros [Hx|[id [a [b [[<-|Hid] [Hp Hab]]]]]].
      * auto.
      * rewrite Ep in Hp. injection Hp as <- <-.
        destruct Hab as [->| ->]; auto.
      * right. exists id, a, b. auto.
Qed.

Lemma gen_graph_shape (fuel : nat) (kb : kbase)
  (mcs_ids : list string) (basic_rule : Rule) (simi_cutoff : Q)
  (max_csize num_c2c : Z) (r : generated) :
  gen_graph fuel kb mcs_ids basic_rule simi_cutoff max_csize num_c2c = Some (Ok r) ->
  exists b s added,
    build_graphs kb mcs_ids basic_rule simi_cutoff = Ok b /\
    create (b_kb b) (b_basic b) mcs_ids (Cutoff 1) = Ok (b_complete b) /\
    create (b_kb b) (b_basic b) mcs_ids (Cutoff (mid (s_state s))) = Ok (s_desired s) /\
    edges (b_basic b) = [] /\
    wf_graph (s_desired s) /\
    (forall x, In x (nodes (s_desired s)) <-> parent_of kb mcs_ids x) /\
    (forall id, mcs_parents (b_kb b) id = mcs_parents kb id) /\
    g_clusters r = sorted_clusters (s_desired s) /\
    g_clusters r <> [] /\
    g_desired r = add_edges (trim_clusters (s_desired s) (g_clusters r)) added /\
    Forall (bridge_edge (b_complete b) (g_clusters r)) added /\
    ((simi_cutoff <= 1)%Q -> (simi_cutoff <= mid (s_state s))%Q).
Proof.
  intro H. apply gen_graph_parts in H.
  destruct H as [b [s [added [Hb [Hc [[Hd [Hs Hl]] [Hg [Ha [Hf Hm]]]]]]]]].
  destruct (build_graphs_consistent _ _ _ _ Hb) as [Hwf _].
  destruct (build_graphs_basic _ _ _ _ Hb) as [He [all_ids [out [Hdep [Hbasic _]]]]].
  pose proof (deposit_all_ids _ _ _ _ _ Hdep) as Hids.
  destruct (deposit_all_spec _ _ _ _ _ Hdep) as [Hpar _].
  assert (forall x, In x (nodes (b_basic b)) <-> parent_of kb mcs_ids x) as Hn.
  { intro x. rewrite Hbasic. unfold add_nodes_from, empty_graph. cbn [nodes].
    rewrite add_nodes_In, Hids. cbn [In]. tauto. }
  assert (nodes (s_desired s) = nodes (b_basic b)) as En.
  { eapply create_nodes; [|exact Hd].
    intros id id0 id1 Hid Hp. rewrite Hpar in Hp.
    split; apply Hn; exists id, id0, id1; auto. }
  rewrite <- Hg in Ha, Hf, Hs, Hl.
  exists b, s, added.
  split; [exact Hb|]. split; [exact Hc|]. split; [exact Hd|].
  split; [exact He|].
  split; [eapply create_wf; [exact Hwf | exact Hd]|].
  split; [intro x; rewrite En; apply Hn|].
  split; [exact Hpar|]. split; [exact Hs|].
  split; [|split; [exact Ha | split; [exact Hf | exact Hm]]].
  intro E. rewrite E in Hl. discriminate.
Qed.

(** * Further properties of [gen_graph] *)

(** X7: the graph that [gen_graph] returns has at most one edge for a pair
    of nodes, whichever way round the pair is read: [add_edge] updates the
    edge that is there (in [create] when two identifiers have the same
    parents, in the Connector when a boundary edge is met from both of its
    clusters) and trimming only removes edges. *)
Theorem gen_graph_has_no_parallel_edges (fuel : nat) (kb : kbase)
  (mcs_ids : list string) (basic_rule : Rule) (simi_cutoff : Q)
  (max_csize num_c2c : Z) (r : generated) :
  gen_graph fuel kb mcs_ids basic_rule simi_cutoff max_csize num_c2c = Some (Ok r) ->
  no_parallel (edges (g_desired r)).
Proof.
  intro H. apply gen_graph_shape in H.
  destruct H as [b [s [added [_ [_ [Hd [He [_ [_ [_ [_ [_ [Ha _]]]]]]]]]]]]].
  rewrite Ha. apply add_edges_no_parallel, trim_clusters_no_parallel.
  eapply create_no_parallel; [|exact Hd]. rewrite He. exact I.
Qed.

Lemma gen_graph_has_no_parallel_edges_witness :
  no_parallel (edges (g_desired GenExample.bridged)).
Proof.
  apply (@gen_graph_has_no_parallel_edges 5 Examples.kb_chain ["AB"]%string
           (Examples.rule_const (3 # 2)) 2 2 1 GenExample.bridged).
  vm_compute. reflexivity.
Defined.

(** X8: every cluster that [gen_graph] returns is connected inside itself
    in the graph that it returns: trimming keeps the spanning edges of each
    cluster and the Connector only adds edges. *)
Theorem gen_graph_clusters_are_connected (fuel : nat) (kb : kbase)
  (mcs_ids : list string) (basic_rule : Rule) (simi_cutoff : Q)
  (max_csize num_c2c : Z) (r : generated) (c : list node) (u v : node) :
  gen_graph fuel kb mcs_ids basic_rule simi_cutoff max_csize num_c2c = Some (Ok r) ->
  In c (g_clusters r) -> In u c -> In v c ->
  connected_in (g_desired r) c u v.
Proof.
  intros H Hc Hu Hv. apply gen_graph_shape in H.
  destruct H as [b [s [added [_ [_ [_ [_ [Hwf [_ [_ [Hs [_ [Ha _]]]]]]]]]]]]].
  rewrite Ha, Hs. rewrite Hs in Hc.
  eapply connected_in_mono; [intros x y; apply add_edges_has_mono|].
  apply trimmed_clusters_stay_connected; assumption.
Qed.

Lemma gen_graph_clusters_are_connected_witness :
  connected_in (g_desired GenExample.plain) ["A"; "B"; "C"]%string
               "A"%string "C"%string.
Proof.
  apply (@gen_graph_clusters_are_connected 5 Examples.kb_chain ["AB"; "BC"]%string
           (Examples.rule_const (1 # 2)) (3 # 10) 4 1 GenExample.plain).
  - vm_compute. reflexivity.
  - cbn. auto.
  - cbn. auto.
  - cbn. auto.
Defined.

Lemma bridge_edge_ends (complete : graph) (clusters : list (list node))
  (t : node * node * attrs) :
  bridge_edge complete clusters t ->
  (exists c, In c clusters /\ In (fst (fst t)) c) /\
  (exists c, In c clusters /\ In (snd (fst t)) c).
Proof.
  intros [a [id [this [others [other [_ [_ [_ [H1 [H2 [H3 [H4 H5]]]]]]]]]]]].
  split; [exists this; auto|].
  exists other. split; [|exact H5].
  clear - H2 H3. revert others H2 H3.
  induction clusters as [|y l IH]; intros others H2 H3; [discriminate|].
  cbn [list_remove] in H2.
  destruct (list_eq_dec string_dec this y).
  - injection H2 as <-. right. exact H3.
  - destruct (list_remove this l) as [r|]; [|discriminate].
    cbn [bind] in H2. injection H2 as <-.
    destruct H3 as [<-|H3]; [left; reflexivity|].
    right. eapply IH; [reflexivity | exact H3].
Qed.

(** X9: the clusters that [gen_graph] returns are a partition of the nodes
    of the graph that it returns, and these nodes are the parents of the
    identifiers: there is a cluster, no node lies in two clusters, every
    node lies in a cluster, and a node is in the graph exactly when it is a
    parent of one of the [mcs_ids]. *)
Theorem gen_graph_clusters_partition_the_parents (fuel : nat) (kb : kbase)
  (mcs_ids : list string) (basic_rule : Rule) (simi_cutoff : Q)
  (max_csize num_c2c : Z) (r : generated) :
  gen_graph fuel kb mcs_ids basic_rule simi_cutoff max_csize num_c2c = Some (Ok r) ->
  g_clusters r <> [] /\
  NoDup (List.concat (g_clusters r)) /\
  (forall x, In x (nodes (g_desired r)) <->
             exists c, In c (g_clusters r) /\ In x c) /\
  (forall x, In x (nodes (g_desired r)) <-> parent_of kb mcs_ids x).
Proof.
  intro H. apply gen_graph_shape in H.
  destruct H as [b [s [added [_ [_ [_ [_ [Hwf [Hn [_ [Hs [Hne [Ha [Hf _]]]]]]]]]]]]]].
  destruct (sorted_clusters_components Hwf) as [H1 [H2 _]].
  rewrite <- Hs in H1, H2.
  assert (nodes (g_desired r) = nodes (s_desired s)) as En.
  { rewrite Ha, add_edges_nodes; [apply trim_clusters_nodes|].
    intros t Ht. rewrite trim_clusters_nodes.
    rewrite Forall_forall in Hf.
    destruct (bridge_edge_ends (Hf t Ht)) as [E0 E1].
    split; apply H1; assumption. }
  split; [exact Hne|]. split; [exact H2|].
  split; intro x; rewrite En; [apply H1 | apply Hn].
Qed.

Lemma gen_graph_clusters_partition_the_parents_witness :
  g_clusters GenExample.bridged <> [] /\
  NoDup (List.concat (g_clusters GenExample.bridged)) /\
  (forall x, In x (nodes (g_desired GenExample.bridged)) <->
             exists c, In c (g_clusters GenExample.bridged) /\ In x c) /\
  (forall x, In x (nodes (g_desired GenExample.bridged)) <->
             parent_of Examples.kb_chain ["AB"]%string x).
Proof.
  apply (@gen_graph_clusters_partition_the_parents 5 Examples.kb_chain
           ["AB"]%string (Examples.rule_const (3 # 2)) 2 2 1 GenExample.bridged).
  vm_compute. reflexivity.
Defined.

(** ** The edges of the returned graph *)

Lemma same_pair_sym (a b u v : node) : same_pair a b u v -> same_pair u v a b.
Proof. unfold same_pair. intros [[-> ->]|[-> ->]]; auto. Qed.

Lemma same_pair_trans (a b c d u v : node) :
  same_pair a b c d -> same_pair c d u v -> same_pair a b u v.
Proof.
  unfold same_pair. intros [[-> ->]|[-> ->]] [[-> ->]|[-> ->]]; auto.
Qed.

Lemma add_edges_edge (added : list (node * node * attrs)) :
  forall g e,
  In e (edges (add_edges g added)) ->
  In e (edges g) \/
  exists t, In t added /\
            same_pair (fst (fst t)) (snd (fst t)) (eu e) (ev e) /\
            (ea e = snd t \/ exists a0, ea e = dict_update a0 (snd t)).
Proof.
  unfold add_edges.
  induction added as [|t rest IH]; intros g e H; [left; exact H|].
  cbn [fold_left] in H. apply IH in H.
  destruct H as [H|[t' [Ht' H]]].
  - unfold add_edge in H. cbn [edges] in H. apply set_edge_In in H.
    destruct H as [H|[[e0 [H0 [H1 ->]]]| ->]].
    + left. exact H.
    + right. exists t. split; [left; reflexivity|]. cbn [eu ev ea].
      split; [apply same_pair_sym, edge_is_true; exact H1|].
      right. exists (ea e0). reflexivity.
    + right. exists t. split; [left; reflexivity|]. cbn [eu ev ea].
      split; [left; auto | left; reflexivity].
  - right. exists t'. split; [right; exact Ht' | exact H].
Qed.

Lemma get_edge_In (g : graph) (u v : node) (a : attrs) :
  get_edge g u v = Some a ->
  exists e, In e (edges g) /\ same_pair (eu e) (ev e) u v /\ ea e = a.
Proof.
  unfold get_edge. intro H.
  destruct (find (edge_is u v) (edges g)) as [e|] eqn:Ef; [|discriminate].
  injection H as <-. apply find_some in Ef. destruct Ef as [H1 H2].
  exists e. split; [exact H1|]. split; [apply edge_is_true; exact H2 | reflexivity].
Qed.

Lemma Cutoff_positive (c : Q) (kb : kbase) (id0 id1 : node) (id : string) (simi : Q) :
  Cutoff c kb id0 id1 id = Ok simi -> (0 < simi)%Q ->
  kb_similarity kb id = Some simi /\ (c <= simi)%Q.
Proof.
  unfold Cutoff. intros H Hp.
  destruct (kb_similarity kb id) as [s|]; [|discriminate].
  cbn [ask bind] in H. injection H as H.
  destruct (Qlt_bool s c) eqn:El.
  - subst simi. exfalso. revert Hp. apply Qlt_irrefl.
  - subst simi. split; [reflexivity|].
    apply Qnot_lt_le. intro Hlt. apply Qlt_bool_iff in Hlt. congruence.
Qed.

Lemma deposit_all_keeps (basic_rule : Rule) (mcs_ids : list string) :
  forall kb all_ids out kb' all_ids' out' id,
  deposit_all kb basic_rule mcs_ids all_ids out = Ok (kb', all_ids', out') ->
  ~ In id mcs_ids -> kb_similarity kb' id = kb_similarity kb id.
Proof.
  induction mcs_ids as [|i rest IH]; intros kb all_ids out kb' all_ids' out' id H Hn.
  - injection H as <- <- <-. reflexivity.
  - cbn [deposit_all] in H. unfold get_parent_ids in H.
    destruct (mcs_parents kb i) as [[id0 id1]|]; [|discriminate].
    cbn [ask bind] in H.
    destruct (basic_rule kb id0 id1 i) as [simi|]; [|discriminate].
    cbn [bind] in H.
    rewrite (@IH _ _ _ _ _ _ id H); [|intro Hi; apply Hn; right; exact Hi].
    cbn [deposit_similarity kb_similarity].
    destruct (String.eqb id i) eqn:E; [|reflexivity].
    apply String.eqb_eq in E. exfalso. apply Hn. left. auto.
Qed.

Lemma deposit_all_value (basic_rule : Rule) (mcs_ids : list string) :
  forall kb all_ids out kb' all_ids' out' id,
  deposit_all kb basic_rule mcs_ids all_ids out = Ok (kb', all_ids', out') ->
  In id mcs_ids ->
  exists kb_i id0 id1 simi,
    mcs_parents kb id = Some (id0, id1) /\
    basic_rule kb_i id0 id1 id = Ok simi /\
    kb_similarity kb' id = Some simi.
Proof.
  induction mcs_ids as [|i rest IH]; intros kb all_ids out kb' all_ids' out' id H Hin.
  - destruct Hin.
  - cbn [deposit_all] in H. unfold get_parent_ids in H.
    destruct (mcs_parents kb i) as [[id0 id1]|] eqn:Ep; [|discriminate].
    cbn [ask bind] in H.
    destruct (basic_rule kb id0 id1 i) as [simi|] eqn:Er; [|discriminate].
    cbn [bind] in H.
    destruct (in_dec string_dec id rest) as [Hr|Hr].
    + destruct (IH _ _ _ _ _ _ id H Hr) as [kb_i [a [b [s [H1 [H2 H3]]]]]].
      exists kb_i, a, b, s. auto.
    + destruct Hin as [->|Hin]; [|contradiction].
      exists kb, id0, id1, simi.
      split; [exact Ep|]. split; [exact Er|].
      rewrite (@deposit_all_keeps _ _ _ _ _ _ _ _ _ H Hr).
      cbn [deposit_similarity kb_similarity].
      rewrite String.eqb_refl. reflexivity.
Qed.

Lemma bridged_attrs (simi : Q) (id : string) (a : attrs) :
  a = boundary_attrs simi id \/ (exists a0, a = dict_update a0 (boundary_attrs simi id)) ->
  similarity a = simi /\ mcs_id a = Some id /\ boundary a = Some true.
Proof.
  intros [->|[a1 ->]]; cbn; auto.
Qed.

Lemma desired_edge_same_cluster (g : graph) (e : edge) :
  wf_graph g -> In e (edges g) ->
  same_cluster (sorted_clusters g) (eu e) (ev e).
Proof.
  intros Hwf He.
  destruct (sorted_clusters_components Hwf) as [H1 [_ H3]].
  destruct (Hwf e He) as [Hu _].
  apply H1 in Hu. destruct Hu as [c [Hc Hu]].
  exists c. split; [exact Hc|]. split; [exact Hu|].
  apply (H3 c (eu e) (ev e) Hc Hu).
  apply rt_step. unfold adjacent. apply has_edge_true.
  exists e. split; [exact He | left; auto].
Qed.

Lemma bridge_edge_apart (g complete : graph) (t : node * node * attrs) :
  wf_graph g ->
  bridge_edge complete (sorted_clusters g) t ->
  ~ same_cluster (sorted_clusters g) (fst (fst t)) (snd (fst t)).
Proof.
  intros Hwf [a [id [this [others [other [_ [_ [_ [H1 [H2 [H3 [H4 H5]]]]]]]]]]]].
  destruct (sorted_clusters_components Hwf) as [_ [Hnd _]].
  intros [c [Hc [Hu Hv]]].
  assert (this <> []) as Hne by (intro E; rewrite E in H4; destruct H4).
  destruct (@NoDup_concat_disjoint _ _ _ Hnd Hc H1) as [E|E].
  - subst this.
    exact (@list_remove_disjoint _ _ _ H2 Hnd Hne other H3 _ Hv H5).
  - exact (E _ Hu H4).
Qed.

(** X10: in the graph that [gen_graph] returns the attribute [boundary]
    tells the two kinds of edges apart.  An edge without it joins two nodes
    of one cluster; an edge with [boundary = True] joins nodes that no
    cluster holds together.  There is no third case. *)
Theorem gen_graph_boundary_marks_the_bridges (fuel : nat) (kb : kbase)
  (mcs_ids : list string) (basic_rule : Rule) (simi_cutoff : Q)
  (max_csize num_c2c : Z) (r : generated) (e : edge) :
  gen_graph fuel kb mcs_ids basic_rule simi_cutoff max_csize num_c2c = Some (Ok r) ->
  In e (edges (g_desired r)) ->
  (boundary (ea e) = None /\ same_cluster (g_clusters r) (eu e) (ev e)) \/
  (boundary (ea e) = Some true /\ ~ same_cluster (g_clusters r) (eu e) (ev e)).
Proof.
  intros H He. apply gen_graph_shape in H.
  destruct H as [b [s [added [_ [_ [Hd [Hb [Hwf [_ [_ [Hs [_ [Ha [Hf _]]]]]]]]]]]]]].
  rewrite Ha in He. apply add_edges_edge in He.
  destruct He as [He|[t [Ht [Hp Hat]]]].
  - left. apply trim_clusters_edges_incl in He.
    split.
    + destruct (@create_written _ _ _ _ _ Hb Hd e He)
        as [id [id0 [id1 [simi [_ [_ [_ [_ [_ E]]]]]]]]].
      rewrite E. reflexivity.
    + rewrite Hs. apply desired_edge_same_cluster; assumption.
  - right. rewrite Forall_forall in Hf. pose proof (Hf t Ht) as Hbr.
    assert (exists simi id, snd t = boundary_attrs simi id) as [simi [id Est]].
    { destruct Hbr as [a [id [_ [_ [_ [_ [_ [E _]]]]]]]]. eauto. }
    rewrite Est in Hat.
    destruct (@bridged_attrs _ _ _ Hat) as [_ [_ Hbd]].
    split; [exact Hbd|].
    rewrite Hs in Hbr |- *.
    pose proof (@bridge_edge_apart _ _ _ Hwf Hbr) as Hap.
    intros [c [Hc [Hu Hv]]]. apply Hap.
    exists c. split; [exact Hc|].
    destruct Hp as [[E0 E1]|[E0 E1]]; rewrite E0, E1; auto.
Qed.

Lemma gen_graph_boundary_marks_the_bridges_witness :
  (boundary (boundary_attrs (3 # 2) "AB"%string) = None /\
   same_cluster (g_clusters GenExample.bridged) "A"%string "B"%string) \/
  (boundary (boundary_attrs (3 # 2) "AB"%string) = Some true /\
   ~ same_cluster (g_clusters GenExample.bridged) "A"%string "B"%string).
Proof.
  apply (@gen_graph_boundary_marks_the_bridges 5 Examples.kb_chain ["AB"]%string
           (Examples.rule_const (3 # 2)) 2 2 1 GenExample.bridged
           (mkEdge "A"%string "B"%string (boundary_attrs (3 # 2) "AB"%string))).
  - vm_compute. reflexivity.
  - cbn. auto.
Defined.

Lemma written_edge (kb kb' : kbase) (basic_rule : Rule) (mcs_ids : list string)
  (all_ids : list node) (out : list event) (c : Q) (e : edge) :
  deposit_all kb basic_rule mcs_ids [] [] = Ok (kb', all_ids, out) ->
  written_by kb' (Cutoff c) mcs_ids e ->
  exists id id0 id1 kb_i,
    In id mcs_ids /\ mcs_id (ea e) = Some id /\
    mcs_parents kb id = Some (id0, id1) /\
    same_pair id0 id1 (eu e) (ev e) /\
    basic_rule kb_i id0 id1 id = Ok (similarity (ea e)) /\
    (0 < similarity (ea e))%Q /\ (c <= similarity (ea e))%Q /\
    boundary (ea e) = None.
Proof.
  intros Hdep [id [id0 [id1 [simi [Hid [Hp [Hr [Hpos [Hsp Ea]]]]]]]]].
  destruct (Cutoff_positive _ _ _ _ _ Hr Hpos) as [Hk Hc].
  destruct (deposit_all_spec _ _ _ _ _ Hdep) as [Hpar _].
  destruct (@deposit_all_value _ _ _ _ _ _ _ _ id Hdep Hid)
    as [kb_i [a [b [s [H1 [H2 H3]]]]]].
  rewrite Hpar in Hp. rewrite Hp in H1. injection H1 as <- <-.
  rewrite Hk in H3. injection H3 as <-.
  exists id, id0, id1, kb_i. rewrite Ea. cbn [created_attrs similarity mcs_id boundary].
  auto 10.
Qed.

(** X11: every edge of the graph that [gen_graph] returns, boundary edges
    included, carries the identifier of a common substructure of its two
    ends, taken from [mcs_ids], and the similarity that [basic_rule] gave for
    that identifier; this similarity is positive. *)
Theorem gen_graph_edges_carry_their_mcs (fuel : nat) (kb : kbase)
  (mcs_ids : list string) (basic_rule : Rule) (simi_cutoff : Q)
  (max_csize num_c2c : Z) (r : generated) (e : edge) :
  gen_graph fuel kb mcs_ids basic_rule simi_cutoff max_csize num_c2c = Some (Ok r) ->
  In e (edges (g_desired r)) ->
  exists id id0 id1 kb_i,
    In id mcs_ids /\ mcs_id (ea e) = Some id /\
    mcs_parents kb id = Some (id0, id1) /\
    same_pair id0 id1 (eu e) (ev e) /\
    basic_rule kb_i id0 id1 id = Ok (similarity (ea e)) /\
    (0 < similarity (ea e))%Q.
Proof.
  intros H He. apply gen_graph_shape in H.
  destruct H as [b [s [added [Hbg [Hc [Hd [Hb [_ [_ [_ [_ [_ [Ha [Hf _]]]]]]]]]]]]]].
  destruct (build_graphs_basic _ _ _ _ Hbg) as [_ [all_ids [out [Hdep _]]]].
  rewrite Ha in He. apply add_edges_edge in He.
  destruct He as [He|[t [Ht [Hp Hat]]]].
  - apply trim_clusters_edges_incl in He.
    pose proof (@create_written _ _ _ _ _ Hb Hd e He) as Hw.
    destruct (@written_edge _ _ _ _ _ _ _ _ Hdep Hw)
      as [id [id0 [id1 [kb_i [H1 [H2 [H3 [H4 [H5 [H6 _]]]]]]]]]].
    exists id, id0, id1, kb_i. auto 10.
  - rewrite Forall_forall in Hf.
    destruct (Hf t Ht) as [a [id [_ [_ [_ [Hg [Hm [Est _]]]]]]]].
    rewrite Est in Hat.
    destruct (@bridged_attrs _ _ _ Hat) as [Es [Ei _]].
    apply get_edge_In in Hg. destruct Hg as [e0 [He0 [Hp0 Ea0]]].
    pose proof (@create_written _ _ _ _ _ Hb Hc e0 He0) as Hw.
    destruct (@written_edge _ _ _ _ _ _ _ _ Hdep Hw)
      as [id' [id0 [id1 [kb_i [H1 [H2 [H3 [H4 [H5 [H6 _]]]]]]]]]].
    rewrite Ea0 in H2, H5, H6. rewrite Hm in H2. injection H2 as <-.
    exists id, id0, id1, kb_i. rewrite Es, Ei.
    split; [exact H1|]. split; [reflexivity|]. split; [exact H3|].
    split; [|auto].
    eapply same_pair_trans; [exact H4|].
    eapply same_pair_trans; [exact Hp0 | exact Hp].
Qed.

Lemma gen_graph_edges_carry_their_mcs_witness :
  exists id id0 id1 kb_i,
    In id ["AB"]%string /\
    mcs_id (boundary_attrs (3 # 2) "AB"%string) = Some id /\
    mcs_parents Examples.kb_chain id = Some (id0, id1) /\
    same_pair id0 id1 "A"%string "B"%string /\
    Examples.rule_const (3 # 2) kb_i id0 id1 id
      = Ok (similarity (boundary_attrs (3 # 2) "AB"%string)) /\
    (0 < similarity (boundary_attrs (3 # 2) "AB"%string))%Q.
Proof.
  apply (@gen_graph_edges_carry_their_mcs 5 Examples.kb_chain ["AB"]%string
           (Examples.rule_const (3 # 2)) 2 2 1 GenExample.bridged
           (mkEdge "A"%string "B"%string (boundary_attrs (3 # 2) "AB"%string))).
  - vm_compute. reflexivity.
  - cbn. auto.
Defined.

(** X12: a boundary edge of the returned graph has a similarity of at least
    1, whatever [simi_cutoff] is: the Connector copies its edges from
    [complete], and [complete] is built with [rule.Cutoff( 1 )]. *)
Theorem gen_graph_boundary_edges_have_similarity_1 (fuel : nat) (kb : kbase)
  (mcs_ids : list string) (basic_rule : Rule) (simi_cutoff : Q)
  (max_csize num_c2c : Z) (r : generated) (e : edge) :
  gen_graph fuel kb mcs_ids basic_rule simi_cutoff max_csize num_c2c = Some (Ok r) ->
  In e (edges (g_desired r)) ->
  boundary (ea e) = Some true ->
  (1 <= similarity (ea e))%Q.
Proof.
  intros H He Hbd. apply gen_graph_shape in H.
  destruct H as [b [s [added [Hbg [Hc [Hd [Hb [_ [_ [_ [_ [_ [Ha [Hf _]]]]]]]]]]]]]].
  destruct (build_graphs_basic _ _ _ _ Hbg) as [_ [all_ids [out [Hdep _]]]].
  rewrite Ha in He. apply add_edges_edge in He.
  destruct He as [He|[t [Ht [Hp Hat]]]].
  - apply trim_clusters_edges_incl in He.
    pose proof (@create_written _ _ _ _ _ Hb Hd e He) as Hw.
    destruct (@written_edge _ _ _ _ _ _ _ _ Hdep Hw)
      as [id [id0 [id1 [kb_i [_ [_ [_ [_ [_ [_ [_ Hn]]]]]]]]]]].
    congruence.
  - rewrite Forall_forall in Hf.
    destruct (Hf t Ht) as [a [id [_ [_ [_ [Hg [Hm [Est _]]]]]]]].
    rewrite Est in Hat.
    destruct (@bridged_attrs _ _ _ Hat) as [Es _].
    apply get_edge_In in Hg. destruct Hg as [e0 [He0 [Hp0 Ea0]]].
    pose proof (@create_written _ _ _ _ _ Hb Hc e0 He0) as Hw.
    destruct (@written_edge _ _ _ _ _ _ _ _ Hdep Hw)
      as [id' [id0 [id1 [kb_i [_ [_ [_ [_ [_ [_ [H7 _]]]]]]]]]]].
    rewrite Es, <- Ea0. exact H7.
Qed.

Lemma gen_graph_boundary_edges_have_similarity_1_witness :
  (1 <= similarity (boundary_attrs (3 # 2) "AB"%string))%Q.
Proof.
  apply (@gen_graph_boundary_edges_have_similarity_1 5 Examples.kb_chain
           ["AB"]%string (Examples.rule_const (3 # 2)) 2 2 1 GenExample.bridged
           (mkEdge "A"%string "B"%string (boundary_attrs (3 # 2) "AB"%string))).
  - vm_compute. reflexivity.
  - cbn. auto.
  - reflexivity.
Defined.

(** X13: for a cut-off of at most 1 every edge of the returned graph has a
    similarity of at least [simi_cutoff]: the search moves the cut-off
    between [simi_cutoff] and 1 and never below [simi_cutoff]. *)
Theorem gen_graph_similarities_reach_the_cutoff (fuel : nat) (kb : kbase)
  (mcs_ids : list string) (basic_rule : Rule) (simi_cutoff : Q)
  (max_csize num_c2c : Z) (r : generated) (e : edge) :
  (simi_cutoff <= 1)%Q ->
  gen_graph fuel kb mcs_ids basic_rule simi_cutoff max_csize num_c2c = Some (Ok r) ->
  In e (edges (g_desired r)) ->
  (simi_cutoff <= similarity (ea e))%Q.
Proof.
  intros Hle H He. apply gen_graph_shape in H.
  destruct H as [b [s [added [Hbg [Hc [Hd [Hb [_ [_ [_ [_ [_ [Ha [Hf Hm]]]]]]]]]]]]]].
  specialize (Hm Hle).
  destruct (build_graphs_basic _ _ _ _ Hbg) as [_ [all_ids [out [Hdep _]]]].
  rewrite Ha in He. apply add_edges_edge in He.
  destruct He as [He|[t [Ht [Hp Hat]]]].
  - apply trim_clusters_edges_incl in He.
    pose proof (@create_written _ _ _ _ _ Hb Hd e He) as Hw.
    destruct (@written_edge _ _ _ _ _ _ _ _ Hdep Hw)
      as [id [id0 [id1 [kb_i [_ [_ [_ [_ [_ [_ [H7 _]]]]]]]]]]].
    lra.
  - rewrite Forall_forall in Hf.
    destruct (Hf t Ht) as [a [id [_ [_ [_ [Hg [Hmi [Est _]]]]]]]].
    rewrite Est in Hat.
    destruct (@bridged_attrs _ _ _ Hat) as [Es _].
    apply get_edge_In in Hg. destruct Hg as [e0 [He0 [Hp0 Ea0]]].
    pose proof (@create_written _ _ _ _ _ Hb Hc e0 He0) as Hw.
    destruct (@written_edge _ _ _ _ _ _ _ _ Hdep Hw)
      as [id' [id0 [id1 [kb_i [_ [_ [_ [_ [_ [_ [H7 _]]]]]]]]]]].
    rewrite Es, <- Ea0. lra.
Qed.

Lemma gen_graph_similarities_reach_the_cutoff_witness :
  (3 # 10 <= similarity (Examples.attrs_of (1 # 2) "AB"%string))%Q.
Proof.
  apply (@gen_graph_similarities_reach_the_cutoff 5 Examples.kb_chain
           ["AB"; "BC"]%string (Examples.rule_const (1 # 2)) (3 # 10) 4 1
           GenExample.plain
           (mkEdge "A"%string "B"%string (Examples.attrs_of (1 # 2) "AB"%string))).
  - vm_compute. discriminate.
  - vm_compute. reflexivity.
  - cbn. auto.
Defined.

(** ** Inputs on which [gen_graph] raises *)

(** X14: on an empty list of identifiers [gen_graph] raises [IndexError]:
    there is no node, hence no cluster, and [clusters[-1]] fails. *)
Theorem gen_graph_without_ids_raises (fuel : nat) (kb : kbase)
  (basic_rule : Rule) (simi_cutoff : Q) (max_csize num_c2c : Z) :
  gen_graph fuel kb [] basic_rule simi_cutoff max_csize num_c2c
  = Some (Raise IndexError).
Proof. reflexivity. Qed.

Lemma deposit_all_unknown (basic_rule : Rule) (mcs_ids : list string) :
  forall kb all_ids out,
  (forall kb' id0 id1 id, exists simi, basic_rule kb' id0 id1 id = Ok simi) ->
  (exists id, In id mcs_ids /\ mcs_parents kb id = None) ->
  deposit_all kb basic_rule mcs_ids all_ids out = Raise LookupError.
Proof.
  induction mcs_ids as [|i rest IH]; intros kb all_ids out Hr [id [Hin Hp]].
  - destruct Hin.
  - cbn [deposit_all]. unfold get_parent_ids.
    destruct (mcs_parents kb i) as [[id0 id1]|] eqn:Ep; [|reflexivity].
    cbn [ask bind].
    destruct (Hr kb id0 id1 i) as [simi Es]. rewrite Es. cbn [bind].
    apply IH; [exact Hr|].
    destruct Hin as [->|Hin]; [congruence|].
    exists id. split; [exact Hin | exact Hp].
Qed.

(** X15: when one of the identifiers is unknown to the knowledge base (it
    has no ["mcs-parents"]) and the basic rule itself never raises,
    [gen_graph] raises the [LookupError] of [KBASE.ask]; nothing handles
    it. *)
Theorem gen_graph_unknown_id_raises (fuel : nat) (kb : kbase)
  (mcs_ids : list string) (basic_rule : Rule) (simi_cutoff : Q)
  (max_csize num_c2c : Z) (id : string) :
  (forall kb' id0 id1 i, exists simi, basic_rule kb' id0 id1 i = Ok simi) ->
  In id mcs_ids -> mcs_parents kb id = None ->
  gen_graph fuel kb mcs_ids basic_rule simi_cutoff max_csize num_c2c
  = Some (Raise LookupError).
Proof.
  intros Hr Hin Hp. unfold gen_graph, build_graphs.
  rewrite deposit_all_unknown; [reflexivity | exact Hr|].
  exists id. split; [exact Hin | exact Hp].
Qed.

Lemma gen_graph_unknown_id_raises_witness :
  gen_graph 5 Examples.kb_chain ["AB"; "AC"]%string (Examples.rule_const (1 # 2))
            (3 # 10) 4 1
  = Some (Raise LookupError).
Proof.
  apply (@gen_graph_unknown_id_raises 5 Examples.kb_chain ["AB"; "AC"]%string
           (Examples.rule_const (1 # 2)) (3 # 10) 4 1 "AC"%string).
  - intros kb' id0 id1 i. exists (1 # 2). reflexivity.
  - cbn. auto.
  - reflexivity.
Defined.

(** ** Runs that succeed *)

Lemma deposit_all_ok (basic_rule : Rule) (mcs_ids : list string) :
  (forall kb' id0 id1 id, exists simi, basic_rule kb' id0 id1 id = Ok simi) ->
  forall kb all_ids out,
  (forall id, In id mcs_ids -> mcs_parents kb id <> None) ->
  exists d, deposit_all kb basic_rule mcs_ids all_ids out = Ok d.
Proof.
  intro Hr. induction mcs_ids as [|i rest IH]; intros kb all_ids out Hk.
  - eexists. reflexivity.
  - cbn [deposit_all]. unfold get_parent_ids.
    destruct (mcs_parents kb i) as [[id0 id1]|] eqn:Ep.
    + cbn [ask bind]. destruct (Hr kb id0 id1 i) as [simi Es].
      rewrite Es. cbn [bind]. apply IH.
      intros id Hid. cbn [deposit_similarity mcs_parents]. apply Hk. right. exact Hid.
    + exfalso. apply (Hk i); [left; reflexivity | exact Ep].
Qed.

Lemma sorted_clusters_nonempty (g : graph) :
  nodes g <> [] -> sorted_clusters g <> [].
Proof.
  intros Hn E. apply (f_equal (@List.length _)) in E.
  unfold sorted_clusters in E. rewrite sorted_length in E.
  unfold connected_components in E.
  destruct (nodes g) as [|v vs]; [apply Hn; reflexivity|].
  cbn in E. discriminate.
Qed.

Lemma index_neg_last_ok {A : Type} (l : list A) :
  l <> [] -> exists x, index_neg l (-1) = Ok x.
Proof.
  intro Hl. unfold index_neg.
  destruct l as [|a l']; [contradiction|].
  assert (Z.of_nat (List.length (a :: l')) + -1 = Z.of_nat (List.length l'))%Z as E.
  { cbn [List.length]. lia. }
  rewrite E.
  destruct (Z.of_nat (List.length l') <? 0)%Z eqn:El; [apply Z.ltb_lt in El; lia|].
  rewrite Nat2Z.id.
  destruct (nth_error (a :: l') (List.length l')) as [x|] eqn:En.
  - exists x. reflexivity.
  - apply nth_error_None in En. cbn [List.length] in En. lia.
Qed.

Lemma create_ok_with_cluster (kb : kbase) (basic_graph : graph)
  (mcs_ids : list string) (c : Q) :
  (forall c' id, In id mcs_ids -> rule_answers kb (Cutoff c') id) ->
  nodes basic_graph <> [] ->
  (forall id id0 id1, In id mcs_ids -> mcs_parents kb id = Some (id0, id1) ->
                      In id0 (nodes basic_graph) /\ In id1 (nodes basic_graph)) ->
  exists g l, create kb basic_graph mcs_ids (Cutoff c) = Ok g /\
              index_neg (sorted_clusters g) (-1) = Ok l.
Proof.
  intros Hans Hne Hpar.
  destruct (@create_from_ok kb (Cutoff c) mcs_ids basic_graph (Hans c)) as [g [Eg _]].
  assert (nodes g = nodes basic_graph) as En.
  { eapply create_nodes; [exact Hpar | exact Eg]. }
  destruct (@index_neg_last_ok _ (sorted_clusters g)) as [l El].
  { apply sorted_clusters_nonempty. rewrite En. exact Hne. }
  exists g, l. split; [exact Eg | exact El].
Qed.

Lemma search_loop_ok (kb : kbase) (basic_graph : graph)
  (mcs_ids : list string) (max_csize : Z) :
  (forall c, exists g l, create kb basic_graph mcs_ids (Cutoff c) = Ok g /\
                         index_neg (sorted_clusters g) (-1) = Ok l) ->
  forall fuel s e,
  search_loop fuel kb basic_graph mcs_ids max_csize s <> Some (Raise e).
Proof.
  intro Hc. induction fuel as [|fuel IH]; intros s e; cbn [search_loop].
  - destruct (search_goes_on (s_state s)); discriminate.
  - destruct (search_goes_on (s_state s)); [|discriminate].
    destruct (search_step max_csize (List.length (s_largest s)) (s_state s))
      as [st'|st']; [|discriminate].
    destruct (Hc (trial st')) as [g [l [Eg El]]].
    rewrite Eg, El. apply IH.
Qed.

Lemma build_graphs_ok (kb : kbase) (mcs_ids : list string) (basic_rule : Rule)
  (simi_cutoff : Q) :
  (forall kb' id0 id1 id, exists simi, basic_rule kb' id0 id1 id = Ok simi) ->
  (forall id, In id mcs_ids -> mcs_parents kb id <> None) ->
  mcs_ids <> [] ->
  exists b,
    build_graphs kb mcs_ids basic_rule simi_cutoff = Ok b /\
    forall c, exists g l,
      create (b_kb b) (b_basic b) mcs_ids (Cutoff c) = Ok g /\
      index_neg (sorted_clusters g) (-1) = Ok l.
Proof.
  intros Hr Hk Hne.
  destruct (@deposit_all_ok basic_rule mcs_ids Hr kb [] [] Hk)
    as [[[kb' all_ids] out] Hdep].
  destruct (deposit_all_spec _ _ _ _ _ Hdep) as [Hpar [_ H3]].
  pose proof (deposit_all_ids _ _ _ _ _ Hdep) as Hids.
  set (basic := add_nodes_from empty_graph all_ids).
  assert (forall x, In x (nodes basic) <-> parent_of kb mcs_ids x) as Hn.
  { intro x. unfold basic, add_nodes_from, empty_graph. cbn [nodes].
    rewrite add_nodes_In, Hids. cbn [In]. tauto. }
  assert (forall c id, In id mcs_ids -> rule_answers kb' (Cutoff c) id) as Hans.
  { intros c id Hid. destruct (H3 id Hid) as [Hp Hs].
    apply Cutoff_answers; [rewrite Hpar; exact Hp | exact Hs]. }
  assert (nodes basic <> []) as Hnb.
  { destruct mcs_ids as [|i rest]; [contradiction|].
    destruct (mcs_parents kb i) as [[id0 id1]|] eqn:Ep.
    - intro E. assert (In id0 (nodes basic)) as Hin.
      { apply Hn. exists i, id0, id1. cbn. auto. }
      rewrite E in Hin. destruct Hin.
    - exfalso. apply (Hk i); [left; reflexivity | exact Ep]. }
  assert (forall id id0 id1, In id mcs_ids -> mcs_parents kb' id = Some (id0, id1) ->
                             In id0 (nodes basic) /\ In id1 (nodes basic)) as Hpn.
  { intros id id0 id1 Hid Hp. rewrite Hpar in Hp.
    split; apply Hn; exists id, id0, id1; auto. }
  pose proof (fun c => @create_ok_with_cluster kb' basic mcs_ids c Hans Hnb Hpn) as Hall.
  destruct (Hall 1%Q) as [gc [lc [Egc _]]].
  destruct (Hall simi_cutoff) as [gd [ld [Egd Eld]]].
  exists (mkBuilt kb' basic gc gd (sorted_clusters gd) ld out).
  split; [|exact Hall].
  unfold build_graphs. rewrite Hdep. cbn [bind]. fold basic.
  rewrite Egc. cbn [bind]. rewrite Egd. cbn [bind]. rewrite Eld. reflexivity.
Qed.

Lemma complete_within_searched (fuel : nat) (kb : kbase) (mcs_ids : list string)
  (basic_rule : Rule) (simi_cutoff : Q) (max_csize : Z) (b : built) (s : searched) :
  (simi_cutoff <= 1)%Q ->
  build_graphs kb mcs_ids basic_rule simi_cutoff = Ok b ->
  threshold_search fuel (b_kb b) (b_basic b) mcs_ids simi_cutoff max_csize
    (b_desired b) (b_clusters b) (b_largest b) (b_out b) = Some (Ok s) ->
  wf_graph (s_desired s) /\
  s_clusters s = sorted_clusters (s_desired s) /\
  forall u v, has_edge (b_complete b) u v = true ->
              has_edge (s_desired s) u v = true.
Proof.
  intros Hc Hb Hs.
  destruct (build_graphs_consistent _ _ _ _ Hb)
    as [Hwf [Hno [Hans [Hcomp [Hdes [Hclu Hlar]]]]]].
  rewrite Hclu in Hs, Hlar.
  destruct (@threshold_search_consistent fuel (b_kb b) (b_basic b) mcs_ids
              simi_cutoff max_csize (b_desired b) (b_largest b) (b_out b) s
              Hdes Hlar Hs) as [Hd' [Hc' _]].
  pose proof (@threshold_search_ordered fuel (b_kb b) (b_basic b) mcs_ids
                simi_cutoff max_csize (b_desired b)
                (sorted_clusters (b_desired b)) (b_largest b) (b_out b) s
                Hc Hs) as Hmid.
  split; [eapply create_wf; [exact Hwf | exact Hd']|].
  split; [exact Hc'|].
  intros u v Hu.
  destruct (@create_from_ok (b_kb b) (Cutoff 1) mcs_ids (b_basic b) (Hans 1))
    as [gc [Ec Hgc]].
  destruct (@create_from_ok (b_kb b) (Cutoff (mid (s_state s))) mcs_ids
              (b_basic b) (Hans (mid (s_state s)))) as [gd [Ed Hgd]].
  unfold create in Hcomp, Hd'. rewrite Ec in Hcomp. rewrite Ed in Hd'.
  injection Hcomp as Egc. injection Hd' as Egd.
  rewrite <- Egd. rewrite <- Egc in Hu.
  apply Hgd. apply Hgc in Hu.
  destruct Hu as [Hu|[id [Hid Hy]]]; [rewrite Hno in Hu; discriminate|].
  right. exists id. split; [exact Hid|].
  apply Cutoff_yields. apply Cutoff_yields in Hy.
  destruct Hy as [id0 [id1 [sim [Hp [Hk [Hpos [H1s Hsp]]]]]]].
  exists id0, id1, sim. repeat split; auto.
  apply Qle_trans with 1%Q; assumption.
Qed.

(** X19: [gen_graph] returns a graph, and raises nothing, whenever there is
    an identifier, every identifier has its parents in the knowledge base,
    the basic rule does not raise, and [simi_cutoff] is at most 1.  (Above 1
    the Connector can raise, see C3.) *)
Theorem gen_graph_succeeds_up_to_cutoff_1 (kb : kbase) (mcs_ids : list string)
  (basic_rule : Rule) (simi_cutoff : Q) (max_csize num_c2c : Z) :
  (forall kb' id0 id1 id, exists simi, basic_rule kb' id0 id1 id = Ok simi) ->
  (forall id, In id mcs_ids -> mcs_parents kb id <> None) ->
  mcs_ids <> [] ->
  (simi_cutoff <= 1)%Q ->
  exists N, forall fuel, (N <= fuel)%nat ->
    exists r, gen_graph fuel kb mcs_ids basic_rule simi_cutoff max_csize num_c2c
              = Some (Ok r).
Proof.
  intros Hr Hk Hne Hc.
  destruct (@build_graphs_ok kb mcs_ids basic_rule simi_cutoff Hr Hk Hne)
    as [b [Hb Hall]].
  destruct (threshold_search (search_passes simi_cutoff) (b_kb b) (b_basic b)
              mcs_ids simi_cutoff max_csize (b_desired b) (b_clusters b)
              (b_largest b) (b_out b)) as [[s|e]|] eqn:E1.
  - destruct (@complete_within_searched _ _ _ _ _ _ _ _ Hc Hb E1)
      as [Hwf [Hcl Hsub]].
    exists (Nat.max (search_passes simi_cutoff) (List.length (s_clusters s))).
    intros fuel Hf. unfold gen_graph. rewrite Hb. cbn [lift].
    rewrite (@threshold_search_mono _ _ _ _ _ _ _ _ _ _ fuel _
               (Nat.le_trans _ _ _ (Nat.le_max_l _ _) Hf) E1).
    cbn [lift_opt]. rewrite Hcl.
    rewrite (@connect_loop_idle (b_complete b) (s_desired s) num_c2c fuel Hwf Hsub).
    + cbn [lift_opt]. eexists. reflexivity.
    + intros i Hi. apply in_seq in Hi. lia.
    + rewrite length_seq. rewrite <- Hcl. lia.
  - exfalso. revert E1. unfold threshold_search.
    destruct (max_csize <? Z.of_nat (List.length (b_largest b)))%Z; [|discriminate].
    apply search_loop_ok. exact Hall.
  - exfalso. revert E1. apply threshold_search_fuel. apply Nat.le_refl.
Qed.

Lemma gen_graph_succeeds_up_to_cutoff_1_witness :
  exists N, forall fuel, (N <= fuel)%nat ->
    exists r, gen_graph fuel Examples.kb_chain ["AB"; "BC"]%string
                (Examples.rule_const (1 # 2)) (3 # 10) 4 1 = Some (Ok r).
Proof.
  apply (@gen_graph_succeeds_up_to_cutoff_1 Examples.kb_chain ["AB"; "BC"]%string
           (Examples.rule_const (1 # 2)) (3 # 10) 4 1).
  - intros kb' id0 id1 id. exists (1 # 2). reflexivity.
  - intros id [<-|[<-|[]]]; discriminate.
  - discriminate.
  - vm_compute. discriminate.
Defined.

(** ** Runs of the statements above on the example *)

Lemma complete_within_desired_witness :
  has_edge (b_desired GenExample.built_chain) "A"%string "B"%string = true.
Proof.
  apply (@complete_within_desired Examples.kb_chain ["AB"; "BC"]%string
           (Examples.rule_const 1) (1 # 2) GenExample.built_chain
           "A"%string "B"%string).
  - vm_compute. discriminate.
  - reflexivity.
  - reflexivity.
Defined.

(** ** What [gen_graph] returns when the Connector is idle *)

(** X18: with a cut-off of at most 1 the Connector of the source finds no
    boundary edge: [complete], built with [rule.Cutoff( 1 )], lies inside the
    desired graph whose components the clusters are.  [gen_graph] then
    returns the graph that the threshold search has left, trimmed and
    otherwise as it is, with the clusters of the search; no edge of it has
    the attribute [boundary]; and the run warns for every cluster. *)
Theorem connector_idle_up_to_cutoff_1 (fuel : nat) (kb : kbase)
  (mcs_ids : list string) (basic_rule : Rule) (simi_cutoff : Q)
  (max_csize num_c2c : Z) (r : generated) :
  (simi_cutoff <= 1)%Q ->
  gen_graph fuel kb mcs_ids basic_rule simi_cutoff max_csize num_c2c = Some (Ok r) ->
  (exists b s,
     build_graphs kb mcs_ids basic_rule simi_cutoff = Ok b /\
     threshold_search fuel (b_kb b) (b_basic b) mcs_ids simi_cutoff max_csize
       (b_desired b) (b_clusters b) (b_largest b) (b_out b) = Some (Ok s) /\
     g_clusters r = s_clusters s /\
     g_desired r = trim_clusters (s_desired s) (s_clusters s) /\
     g_out r = s_out s ++ info_sizes (s_clusters s)
               ++ map WarnCannotConnect (seq 0 (List.length (s_clusters s)))) /\
  (forall e, In e (edges (g_desired r)) -> boundary (ea e) = None) /\
  (forall u v, has_edge (g_desired r) u v = true ->
               same_cluster (g_clusters r) u v).
Proof.
  intros Hc H.
  destruct (connector_idle_run _ _ _ _ _ _ Hc H)
    as [b [s [Hb [Hs [Hcl [Hd Ho]]]]]].
  destruct (build_graphs_consistent _ _ _ _ Hb)
    as [Hwf [_ [_ [_ [Hdes [Hclu Hlar]]]]]].
  destruct (build_graphs_basic _ _ _ _ Hb) as [He _].
  pose proof Hs as Hs'. rewrite Hclu in Hs', Hlar.
  destruct (@threshold_search_consistent fuel (b_kb b) (b_basic b) mcs_ids
              simi_cutoff max_csize (b_desired b) (b_largest b) (b_out b) s
              Hdes Hlar Hs') as [Hcr [Hsc _]].
  assert (wf_graph (s_desired s)) as Hwfs
    by (eapply create_wf; [exact Hwf | exact Hcr]).
  assert (forall e, In e (edges (g_desired r)) -> In e (edges (s_desired s))) as Hin.
  { intros e Hi. rewrite Hd in Hi. eapply trim_clusters_edges_incl. exact Hi. }
  split; [exists b, s; auto 10|]. split.
  - intros e Hi.
    destruct (@create_written _ _ _ _ _ He Hcr e (Hin e Hi))
      as [id [id0 [id1 [simi [_ [_ [_ [_ [_ E]]]]]]]]].
    rewrite E. reflexivity.
  - intros u v Huv. apply has_edge_true in Huv.
    destruct Huv as [e [Hi Hsp]].
    rewrite Hcl, Hsc.
    pose proof (@desired_edge_same_cluster (s_desired s) e Hwfs (Hin e Hi))
      as [c [Hcin [Hu Hv]]].
    exists c. split; [exact Hcin|].
    destruct Hsp as [[<- <-]|[<- <-]]; auto.
Qed.

Lemma connector_idle_up_to_cutoff_1_witness :
  (exists b s,
     build_graphs Examples.kb_chain ["AB"; "BC"]%string
                  (Examples.rule_const (1 # 2)) (3 # 10) = Ok b /\
     threshold_search 5 (b_kb b) (b_basic b) ["AB"; "BC"]%string (3 # 10) 4
       (b_desired b) (b_clusters b) (b_largest b) (b_out b) = Some (Ok s) /\
     g_clusters GenExample.plain = s_clusters s /\
     g_desired GenExample.plain = trim_clusters (s_desired s) (s_clusters s) /\
     g_out GenExample.plain
     = s_out s ++ info_sizes (s_clusters s)
       ++ map WarnCannotConnect (seq 0 (List.length (s_clusters s)))) /\
  (forall e, In e (edges (g_desired GenExample.plain)) -> boundary (ea e) = None) /\
  (forall u v, has_edge (g_desired GenExample.plain) u v = true ->
               same_cluster (g_clusters GenExample.plain) u v).
Proof.
  apply (@connector_idle_up_to_cutoff_1 5 Examples.kb_chain ["AB"; "BC"]%string
           (Examples.rule_const (1 # 2)) (3 # 10) 4 1 GenExample.plain).
  - vm_compute. discriminate.
  - vm_compute. reflexivity.
Defined.

(** * Properties of [build.py] *)

(** ** Arrays *)

Lemma set_nth_spec {A : Type} (l : list A) :
  forall i x,
  (i < List.length l)%nat ->
  exists l', set_nth l i x = Ok l' /\
             List.length l' = List.length l /\
             forall k, nth_error l' k = if (k =? i)%nat then Some x else nth_error l k.
Proof.
  induction l as [|y l IH]; intros i x Hi; [cbn in Hi; lia|].
  destruct i as [|i].
  - exists (x :: l). split; [reflexivity|]. split; [reflexivity|].
    intros [|k]; reflexivity.
  - cbn [List.length] in Hi.
    destruct (IH i x ltac:(lia)) as [l' [E [Hl Hn]]].
    exists (y :: l'). cbn [set_nth]. rewrite E. split; [reflexivity|].
    split; [cbn [List.length]; lia|].
    intros [|k]; [reflexivity|]. cbn [nth_error]. rewrite Hn. reflexivity.
Qed.

Lemma zeros_square (n : nat) : square n (zeros n n).
Proof.
  unfold square, zeros. split; [apply repeat_length|].
  intros row Hr. apply repeat_spec in Hr. subst row. apply repeat_length.
Qed.

Lemma mget_zeros (n a b : nat) :
  (a < n)%nat -> (b < n)%nat -> mget (zeros n n) a b = Some 0%Q.
Proof.
  intros Ha Hb. unfold mget, zeros.
  rewrite (nth_error_repeat _ Ha). apply nth_error_repeat. exact Hb.
Qed.

Lemma mget_square (n : nat) (scores : list (list Q)) (a b : nat) :
  square n scores -> (a < n)%nat -> (b < n)%nat ->
  exists v, mget scores a b = Some v.
Proof.
  intros [Hl Hr] Ha Hb. unfold mget.
  destruct (nth_error scores a) as [row|] eqn:E.
  - apply nth_error_In in E as Hin. apply Hr in Hin.
    destruct (nth_error row b) as [v|] eqn:E2; [exists v; reflexivity|].
    apply nth_error_None in E2. lia.
  - apply nth_error_None in E. lia.
Qed.

Lemma mset_spec (n : nat) (scores : list (list Q)) (i j : nat) (v : Q) :
  square n scores -> (i < n)%nat -> (j < n)%nat ->
  exists scores',
    mset scores i j v = Ok scores' /\ square n scores' /\
    forall a b, mget scores' a b
                = if ((a =? i) && (b =? j))%nat then Some v else mget scores a b.
Proof.
  intros [Hl Hr] Hi Hj. unfold mset.
  destruct (nth_error scores i) as [row|] eqn:Erow.
  2:{ apply nth_error_None in Erow. lia. }
  cbn [bind].
  assert (List.length row = n) as Hrow by (apply Hr; eapply nth_error_In; exact Erow).
  destruct (@set_nth_spec _ row j v ltac:(lia)) as [row' [E1 [Hl1 Hn1]]].
  rewrite E1. cbn [bind].
  destruct (@set_nth_spec _ scores i row' ltac:(lia)) as [s' [E2 [Hl2 Hn2]]].
  exists s'. split; [exact E2|]. split.
  - split; [lia|]. intros r Hin.
    apply In_nth_error in Hin. destruct Hin as [k Hk].
    rewrite Hn2 in Hk. destruct (k =? i)%nat.
    + injection Hk as <-. lia.
    + apply Hr. eapply nth_error_In. exact Hk.
  - intros a b. unfold mget. rewrite Hn2.
    destruct (a =? i)%nat eqn:Ea.
    + apply Nat.eqb_eq in Ea. subst a. rewrite Hn1, Erow.
      cbn [andb]. destruct (b =? j)%nat; reflexivity.
    + reflexivity.
Qed.

(** ** The loops that fill the array *)

Lemma list_item_ok (l : list string) (i : nat) :
  (i < List.length l)%nat -> exists x, nth_error l i = Some x /\ list_item l i = Ok x.
Proof.
  intro Hi. unfold list_item.
  destruct (nth_error l i) as [x|] eqn:E; [exists x; auto|].
  apply nth_error_None in E. lia.
Qed.

Lemma fill_row_spec (titles : list string) (tvs : list (string * string * Q))
  (n i : nat) :
  List.length titles = n -> (i < n)%nat ->
  forall js scores,
  square n scores ->
  (forall j, In j js -> (j < n)%nat /\ j <> i) ->
  exists scores',
    fill_row titles tvs i js scores = Ok scores' /\ square n scores' /\
    forall a b, mget scores' a b = row_filled titles tvs i js scores a b.
Proof.
  intros Hn Hi. induction js as [|j js IH]; intros scores Hsq Hjs.
  - exists scores. split; [reflexivity|]. split; [exact Hsq|].
    intros a b. unfold row_filled. cbn [existsb]. rewrite !andb_false_r. reflexivity.
  - destruct (Hjs j (or_introl eq_refl)) as [Hj Hji].
    assert (forall k, In k js -> (k < n)%nat /\ k <> i) as Hjs'.
    { intros k Hk. apply Hjs. right. exact Hk. }
    destruct (@list_item_ok titles i ltac:(lia)) as [ti [Eti Hti]].
    destruct (@list_item_ok titles j ltac:(lia)) as [tj [Etj Htj]].
    cbn [fill_row]. rewrite Hti, Htj. cbn [bind].
    assert (pair_key titles tvs i j = dict_get pair_eqb tvs (ti, tj)) as Hkey.
    { unfold pair_key. rewrite Eti, Etj. reflexivity. }
    destruct (dict_get pair_eqb tvs (ti, tj)) as [simi|] eqn:Ed.
    + destruct (@mset_spec n scores i j simi Hsq Hi Hj) as [s1 [E1 [Hsq1 H1]]].
      destruct (@mset_spec n s1 j i simi Hsq1 Hj Hi) as [s2 [E2 [Hsq2 H2]]].
      rewrite E1. cbn [bind]. rewrite E2. cbn [bind].
      destruct (IH s2 Hsq2 Hjs') as [s' [E' [Hsq' H']]].
      exists s'. split; [exact E'|]. split; [exact Hsq'|].
      intros a b. rewrite H'. unfold row_filled. rewrite H2, H1.
      cbn [existsb].
      destruct (Nat.eqb_spec a i) as [->|Hai]; destruct (Nat.eqb_spec b i) as [->|Hbi];
        destruct (Nat.eqb_spec i j) as [Hij|Hij]; try (exfalso; congruence);
        cbn [andb orb].
      * destruct (existsb (Nat.eqb i) js) eqn:Ex; [|reflexivity].
        exfalso. apply existsb_exists in Ex. destruct Ex as [k [Hk Ek]].
        apply Nat.eqb_eq in Ek. subst k. destruct (Hjs' i Hk) as [_ Hc]. congruence.
      * destruct (Nat.eqb_spec b j) as [->|Hbj]; cbn [andb orb].
        -- rewrite Hkey. destruct (existsb (Nat.eqb j) js); reflexivity.
        -- destruct (existsb (Nat.eqb b) js); reflexivity.
      * destruct (Nat.eqb_spec a j) as [->|Haj]; cbn [andb orb].
        -- rewrite Hkey. destruct (existsb (Nat.eqb j) js); reflexivity.
        -- destruct (existsb (Nat.eqb a) js); reflexivity.
      * destruct (Nat.eqb_spec a j); destruct (Nat.eqb_spec b j);
          cbn [andb orb]; reflexivity.
    + destruct (IH scores Hsq Hjs') as [s' [E' [Hsq' H']]].
      exists s'. split; [exact E'|]. split; [exact Hsq'|].
      intros a b. rewrite H'. unfold row_filled. cbn [existsb].
      destruct (Nat.eqb_spec a i) as [->|Hai]; destruct (Nat.eqb_spec b i) as [->|Hbi];
        cbn [andb orb].
      * destruct (Nat.eqb_spec i j) as [Hij|Hij]; [exfalso; congruence|].
        cbn [orb]. reflexivity.
      * destruct (Nat.eqb_spec b j) as [->|Hbj]; cbn [orb]; [|reflexivity].
        rewrite Hkey. destruct (existsb (Nat.eqb j) js); reflexivity.
      * destruct (Nat.eqb_spec a j) as [->|Haj]; cbn [orb]; [|reflexivity].
        rewrite Hkey. destruct (existsb (Nat.eqb j) js); reflexivity.
      * reflexivity.
Qed.

Lemma existsb_seq (b s l : nat) :
  existsb (Nat.eqb b) (seq s l) = ((s <=? b) && (b <? s + l))%nat.
Proof.
  destruct (existsb (Nat.eqb b) (seq s l)) eqn:E.
  - apply existsb_exists in E. destruct E as [k [Hk Ek]].
    apply Nat.eqb_eq in Ek. subst k. apply in_seq in Hk.
    symmetry. apply andb_true_iff. split; [apply Nat.leb_le | apply Nat.ltb_lt]; lia.
  - symmetry. apply not_true_is_false. intro H. apply andb_true_iff in H.
    destruct H as [H1 H2]. apply Nat.leb_le in H1. apply Nat.ltb_lt in H2.
    assert (existsb (Nat.eqb b) (seq s l) = true) as Ht.
    { apply existsb_exists. exists b. split; [apply in_seq; lia | apply Nat.eqb_refl]. }
    congruence.
Qed.

Lemma fill_rows_spec (titles : list string) (tvs : list (string * string * Q))
  (n : nat) :
  List.length titles = n ->
  forall is_ scores,
  square n scores ->
  (forall i, In i is_ -> (i < n)%nat) ->
  exists scores',
    fill_rows titles tvs n is_ scores = Ok scores' /\ square n scores' /\
    forall a b, (a < n)%nat -> (b < n)%nat ->
                mget scores' a b = rows_filled titles tvs is_ scores a b.
Proof.
  intro Hn. induction is_ as [|i rest IH]; intros scores Hsq His.
  - exists scores. split; [reflexivity|]. split; [exact Hsq|].
    intros a b _ _. unfold rows_filled. cbn [existsb].
    destruct (a =? b)%nat; reflexivity.
  - assert (i < n)%nat as Hi by (apply His; left; reflexivity).
    assert (forall k, In k rest -> (k < n)%nat) as His'.
    { intros k Hk. apply His. right. exact Hk. }
    cbn [fill_rows].
    destruct (@mset_spec n scores i i 1%Q Hsq Hi Hi) as [s1 [E1 [Hsq1 H1]]].
    rewrite E1. cbn [bind].
    destruct (@fill_row_spec titles tvs n i Hn Hi (seq (i + 1) (n - (i + 1))) s1 Hsq1)
      as [s2 [E2 [Hsq2 H2]]].
    { intros j Hj. apply in_seq in Hj. lia. }
    rewrite E2. cbn [bind].
    destruct (IH s2 Hsq2 His') as [s' [E' [Hsq' H']]].
    exists s'. split; [exact E'|]. split; [exact Hsq'|].
    intros a b Ha Hb. rewrite (H' a b Ha Hb).
    unfold rows_filled. rewrite !H2. unfold row_filled.
    rewrite !existsb_seq, !H1. cbn [existsb].
    destruct (Nat.eqb_spec a b) as [->|Hab].
    + (* the diagonal *)
      destruct (Nat.eqb_spec b i) as [->|Hbi]; cbn [andb orb].
      * replace (i + 1 <=? i)%nat with false by (symmetry; apply Nat.leb_gt; lia).
        cbn [andb]. destruct (existsb (Nat.eqb i) rest); reflexivity.
      * reflexivity.
    + destruct (Nat.lt_total a b) as [Hlt|[Heq|Hgt]]; [|contradiction|].
      * rewrite (Nat.min_l a b), (Nat.max_r a b) by lia.
        destruct (Nat.eqb_spec a i) as [->|Hai]; cbn [andb orb].
        -- replace (i + 1 <=? b)%nat with true by (symmetry; apply Nat.leb_le; lia).
           replace (b <? i + 1 + (n - (i + 1)))%nat with true
             by (symmetry; apply Nat.ltb_lt; lia).
           cbn [andb].
           destruct (Nat.eqb_spec b i) as [->|Hbi]; [lia|]. cbn [andb].
           destruct (pair_key titles tvs i b);
             destruct (existsb (Nat.eqb i) rest); reflexivity.
        -- destruct (Nat.eqb_spec b i) as [->|Hbi]; cbn [andb orb].
           ++ replace (i + 1 <=? a)%nat with false by (symmetry; apply Nat.leb_gt; lia).
              cbn [andb]. reflexivity.
           ++ reflexivity.
      * rewrite (Nat.min_r a b), (Nat.max_l a b) by lia.
        destruct (Nat.eqb_spec b i) as [->|Hbi]; cbn [andb orb].
        -- destruct (Nat.eqb_spec a i) as [->|Hai]; [lia|]. cbn [andb].
           replace (i + 1 <=? a)%nat with true by (symmetry; apply Nat.leb_le; lia).
           replace (a <? i + 1 + (n - (i + 1)))%nat with true
             by (symmetry; apply Nat.ltb_lt; lia).
           cbn [andb].
           destruct (pair_key titles tvs i a);
             destruct (existsb (Nat.eqb i) rest); reflexivity.
        -- destruct (Nat.eqb_spec a i) as [->|Hai]; cbn [andb orb].
           ++ replace (i + 1 <=? b)%nat with false by (symmetry; apply Nat.leb_gt; lia).
              cbn [andb]. reflexivity.
           ++ reflexivity.
Qed.

(** ** Dictionaries and the lists of [matrix] *)

Lemma dict_get_set {K V : Type} (eqb : K -> K -> bool) :
  (forall a b, eqb a b = true <-> a = b) ->
  forall (d : list (K * V)) (k : K) (v : V) (k' : K),
  dict_get eqb (dict_set eqb d k v) k'
  = if eqb k k' then Some v else dict_get eqb d k'.
Proof.
  intros Heq d k v k'. induction d as [|[k0 v0] d IH].
  - reflexivity.
  - cbn [dict_set]. destruct (eqb k0 k) eqn:E0.
    + apply Heq in E0. subst k0. cbn [dict_get].
      destruct (eqb k k'); reflexivity.
    + cbn [dict_get]. rewrite IH.
      destruct (eqb k0 k') eqn:E1; [|reflexivity].
      apply Heq in E1. subst k0.
      destruct (eqb k k') eqn:E2; [|reflexivity].
      apply Heq in E2. subst k'.
      assert (eqb k k = true) as Hr by (apply Heq; reflexivity). congruence.
Qed.

Lemma pair_eqb_eq (a b : string * string) : pair_eqb a b = true <-> a = b.
Proof.
  unfold pair_eqb. destruct a as [a1 a2], b as [b1 b2]. cbn [fst snd].
  rewrite andb_true_iff, !String.eqb_eq. split.
  - intros [-> ->]. reflexivity.
  - intro H. injection H as -> ->. auto.
Qed.

Lemma list_mols_spec (filename : string -> option string) (mols : list mol) :
  forall st st',
  list_mols filename st mols = Ok st' ->
  (forall id, dict_get String.eqb (id_vs_title st') id
              = match last_title mols id with
                | Some t => Some t
                | None => dict_get String.eqb (id_vs_title st) id
                end) /\
  (forall t, In t (title_list st') <->
             In t (title_list st) \/ exists m, In m mols /\ mol_title m = t) /\
  (forall i, In i (id_list st') <->
             In i (id_list st) \/ exists m, In m mols /\ mol_id m = i) /\
  (NoDup (title_list st) -> NoDup (title_list st')) /\
  (NoDup (id_list st) -> NoDup (id_list st')).
Proof.
  induction mols as [|m rest IH]; intros st st' H.
  - injection H as <-. cbn [last_title].
    split; [reflexivity|].
    split; [intro t; split; [auto | intros [Ht|[m [[] _]]]; exact Ht]|].
    split; [intro i; split; [auto | intros [Hi|[m [[] _]]]; exact Hi]|].
    auto.
  - cbn [list_mols] in H. unfold list_mol in H.
    destruct (filename (mol_id m)) as [path|]; [|discriminate].
    cbn [ask bind] in H. apply IH in H.
    cbn [id_vs_title title_list id_list] in H.
    destruct H as [H1 [H2 [H3 [H4 H5]]]].
    split; [|split; [|split; [|split]]].
    + intro id. rewrite H1. cbn [last_title].
      destruct (last_title rest id); [reflexivity|].
      rewrite (dict_get_set String.eqb String.eqb_eq).
      destruct (String.eqb (mol_id m) id); reflexivity.
    + intro t. rewrite H2, add_node_In. split.
      * intros [[Ht| ->]|[m' [Hm Ht]]]; [auto | |].
        -- right. exists m. split; [left; reflexivity | reflexivity].
        -- right. exists m'. split; [right; exact Hm | exact Ht].
      * intros [Ht|[m' [[<-|Hm] Ht]]]; [auto | auto |].
        right. exists m'. auto.
    + intro i. rewrite H3, add_node_In. split.
      * intros [[Hi| ->]|[m' [Hm Hi]]]; [auto | |].
        -- right. exists m. split; [left; reflexivity | reflexivity].
        -- right. exists m'. split; [right; exact Hm | exact Hi].
      * intros [Hi|[m' [[<-|Hm] Hi]]]; [auto | auto |].
        right. exists m'. auto.
    + intro Hnd. apply H4. apply add_node_NoDup. exact Hnd.
    + intro Hnd. apply H5. apply add_node_NoDup. exact Hnd.
Qed.

Lemma title_simi_step_spec (kb : kbase) (rule : Rule) (mols : list mol)
  (ivt : list (string * string)) (tvs tvs' : list (string * string * Q))
  (id : string) :
  (forall i, dict_get String.eqb ivt i = last_title mols i) ->
  title_simi_step kb rule ivt tvs id = Ok tvs' ->
  exists id0 id1 simi key,
    mcs_parents kb id = Some (id0, id1) /\ rule kb id0 id1 id = Ok simi /\
    parent_titles kb mols id = Some key /\
    tvs' = dict_set pair_eqb tvs key simi.
Proof.
  intros Hivt H. unfold title_simi_step, get_parent_ids in H.
  unfold parent_titles.
  destruct (mcs_parents kb id) as [[id0 id1]|]; [|discriminate].
  cbn [ask bind] in H.
  destruct (rule kb id0 id1 id) as [simi|] eqn:Er; [|discriminate].
  cbn [bind] in H. unfold dict_item in H. rewrite !Hivt in H.
  destruct (last_title mols id0) as [t0|]; [|discriminate].
  cbn [bind] in H.
  destruct (last_title mols id1) as [t1|]; [|discriminate].
  cbn [bind] in H. injection H as <-.
  exists id0, id1, simi, (t0, t1). auto.
Qed.

Lemma title_simi_untouched (kb : kbase) (rule : Rule) (mols : list mol)
  (ivt : list (string * string)) (key : string * string) :
  (forall i, dict_get String.eqb ivt i = last_title mols i) ->
  forall ids tvs tvs',
  title_simi kb rule ivt tvs ids = Ok tvs' ->
  (forall id, In id ids -> parent_titles kb mols id <> Some key) ->
  dict_get pair_eqb tvs' key = dict_get pair_eqb tvs key.
Proof.
  intro Hivt. induction ids as [|id rest IH]; intros tvs tvs' H Hno.
  - injection H as <-. reflexivity.
  - cbn [title_simi] in H.
    destruct (title_simi_step kb rule ivt tvs id) as [tvs1|] eqn:Es; [|discriminate].
    cbn [bind] in H.
    destruct (@title_simi_step_spec _ _ mols _ _ _ _ Hivt Es)
      as [id0 [id1 [simi [k [_ [_ [Hk ->]]]]]]].
    rewrite (IH _ _ H); [|intros i Hi; apply Hno; right; exact Hi].
    rewrite (dict_get_set pair_eqb pair_eqb_eq).
    destruct (pair_eqb k key) eqn:E; [|reflexivity].
    apply pair_eqb_eq in E. subst k. exfalso.
    apply (Hno id); [left; reflexivity | exact Hk].
Qed.

Lemma title_simi_last (kb : kbase) (rule : Rule) (mols : list mol)
  (ivt : list (string * string)) (key : string * string) :
  (forall i, dict_get String.eqb ivt i = last_title mols i) ->
  forall pre id post id0 id1 simi tvs tvs',
  title_simi kb rule ivt tvs (pre ++ id :: post) = Ok tvs' ->
  parent_titles kb mols id = Some key ->
  (forall i, In i post -> parent_titles kb mols i <> Some key) ->
  mcs_parents kb id = Some (id0, id1) -> rule kb id0 id1 id = Ok simi ->
  dict_get pair_eqb tvs' key = Some simi.
Proof.
  intro Hivt. induction pre as [|p pre IH];
    intros id post id0 id1 simi tvs tvs' H Hk Hpost Hp Hr.
  - cbn [app title_simi] in H.
    destruct (title_simi_step kb rule ivt tvs id) as [tvs1|] eqn:Es; [|discriminate].
    cbn [bind] in H.
    destruct (@title_simi_step_spec _ _ mols _ _ _ _ Hivt Es)
      as [a [b [s [k [Hp' [Hr' [Hk' ->]]]]]]].
    rewrite Hp in Hp'. injection Hp' as <- <-.
    rewrite Hr in Hr'. injection Hr' as <-.
    rewrite Hk in Hk'. injection Hk' as <-.
    rewrite (@title_simi_untouched _ _ _ _ key Hivt _ _ _ H Hpost).
    rewrite (dict_get_set pair_eqb pair_eqb_eq).
    assert (pair_eqb key key = true) as E by (apply pair_eqb_eq; reflexivity).
    rewrite E. reflexivity.
  - cbn [app title_simi] in H.
    destruct (title_simi_step kb rule ivt tvs p) as [tvs1|]; [|discriminate].
    cbn [bind] in H.
    eapply IH; eassumption.
Qed.

(** ** What [matrix] returns *)

Lemma matrix_parts (filename : string -> option string) (kb : kbase)
  (mols : list mol) (mcs_ids : list string) (rule : Rule)
  (titles ids : list string) (fvt : list (string * string))
  (scores : list (list Q)) :
  matrix filename kb mols mcs_ids rule = Ok (titles, ids, fvt, scores) ->
  exists st tvs,
    list_mols filename (mkListed [] [] [] []) mols = Ok st /\
    titles = title_list st /\ ids = id_list st /\
    title_simi kb rule (id_vs_title st) [] mcs_ids = Ok tvs /\
    (forall i, dict_get String.eqb (id_vs_title st) i = last_title mols i) /\
    square (List.length titles) scores /\
    forall a b, (a < List.length titles)%nat -> (b < List.length titles)%nat ->
      mget scores a b
      = if (a =? b)%nat then Some 1%Q
        else match pair_key titles tvs (Nat.min a b) (Nat.max a b) with
             | Some s => Some s
             | None => Some 0%Q
             end.
Proof.
  unfold matrix. intro H.
  destruct (list_mols filename (mkListed [] [] [] []) mols) as [st|] eqn:El;
    [|discriminate].
  cbn [bind] in H.
  destruct (title_simi kb rule (id_vs_title st) [] mcs_ids) as [tvs|] eqn:Et;
    [|discriminate].
  cbn [bind] in H.
  set (n := List.length (title_list st)) in *.
  destruct (@fill_rows_spec (title_list st) tvs n eq_refl (seq 0 n) (zeros n n)
              (zeros_square n)) as [s' [Es [Hsq Hget]]].
  { intros i Hi. apply in_seq in Hi. lia. }
  rewrite Es in H. cbn [bind] in H. injection H as <- <- <- <-.
  exists st, tvs.
  split; [reflexivity|]. split; [reflexivity|]. split; [reflexivity|].
  split; [exact Et|].
  split.
  { intro i. destruct (list_mols_spec _ _ _ El) as [H1 _].
    rewrite H1. cbn [id_vs_title dict_get]. destruct (last_title mols i); reflexivity. }
  fold n. split; [exact Hsq|].
  intros a b Ha Hb. rewrite (Hget a b Ha Hb). unfold rows_filled.
  rewrite !existsb_seq, (mget_zeros Ha Hb).
  destruct (a =? b)%nat.
  - replace (0 <=? a)%nat with true by (symmetry; apply Nat.leb_le; lia).
    replace (a <? 0 + n)%nat with true by (symmetry; apply Nat.ltb_lt; lia).
    reflexivity.
  - replace (0 <=? Nat.min a b)%nat with true by (symmetry; apply Nat.leb_le; lia).
    replace (Nat.min a b <? 0 + n)%nat with true by (symmetry; apply Nat.ltb_lt; lia).
    reflexivity.
Qed.

(** X20: the array that [matrix] returns is square, with one row for every
    title of the returned title list; it is symmetric and has 1 on its
    diagonal.  The title list holds the titles of [mols], each once, so two
    molecules of one title share a row. *)
Theorem matrix_is_symmetric_with_unit_diagonal
  (filename : string -> option string) (kb : kbase)
  (mols : list mol) (mcs_ids : list string) (rule : Rule)
  (titles ids : list string) (fvt : list (string * string))
  (scores : list (list Q)) :
  matrix filename kb mols mcs_ids rule = Ok (titles, ids, fvt, scores) ->
  square (List.length titles) scores /\
  NoDup titles /\
  (forall t, In t titles <-> exists m, In m mols /\ mol_title m = t) /\
  forall i j, (i < List.length titles)%nat -> (j < List.length titles)%nat ->
    exists v, mget scores i j = Some v /\ mget scores j i = Some v /\
              (i = j -> v = 1%Q).
Proof.
  intro H. apply matrix_parts in H.
  destruct H as [st [tvs [Hl [-> [-> [_ [_ [Hsq Hget]]]]]]]].
  destruct (list_mols_spec _ _ _ Hl) as [_ [H2 [_ [H4 _]]]].
  cbn [title_list] in H2, H4.
  split; [exact Hsq|].
  split; [apply H4; constructor|].
  split.
  { intro t. rewrite H2. cbn [In]. tauto. }
  intros i j Hi Hj.
  rewrite (Hget i j Hi Hj), (Hget j i Hj Hi).
  rewrite (Nat.eqb_sym j i), (Nat.min_comm j i), (Nat.max_comm j i).
  destruct (Nat.eqb_spec i j) as [E|E].
  - exists 1%Q. auto.
  - destruct (pair_key (title_list st) tvs (Nat.min i j) (Nat.max i j)) as [s|].
    + exists s. split; [reflexivity|]. split; [reflexivity | contradiction].
    + exists 0%Q. split; [reflexivity|]. split; [reflexivity | contradiction].
Qed.

Lemma matrix_is_symmetric_with_unit_diagonal_witness :
  square (List.length ["A"; "B"]%string) [[1; 1 # 2]; [1 # 2; 1]]%Q /\
  NoDup ["A"; "B"]%string /\
  (forall t, In t ["A"; "B"]%string <->
             exists m, In m MatrixExample.mols /\ mol_title m = t) /\
  forall i j, (i < List.length ["A"; "B"]%string)%nat ->
              (j < List.length ["A"; "B"]%string)%nat ->
    exists v, mget [[1; 1 # 2]; [1 # 2; 1]]%Q i j = Some v /\
              mget [[1; 1 # 2]; [1 # 2; 1]]%Q j i = Some v /\
              (i = j -> v = 1%Q).
Proof.
  apply (@matrix_is_symmetric_with_unit_diagonal MatrixExample.filename
           MatrixExample.kb MatrixExample.mols ["ab"]%string
           MatrixExample.rule_half ["A"; "B"]%string ["a"; "b"]%string
           [("a.mol2", "A"); ("b.mol2", "B")]%string).
  vm_compute. reflexivity.
Defined.

(** X21: [matrix] reads [title_vs_simi] only under the pair (title of row
    [i], title of row [j]) with [i < j].  When no identifier has parents
    with these two titles in this order, the score of the two rows is 0; an
    identifier whose parents come in the other order does not count. *)
Theorem matrix_needs_the_parents_in_row_order
  (filename : string -> option string) (kb : kbase)
  (mols : list mol) (mcs_ids : list string) (rule : Rule)
  (titles ids : list string) (fvt : list (string * string))
  (scores : list (list Q)) (i j : nat) (ti tj : string) :
  matrix filename kb mols mcs_ids rule = Ok (titles, ids, fvt, scores) ->
  (i < j)%nat ->
  nth_error titles i = Some ti -> nth_error titles j = Some tj ->
  (forall id, In id mcs_ids -> parent_titles kb mols id <> Some (ti, tj)) ->
  mget scores i j = Some 0%Q /\ mget scores j i = Some 0%Q.
Proof.
  intros H Hij Hti Htj Hno. apply matrix_parts in H.
  destruct H as [st [tvs [Hl [-> [-> [Ht [Hivt [Hsq Hget]]]]]]]].
  assert (i < List.length (title_list st))%nat as Hi
    by (apply nth_error_Some; congruence).
  assert (j < List.length (title_list st))%nat as Hj
    by (apply nth_error_Some; congruence).
  assert (pair_key (title_list st) tvs i j = None) as Hk.
  { unfold pair_key. rewrite Hti, Htj.
    rewrite (@title_simi_untouched _ _ _ _ (ti, tj) Hivt _ _ _ Ht Hno).
    reflexivity. }
  rewrite (Hget i j Hi Hj), (Hget j i Hj Hi).
  replace (i =? j)%nat with false by (symmetry; apply Nat.eqb_neq; lia).
  replace (j =? i)%nat with false by (symmetry; apply Nat.eqb_neq; lia).
  rewrite (Nat.min_l i j), (Nat.max_r i j), (Nat.min_r j i), (Nat.max_l j i) by lia.
  rewrite Hk. auto.
Qed.

Lemma matrix_needs_the_parents_in_row_order_witness :
  mget [[1; 0]; [0; 1]]%Q 0 1 = Some 0%Q /\ mget [[1; 0]; [0; 1]]%Q 1 0 = Some 0%Q.
Proof.
  apply (@matrix_needs_the_parents_in_row_order MatrixExample.filename
           MatrixExample.kb MatrixExample.mols ["ba"]%string
           MatrixExample.rule_half ["A"; "B"]%string ["a"; "b"]%string
           [("a.mol2", "A"); ("b.mol2", "B")]%string [[1; 0]; [0; 1]]%Q
           0%nat 1%nat "A"%string "B"%string).
  - vm_compute. reflexivity.
  - lia.
  - reflexivity.
  - reflexivity.
  - intros id [<-|[]]. vm_compute. discriminate.
Defined.

(** X22: when an identifier has parents whose titles stand in the rows [i]
    and [j], [i < j], in this order, the score of the two rows is the
    similarity that the rule gives for the last such identifier of
    [mcs_ids]. *)
Theorem matrix_score_is_the_last_similarity
  (filename : string -> option string) (kb : kbase)
  (mols : list mol) (rule : Rule) (pre post : list string) (id : string)
  (id0 id1 : node) (simi : Q)
  (titles ids : list string) (fvt : list (string * string))
  (scores : list (list Q)) (i j : nat) (ti tj : string) :
  matrix filename kb mols (pre ++ id :: post) rule = Ok (titles, ids, fvt, scores) ->
  (i < j)%nat ->
  nth_error titles i = Some ti -> nth_error titles j = Some tj ->
  mcs_parents kb id = Some (id0, id1) -> rule kb id0 id1 id = Ok simi ->
  parent_titles kb mols id = Some (ti, tj) ->
  (forall id', In id' post -> parent_titles kb mols id' <> Some (ti, tj)) ->
  mget scores i j = Some simi /\ mget scores j i = Some simi.
Proof.
  intros H Hij Hti Htj Hp Hr Hk Hpost. apply matrix_parts in H.
  destruct H as [st [tvs [Hl [-> [-> [Ht [Hivt [Hsq Hget]]]]]]]].
  assert (i < List.length (title_list st))%nat as Hi
    by (apply nth_error_Some; congruence).
  assert (j < List.length (title_list st))%nat as Hj
    by (apply nth_error_Some; congruence).
  assert (pair_key (title_list st) tvs i j = Some simi) as Hkey.
  { unfold pair_key. rewrite Hti, Htj.
    exact (@title_simi_last _ _ _ _ (ti, tj) Hivt _ _ _ _ _ _ _ _ Ht Hk Hpost Hp Hr). }
  rewrite (Hget i j Hi Hj), (Hget j i Hj Hi).
  replace (i =? j)%nat with false by (symmetry; apply Nat.eqb_neq; lia).
  replace (j =? i)%nat with false by (symmetry; apply Nat.eqb_neq; lia).
  rewrite (Nat.min_l i j), (Nat.max_r i j), (Nat.min_r j i), (Nat.max_l j i) by lia.
  rewrite Hkey. auto.
Qed.

Lemma matrix_score_is_the_last_similarity_witness :
  mget [[1; 1 # 2]; [1 # 2; 1]]%Q 0 1 = Some (1 # 2)%Q /\
  mget [[1; 1 # 2]; [1 # 2; 1]]%Q 1 0 = Some (1 # 2)%Q.
Proof.
  apply (@matrix_score_is_the_last_similarity MatrixExample.filename
           MatrixExample.kb MatrixExample.mols MatrixExample.rule_half
           ["ba"]%string [] "ab"%string "a"%string "b"%string (1 # 2)%Q
           ["A"; "B"]%string ["a"; "b"]%string
           [("a.mol2", "A"); ("b.mol2", "B")]%string [[1; 1 # 2]; [1 # 2; 1]]%Q
           0%nat 1%nat "A"%string "B"%string).
  - vm_compute. reflexivity.
  - lia.
  - reflexivity.
  - reflexivity.
  - reflexivity.
  - reflexivity.
  - reflexivity.
  - intros id' [].
Defined.

Lemma list_mols_ok (filename : string -> option string) (mols : list mol) :
  forall st,
  (forall m, In m mols -> filename (mol_id m) <> None) ->
  exists st', list_mols filename st mols = Ok st'.
Proof.
  induction mols as [|m rest IH]; intros st Hf.
  - exists st. reflexivity.
  - cbn [list_mols]. unfold list_mol.
    destruct (filename (mol_id m)) as [path|] eqn:E.
    + cbn [ask bind]. apply IH. intros m' Hm'. apply Hf. right. exact Hm'.
    + exfalso. apply (Hf m); [left; reflexivity | exact E].
Qed.

Lemma title_simi_KeyError (kb : kbase) (rule : Rule) (mols : list mol)
  (ivt : list (string * string)) :
  (forall i, dict_get String.eqb ivt i = last_title mols i) ->
  (forall kb' id0 id1 id, exists simi, rule kb' id0 id1 id = Ok simi) ->
  forall ids tvs,
  (forall id, In id ids -> mcs_parents kb id <> None) ->
  (exists id, In id ids /\ parent_titles kb mols id = None) ->
  title_simi kb rule ivt tvs ids = Raise KeyError.
Proof.
  intros Hivt Hr. induction ids as [|i rest IH]; intros tvs Hk [id [Hin Hno]].
  - destruct Hin.
  - cbn [title_simi]. unfold title_simi_step, get_parent_ids.
    destruct (mcs_parents kb i) as [[id0 id1]|] eqn:Ep.
    2:{ exfalso. apply (Hk i); [left; reflexivity | exact Ep]. }
    cbn [ask bind]. destruct (Hr kb id0 id1 i) as [simi Es].
    rewrite Es. cbn [bind]. unfold dict_item. rewrite !Hivt.
    destruct (last_title mols id0) as [t0|] eqn:E0; [|reflexivity].
    cbn [bind].
    destruct (last_title mols id1) as [t1|] eqn:E1; [|reflexivity].
    cbn [bind]. apply IH.
    + intros j Hj. apply Hk. right. exact Hj.
    + destruct Hin as [->|Hin].
      * unfold parent_titles in Hno. rewrite Ep, E0, E1 in Hno. discriminate.
      * exists id. split; [exact Hin | exact Hno].
Qed.

(** X23: [matrix] raises [KeyError] when a parent of one of the identifiers
    is not the id of a molecule of [mols] (the file names and the parents
    being known to the knowledge base, and the rule not raising): the
    look-up [id_vs_title[id0]] has no handler. *)
Theorem matrix_parent_outside_mols_raises
  (filename : string -> option string) (kb : kbase)
  (mols : list mol) (mcs_ids : list string) (rule : Rule) (id : string) :
  (forall m, In m mols -> filename (mol_id m) <> None) ->
  (forall kb' id0 id1 i, exists simi, rule kb' id0 id1 i = Ok simi) ->
  (forall i, In i mcs_ids -> mcs_parents kb i <> None) ->
  In id mcs_ids -> parent_titles kb mols id = None ->
  matrix filename kb mols mcs_ids rule = Raise KeyError.
Proof.
  intros Hf Hr Hk Hin Hno. unfold matrix.
  destruct (@list_mols_ok filename mols (mkListed [] [] [] []) Hf) as [st El].
  rewrite El. cbn [bind].
  rewrite (@title_simi_KeyError kb rule mols (id_vs_title st)).
  - reflexivity.
  - intro i. destruct (list_mols_spec _ _ _ El) as [H1 _].
    rewrite H1. cbn [id_vs_title dict_get]. destruct (last_title mols i); reflexivity.
  - exact Hr.
  - exact Hk.
  - exists id. split; [exact Hin | exact Hno].
Qed.

Lemma matrix_parent_outside_mols_raises_witness :
  matrix MatrixExample.filename MatrixExample.kb MatrixExample.mols
         ["ab"; "ac"]%string MatrixExample.rule_half
  = Raise KeyError.
Proof.
  apply (@matrix_parent_outside_mols_raises MatrixExample.filename
           MatrixExample.kb MatrixExample.mols ["ab"; "ac"]%string
           MatrixExample.rule_half "ac"%string).
  - intros m _. discriminate.
  - intros kb' id0 id1 i. exists (1 # 2)%Q. reflexivity.
  - intros i [<-|[<-|[]]]; discriminate.
  - cbn. auto.
  - reflexivity.
Defined.

(** * Properties of [mcs.py] *)

(** ** The match that [OeMcs.search] selects *)

Lemma num_atom_from (l : list bool) :
  forall n, (n <= fold_left (fun n (is_hydrogen : bool) =>
                               if negb is_hydrogen then n + 1 else n) l n)%Z.
Proof.
  induction l as [|h l IH]; intro n; cbn [fold_left]; [lia|].
  destruct h; cbn [negb].
  - apply IH.
  - specialize (IH (n + 1)%Z). lia.
Qed.

Lemma num_atom_nonneg (m : oematch) : (0 <= num_atom m)%Z.
Proof. unfold num_atom. apply num_atom_from. Qed.

Lemma atom_matches_from (pairs : list (Z * Z)) :
  forall a0 a1,
  fold_left (fun am (matchpair : Z * Z) =>
               let '(atom_match0, atom_match1) := am in
               (atom_match0 ++ [(fst matchpair + 1)%Z],
                atom_match1 ++ [(snd matchpair + 1)%Z]))
            pairs (a0, a1)
  = (a0 ++ map (fun p => (fst p + 1)%Z) pairs,
     a1 ++ map (fun p => (snd p + 1)%Z) pairs).
Proof.
  induction pairs as [|p pairs IH]; intros a0 a1; cbn [fold_left map].
  - rewrite !app_nil_r. reflexivity.
  - rewrite IH, <- !app_assoc. reflexivity.
Qed.

Lemma atom_matches_spec (m : oematch) :
  atom_matches m = (map (fun p => (fst p + 1)%Z) (matchpairs m),
                    map (fun p => (snd p + 1)%Z) (matchpairs m)).
Proof. unfold atom_matches. apply atom_matches_from. Qed.

Lemma select_from (matches : list oematch) :
  forall seen s,
  (mcs_mol s = None -> max_num s = 0%Z /\ forall m, In m seen -> num_atom m = 0%Z) ->
  (forall m a0 a1, mcs_mol s = Some (m, a0, a1) ->
     exists pre post,
       seen = pre ++ m :: post /\ num_atom m = max_num s /\ (0 < max_num s)%Z /\
       (forall m', In m' pre -> (num_atom m' < max_num s)%Z) /\
       (forall m', In m' post -> (num_atom m' <= max_num s)%Z) /\
       (a0, a1) = atom_matches m) ->
  let r := fold_left select_step matches s in
  (mcs_mol r = None ->
     max_num r = 0%Z /\ forall m, In m (seen ++ matches) -> num_atom m = 0%Z) /\
  (forall m a0 a1, mcs_mol r = Some (m, a0, a1) ->
     exists pre post,
       seen ++ matches = pre ++ m :: post /\ num_atom m = max_num r /\
       (0 < max_num r)%Z /\
       (forall m', In m' pre -> (num_atom m' < max_num r)%Z) /\
       (forall m', In m' post -> (num_atom m' <= max_num r)%Z) /\
       (a0, a1) = atom_matches m).
Proof.
  induction matches as [|x rest IH]; intros seen s HN HS; cbn zeta.
  - cbn [fold_left]. rewrite app_nil_r. split; assumption.
  - cbn [fold_left].
    replace (seen ++ x :: rest) with ((seen ++ [x]) ++ rest)
      by (rewrite <- app_assoc; reflexivity).
    apply IH.
    + (* nothing selected after [x] *)
      unfold select_step. destruct (num_atom x >? max_num s)%Z eqn:Eg.
      * destruct (atom_matches x). cbn [mcs_mol]. discriminate.
      * intro Hn. destruct (HN Hn) as [H0 Hall]. split; [exact H0|].
        intros m Hm. apply in_app_iff in Hm. destruct Hm as [Hm|[<-|[]]].
        -- apply Hall. exact Hm.
        -- pose proof (num_atom_nonneg x). rewrite H0 in Eg.
           destruct (Z.gtb_spec (num_atom x) 0); [discriminate | lia].
    + intros m a0 a1. unfold select_step.
      destruct (num_atom x >? max_num s)%Z eqn:Eg.
      * destruct (atom_matches x) as [b0 b1] eqn:Ea. cbn [mcs_mol max_num].
        intro H. injection H as <- <- <-.
        destruct (Z.gtb_spec (num_atom x) (max_num s)) as [Hgt|]; [|discriminate].
        exists seen, []. split; [reflexivity|]. split; [reflexivity|].
        assert (0 <= max_num s)%Z as Hpos.
        { destruct (mcs_mol s) as [[[m0 c0] c1]|] eqn:Es.
          - destruct (HS _ _ _ eq_refl) as [_ [_ [_ [_ [H _]]]]]. lia.
          - destruct (HN eq_refl) as [H _]. lia. }
        split; [lia|]. split; [|split; [intros m' []|symmetry; exact Ea]].
        intros m' Hm'.
        destruct (mcs_mol s) as [[[m0 c0] c1]|] eqn:Es.
        -- destruct (HS _ _ _ eq_refl) as [pre [post [-> [H1 [H2 [H3 [H4 _]]]]]]].
           apply in_app_iff in Hm'. destruct Hm' as [Hm'|[<-|Hm']].
           ++ specialize (H3 _ Hm'). lia.
           ++ lia.
           ++ specialize (H4 _ Hm'). lia.
        -- destruct (HN eq_refl) as [H0 Hall]. rewrite (Hall _ Hm'). lia.
      * intro H. destruct (HS _ _ _ H) as [pre [post [-> [H1 [H2 [H3 [H4 H5]]]]]]].
        exists pre, (post ++ [x]).
        split; [rewrite <- app_assoc; reflexivity|].
        split; [exact H1|]. split; [exact H2|]. split; [exact H3|].
        split; [|exact H5].
        intros m' Hm'. apply in_app_iff in Hm'. destruct Hm' as [Hm'|[<-|[]]].
        -- apply H4. exact Hm'.
        -- destruct (Z.gtb_spec (num_atom x) (max_num s)); [discriminate | lia].
Qed.

(** X24: the loop of [OeMcs.search] over the matches selects the first of
    the matches that have the greatest number of heavy atoms, with the atom
    indices of the match pairs counted from 1, pattern indices in
    [atom_match0] and target indices in [atom_match1]; it selects nothing
    exactly when no match has a heavy atom. *)
Theorem select_match_takes_the_first_largest (matches : list oematch) :
  (mcs_mol (select_match matches) = None <->
   forall m, In m matches -> num_atom m = 0%Z) /\
  (forall m a0 a1, mcs_mol (select_match matches) = Some (m, a0, a1) ->
     exists pre post,
       matches = pre ++ m :: post /\
       max_num (select_match matches) = num_atom m /\ (0 < num_atom m)%Z /\
       (forall m', In m' pre -> (num_atom m' < num_atom m)%Z) /\
       (forall m', In m' post -> (num_atom m' <= num_atom m)%Z) /\
       a0 = map (fun p => (fst p + 1)%Z) (matchpairs m) /\
       a1 = map (fun p => (snd p + 1)%Z) (matchpairs m)).
Proof.
  unfold select_match.
  destruct (@select_from matches [] {| mcs_mol := None; max_num := 0 |})
    as [HN HS].
  { intros _. split; [reflexivity | intros m []]. }
  { intros m a0 a1 H. discriminate H. }
  cbn [app] in HN, HS.
  set (r := fold_left select_step matches {| mcs_mol := None; max_num := 0 |}) in *.
  split.
  - split.
    + intro H. apply HN. exact H.
    + intro Hall. destruct (mcs_mol r) as [[[m a0] a1]|] eqn:Er; [|reflexivity].
      destruct (HS _ _ _ eq_refl) as [pre [post [E [H1 [H2 _]]]]].
      assert (In m matches) as Hin.
      { rewrite E. apply in_app_iff. right. left. reflexivity. }
      rewrite (Hall m Hin) in H1. lia.
  - intros m a0 a1 H.
    destruct (HS _ _ _ H) as [pre [post [E [H1 [H2 [H3 [H4 H5]]]]]]].
    exists pre, post. rewrite <- H1 in H2, H3, H4.
    rewrite atom_matches_spec in H5. injection H5 as -> ->.
    auto 10.
Qed.

Lemma select_example :
  select_match [SelectExample.m2; SelectExample.m3; SelectExample.m3']
  = {| mcs_mol := Some (SelectExample.m3, [1; 2; 3]%Z, [2; 3; 4]%Z);
       max_num := 3 |}.
Proof. reflexivity. Qed.

(** ** The pairs that [OeMcs.search_all] searches *)

Section SearchAllFacts.
Variables state M : Type.
Variable search : state -> M -> M -> state * option string.

Lemma search_row_spec (mols : list M) (i : nat) :
  (i < List.length mols)%nat ->
  forall js st ret,
  (forall j, In j js -> (j < List.length mols)%nat) ->
  exists st' added,
    search_row search mols i js st ret = Ok (st', ret ++ added) /\
    (List.length added <= List.length js)%nat /\
    ((forall s a b, truthy (snd (search s a b)) = true) ->
     List.length added = List.length js) /\
    forall u, In u added ->
      exists s j mi mj,
        In j js /\ nth_error mols i = Some mi /\ nth_error mols j = Some mj /\
        snd (search s mi mj) = Some u /\ u <> EmptyString.
Proof.
  intro Hi. induction js as [|j js IH]; intros st ret Hjs.
  - exists st, []. rewrite app_nil_r. split; [reflexivity|].
    split; [apply Nat.le_refl|]. split; [reflexivity|]. intros u [].
  - cbn [search_row].
    destruct (nth_error mols i) as [mi|] eqn:Ei.
    2:{ apply nth_error_None in Ei. lia. }
    destruct (nth_error mols j) as [mj|] eqn:Ej.
    2:{ apply nth_error_None in Ej. specialize (Hjs j (or_introl eq_refl)). lia. }
    destruct (search st mi mj) as [st1 r] eqn:Es.
    assert (forall k, In k js -> (k < List.length mols)%nat) as Hjs'.
    { intros k Hk. apply Hjs. right. exact Hk. }
    destruct (truthy r) eqn:Et.
    + destruct r as [id|]; [|discriminate].
      destruct (IH st1 (ret ++ [id]) Hjs') as [st' [added [E [Hl [Hall Hin]]]]].
      exists st', (id :: added). rewrite E, <- app_assoc. split; [reflexivity|].
      split; [cbn [List.length]; lia|].
      split; [intro Ht; cbn [List.length]; rewrite (Hall Ht); reflexivity|].
      intros u [<-|Hu].
      * exists st, j, mi, mj. split; [left; reflexivity|].
        split; [reflexivity|]. split; [exact Ej|]. rewrite Es. cbn [snd].
        split; [reflexivity|]. intros ->. discriminate Et.
      * destruct (Hin u Hu) as [s [k [a [b [Hk H]]]]].
        exists s, k, a, b. split; [right; exact Hk | exact H].
    + destruct (IH st1 ret Hjs') as [st' [added [E [Hl [Hall Hin]]]]].
      exists st', added. split; [exact E|].
      split; [cbn [List.length]; lia|].
      split.
      * intro Ht. specialize (Ht st mi mj). rewrite Es in Ht. cbn [snd] in Ht.
        congruence.
      * intros u Hu. destruct (Hin u Hu) as [s [k [a [b [Hk H]]]]].
        exists s, k, a, b. split; [right; exact Hk | exact H].
Qed.

Lemma search_rows_spec (mols : list M) :
  forall is_ st ret,
  (forall i, In i is_ -> (i < List.length mols)%nat) ->
  exists st' added,
    search_rows search mols is_ st ret = Ok (st', ret ++ added) /\
    (List.length added <= list_sum is_)%nat /\
    ((forall s a b, truthy (snd (search s a b)) = true) ->
     List.length added = list_sum is_) /\
    forall u, In u added ->
      exists s i j mi mj,
        In i is_ /\ (j < i)%nat /\
        nth_error mols i = Some mi /\ nth_error mols j = Some mj /\
        snd (search s mi mj) = Some u /\ u <> EmptyString.
Proof.
  induction is_ as [|i rest IH]; intros st ret His.
  - exists st, []. rewrite app_nil_r. split; [reflexivity|].
    split; [apply Nat.le_refl|]. split; [reflexivity|]. intros u [].
  - assert (i < List.length mols)%nat as Hi by (apply His; left; reflexivity).
    destruct (@search_row_spec mols i Hi (seq 0 i) st ret)
      as [st1 [add1 [E1 [Hl1 [Hall1 Hin1]]]]].
    { intros j Hj. apply in_seq in Hj. lia. }
    rewrite length_seq in Hl1, Hall1.
    destruct (IH st1 (ret ++ add1)) as [st' [add2 [E2 [Hl2 [Hall2 Hin2]]]]].
    { intros k Hk. apply His. right. exact Hk. }
    exists st', (add1 ++ add2).
    cbn [search_rows]. rewrite E1. cbn [bind fst snd].
    rewrite E2, <- app_assoc. split; [reflexivity|].
    rewrite length_app.
    change (list_sum (i :: rest)) with (i + list_sum rest)%nat.
    split; [lia|].
    split; [intro Ht; rewrite (Hall1 Ht), (Hall2 Ht); reflexivity|].
    intros u Hu. apply in_app_iff in Hu. destruct Hu as [Hu|Hu].
    + destruct (Hin1 u Hu) as [s [j [mi [mj [Hj H]]]]].
      apply in_seq in Hj.
      exists s, i, j, mi, mj. split; [left; reflexivity|]. split; [lia | exact H].
    + destruct (Hin2 u Hu) as [s [k [j [mi [mj [Hk H]]]]]].
      exists s, k, j, mi, mj. split; [right; exact Hk | exact H].
Qed.
End SearchAllFacts.

Lemma list_sum_seq (n : nat) : (2 * list_sum (seq 0 n) = n * (n - 1))%nat.
Proof.
  induction n as [|n IH]; [reflexivity|].
  rewrite seq_S, list_sum_app.
  change (list_sum [0 + n]%nat) with (n + 0)%nat.
  replace (S n - 1)%nat with n by lia.
  destruct n as [|n]; [reflexivity|].
  replace (S n - 1)%nat with n in IH by lia. nia.
Qed.

(** X25: [OeMcs.search_all] on [n] molecules never fails on an index.  It
    returns at most [n (n - 1) / 2] identifiers, each the non-empty result
    of a search of a molecule with a molecule that stands before it in
    [mols], and exactly [n (n - 1) / 2] identifiers when every search
    finds a common substructure. *)
Theorem search_all_searches_the_pairs_below_the_diagonal
  (state M : Type) (search : state -> M -> M -> state * option string)
  (mols : list M) (st : state) :
  exists st' ret,
    search_all search mols st = Ok (st', ret) /\
    (2 * List.length ret <= List.length mols * (List.length mols - 1))%nat /\
    ((forall s a b, truthy (snd (search s a b)) = true) ->
     (2 * List.length ret = List.length mols * (List.length mols - 1))%nat) /\
    forall u, In u ret ->
      exists s i j mi mj,
        (j < i)%nat /\
        nth_error mols i = Some mi /\ nth_error mols j = Some mj /\
        snd (search s mi mj) = Some u /\ u <> EmptyString.
Proof.
  unfold search_all.
  destruct (@search_rows_spec state M search mols (seq 0 (List.length mols)) st [])
    as [st' [added [E [Hl [Hall Hin]]]]].
  { intros i Hi. apply in_seq in Hi. lia. }
  cbn [app] in E. exists st', added.
  pose proof (list_sum_seq (List.length mols)) as Hsum.
  split; [exact E|]. split; [lia|].
  split; [intro Ht; rewrite (Hall Ht); exact Hsum|].
  intros u Hu. destruct (Hin u Hu) as [s [i [j [mi [mj [_ H]]]]]].
  exists s, i, j, mi, mj. exact H.
Qed.

(** * Properties of [add_mcs_id] *)

Lemma edge_is_same_pair (a b u v : node) (e : edge) :
  same_pair a b u v -> edge_is u v e = edge_is a b e.
Proof.
  unfold edge_is. intros [[-> ->]|[-> ->]]; [reflexivity | apply orb_comm].
Qed.

Lemma edge_is_self (e : edge) : edge_is (eu e) (ev e) e = true.
Proof. apply edge_is_true. left. auto. Qed.

Lemma no_parallel_unique (es : list edge) (u v : node) :
  no_parallel es ->
  forall e1 e2, In e1 es -> In e2 es ->
  edge_is u v e1 = true -> edge_is u v e2 = true -> e1 = e2.
Proof.
  induction es as [|e rest IH]; intros Hnp e1 e2 H1 H2 E1 E2; [destruct H1|].
  destruct Hnp as [Hhead Hrest].
  assert (forall x, In x rest -> edge_is u v e = true -> edge_is u v x = true -> False)
    as Hno.
  { intros x Hx He Hx'. apply edge_is_true in He.
    rewrite (edge_is_same_pair x He) in Hx'. rewrite (Hhead x Hx) in Hx'. discriminate. }
  destruct H1 as [<-|H1]; destruct H2 as [<-|H2].
  - reflexivity.
  - exfalso. exact (Hno e2 H2 E1 E2).
  - exfalso. exact (Hno e1 H1 E2 E1).
  - apply IH; assumption.
Qed.

Lemma set_edge_map (es : list edge) (u v : node) (a : attrs) :
  no_parallel es ->
  (exists e0, In e0 es /\ edge_is u v e0 = true) ->
  set_edge es u v a
  = map (fun e => if edge_is u v e
                  then mkEdge (eu e) (ev e) (dict_update (ea e) a) else e) es.
Proof.
  induction es as [|e rest IH]; intros Hnp [e0 [Hin He0]]; [destruct Hin|].
  destruct Hnp as [Hhead Hrest]. cbn [set_edge map].
  destruct (edge_is u v e) eqn:Ee.
  - f_equal. symmetry. rewrite <- (map_id rest) at 2.
    apply map_ext_in. intros x Hx.
    apply edge_is_true in Ee.
    rewrite (edge_is_same_pair x Ee), (Hhead x Hx). reflexivity.
  - f_equal. apply IH; [exact Hrest|].
    destruct Hin as [<-|Hin]; [congruence|].
    exists e0. split; [exact Hin | exact He0].
Qed.

Lemma in_map_same {A B : Type} (f : A -> B) (l l0 : list A) (x : A) :
  map f l = map f l0 -> In x l0 -> exists y, In y l /\ f y = f x.
Proof.
  intros E Hx. apply (in_map f) in Hx. rewrite <- E in Hx.
  apply in_map_iff in Hx. destruct Hx as [y [Hy Hin]]. exists y. auto.
Qed.

Lemma all_edges_from_edges (g : graph) (t : node * node * attrs) :
  In t (all_edges g) ->
  exists e, In e (edges g) /\
            same_pair (eu e) (ev e) (fst (fst t)) (snd (fst t)) /\ snd t = ea e.
Proof.
  unfold all_edges, edges_of. intro H. apply edges_iter_sound in H.
  destruct H as [_ H]. apply incident_In in H.
  destruct H as [e [He [Ha [Hn Hor]]]].
  exists e. split; [exact He|]. split; [|exact Ha].
  destruct Hor as [[H1 H2]|[_ [H1 H2]]].
  - left. split; [exact H1 | symmetry; exact H2].
  - right. split; [symmetry; exact H2 | exact H1].
Qed.

Lemma relabel_spec (g0 g : graph) (t : node * node * attrs) (id : string) :
  wf_graph g0 ->
  (exists e, In e (edges g0) /\
             same_pair (eu e) (ev e) (fst (fst t)) (snd (fst t)) /\ snd t = ea e) ->
  nodes g = nodes g0 ->
  map edge_core (edges g) = map edge_core (edges g0) ->
  no_parallel (edges g) ->
  nodes (relabel g t id) = nodes g0 /\
  map edge_core (edges (relabel g t id)) = map edge_core (edges g0) /\
  no_parallel (edges (relabel g t id)) /\
  forall e', In e' (edges (relabel g t id)) ->
    (same_pair (eu e') (ev e') (fst (fst t)) (snd (fst t)) /\
     mcs_id (ea e') = Some id) \/
    (In e' (edges g) /\ edge_is (fst (fst t)) (snd (fst t)) e' = false).
Proof.
  intros Hwf [e [He [Hsp Ha]]] Hn Hc Hnp.
  set (u := fst (fst t)) in *. set (v := snd (fst t)) in *.
  set (kw := {| similarity := similarity (snd t); partial_ring := None;
                mcs_id := Some id; boundary := None |}).
  destruct (in_map_same edge_core _ _ e Hc He) as [ek [Hek Ecore]].
  assert (eu ek = eu e /\ ev ek = ev e /\ similarity (ea ek) = similarity (ea e))
    as [Eu [Ev Es]].
  { unfold edge_core in Ecore. injection Ecore as E1 E2 E3 _ _. auto. }
  assert (edge_is u v ek = true) as Hm.
  { apply edge_is_true. rewrite Eu, Ev. exact Hsp. }
  assert (edges (relabel g t id)
          = map (fun x => if edge_is u v x
                          then mkEdge (eu x) (ev x) (dict_update (ea x) kw) else x)
                (edges g)) as Eedges.
  { unfold relabel, add_edge. cbn [edges]. fold u v kw.
    apply set_edge_map; [exact Hnp|]. exists ek. auto. }
  split; [|split; [|split]].
  - unfold relabel, add_edge. cbn [nodes]. fold u v. rewrite Hn.
    destruct (Hwf e He) as [H0 H1].
    assert (In u (nodes g0) /\ In v (nodes g0)) as [Hu Hv].
    { destruct Hsp as [[<- <-]|[<- <-]]; auto. }
    rewrite (add_node_known _ _ Hu). apply add_node_known. exact Hv.
  - rewrite Eedges, map_map, <- Hc. apply map_ext_in. intros x Hx.
    destruct (edge_is u v x) eqn:Ex; [|reflexivity].
    assert (x = ek) as -> by (eapply no_parallel_unique; eassumption).
    unfold edge_core. cbn [eu ev ea dict_update similarity partial_ring boundary kw or_else].
    rewrite Ha, Es. reflexivity.
  - unfold relabel, add_edge. cbn [edges]. apply set_edge_no_parallel. exact Hnp.
  - intros e' He'. rewrite Eedges in He'. apply in_map_iff in He'.
    destruct He' as [x [Ex Hx]].
    destruct (edge_is u v x) eqn:Em.
    + left. subst e'. cbn [eu ev ea dict_update mcs_id kw or_else].
      split; [apply edge_is_true; exact Em | reflexivity].
    + right. subst e'. auto.
Qed.

Lemma add_mcs_id_loop_returned (sha1 : string -> string)
  (title_of : node -> option string) (ids : list string) (g0 : graph) :
  wf_graph g0 ->
  forall todo g g',
  (forall t, In t todo ->
     exists e, In e (edges g0) /\
               same_pair (eu e) (ev e) (fst (fst t)) (snd (fst t)) /\ snd t = ea e) ->
  nodes g = nodes g0 ->
  map edge_core (edges g) = map edge_core (edges g0) ->
  no_parallel (edges g) ->
  add_mcs_id_loop sha1 title_of ids g todo = Returned g' ->
  nodes g' = nodes g0 /\
  map edge_core (edges g') = map edge_core (edges g0) /\
  forall e', In e' (edges g') ->
    labelled sha1 title_of ids e' \/
    (In e' (edges g) /\
     forall t, In t todo -> edge_is (fst (fst t)) (snd (fst t)) e' = false).
Proof.
  intro Hwf. induction todo as [|t rest IH]; intros g g' Ht Hn Hc Hnp H.
  - injection H as <-. split; [exact Hn|]. split; [exact Hc|].
    intros e' He'. right. split; [exact He' | intros t []].
  - cbn [add_mcs_id_loop] in H.
    destruct (add_mcs_id_step sha1 title_of ids g t) as [g1| |] eqn:Es;
      [|discriminate|discriminate].
    assert (exists id name0 name1,
              g1 = relabel g t id /\ In id ids /\
              title_of (fst (fst t)) = Some name0 /\
              title_of (snd (fst t)) = Some name1 /\
              (id = sha1 (mcs_title name0 name1) \/
               id = sha1 (mcs_title name1 name0)))
      as [id [name0 [name1 [-> [Hid [Hn0 [Hn1 Hor]]]]]]].
    { unfold add_mcs_id_step in Es.
      destruct (title_of (fst (fst t))) as [name0|]; [|discriminate].
      destruct (title_of (snd (fst t))) as [name1|]; [|discriminate].
      destruct (mem (sha1 (mcs_title name0 name1)) ids) eqn:E1.
      - injection Es as <-. apply mem_In in E1.
        exists (sha1 (mcs_title name0 name1)), name0, name1. auto 10.
      - destruct (mem (sha1 (mcs_title name1 name0)) ids) eqn:E2; [|discriminate].
        injection Es as <-. apply mem_In in E2.
        exists (sha1 (mcs_title name1 name0)), name0, name1. auto 10. }
    destruct (@relabel_spec g0 g t id Hwf (Ht t (or_introl eq_refl)) Hn Hc Hnp)
      as [Hn1' [Hc1 [Hnp1 He1]]].
    destruct (IH (relabel g t id) g'
                 (fun x Hx => Ht x (or_intror Hx)) Hn1' Hc1 Hnp1 H)
      as [Hn' [Hc' Hl]].
    split; [exact Hn'|]. split; [exact Hc'|].
    intros e' He'. destruct (Hl e' He') as [Hlab|[Hin Hun]]; [left; exact Hlab|].
    destruct (He1 e' Hin) as [[Hsp Hm]|[Hin' Hf]].
    + left. destruct Hsp as [[E0 E1]|[E0 E1]].
      * exists name0, name1, id. rewrite E0, E1. auto 10.
      * exists name1, name0, id. rewrite E0, E1.
        split; [exact Hn1|]. split; [exact Hn0|]. split; [exact Hm|].
        split; [exact Hid|]. destruct Hor; auto.
    + right. split; [exact Hin'|].
      intros x [<-|Hx]; [exact Hf | apply Hun; exact Hx].
Qed.

(** X26: when [add_mcs_id] returns, the graph has the nodes and the edges it
    had, every edge with the similarity, the [partial_ring] and the
    [boundary] it had, and every edge carries as [mcs_id] an identifier of
    [mcs_id_list] that is the hash of ["mcs@<title>..<title>"] for the
    titles of its two ends, in one of the two orders. *)
Theorem add_mcs_id_labels_every_edge (sha1 : string -> string)
  (title_of : node -> option string) (mcs_id_list : list string) (g g' : graph) :
  wf_graph g -> no_parallel (edges g) ->
  add_mcs_id sha1 title_of mcs_id_list g = Returned g' ->
  nodes g' = nodes g /\
  map edge_core (edges g') = map edge_core (edges g) /\
  forall e, In e (edges g') -> labelled sha1 title_of mcs_id_list e.
Proof.
  intros Hwf Hnp H. unfold add_mcs_id in H.
  destruct (@add_mcs_id_loop_returned sha1 title_of mcs_id_list g Hwf
              (all_edges g) g g' (@all_edges_from_edges g) eq_refl eq_refl Hnp H)
    as [Hn [Hc Hl]].
  split; [exact Hn|]. split; [exact Hc|].
  intros e He. destruct (Hl e He) as [Hlab|[Hin Hun]]; [exact Hlab|].
  exfalso.
  destruct (@all_edges_complete g e Hwf Hin) as [Ht|Ht].
  - specialize (Hun _ Ht). cbn [fst snd] in Hun.
    rewrite edge_is_self in Hun. discriminate.
  - specialize (Hun _ Ht). cbn [fst snd] in Hun.
    rewrite (@edge_is_same_pair (eu e) (ev e) (ev e) (eu e) e) in Hun;
      [|right; auto].
    rewrite edge_is_self in Hun. discriminate.
Qed.

Lemma label_example_wf : wf_graph LabelExample.g.
Proof.
  intros e [<-|[<-|[]]]; cbn; auto 10.
Qed.

Lemma add_mcs_id_labels_every_edge_witness :
  nodes LabelExample.labelled_g = nodes LabelExample.g /\
  map edge_core (edges LabelExample.labelled_g)
  = map edge_core (edges LabelExample.g) /\
  forall e, In e (edges LabelExample.labelled_g) ->
            labelled LabelExample.sha1 LabelExample.title_of LabelExample.ids e.
Proof.
  apply (@add_mcs_id_labels_every_edge LabelExample.sha1 LabelExample.title_of
           LabelExample.ids LabelExample.g LabelExample.labelled_g).
  - exact label_example_wf.
  - cbn. split; [intros e' [<-|[]]; reflexivity|]. split; [intros e' []|exact I].
  - reflexivity.
Defined.

Lemma unlabellable_sym (sha1 : string -> string) (title_of : node -> option string)
  (ids : list string) (u v : node) :
  unlabellable sha1 title_of ids u v -> unlabellable sha1 title_of ids v u.
Proof.
  intros [n0 [n1 [H0 [H1 [H2 H3]]]]]. exists n1, n0. auto.
Qed.

Lemma add_mcs_id_loop_exits (sha1 : string -> string)
  (title_of : node -> option string) (ids : list string) :
  forall todo g,
  (forall t, In t todo ->
             title_of (fst (fst t)) <> None /\ title_of (snd (fst t)) <> None) ->
  add_mcs_id_loop sha1 title_of ids g todo = Exited <->
  exists t, In t todo /\
            unlabellable sha1 title_of ids (fst (fst t)) (snd (fst t)).
Proof.
  induction todo as [|t rest IH]; intros g Hk.
  - cbn [add_mcs_id_loop]. split; [discriminate | intros [t [[] _]]].
  - destruct (Hk t (or_introl eq_refl)) as [H0 H1].
    destruct (title_of (fst (fst t))) as [name0|] eqn:E0; [|contradiction].
    destruct (title_of (snd (fst t))) as [name1|] eqn:E1; [|contradiction].
    assert (forall x, In x rest ->
              title_of (fst (fst x)) <> None /\ title_of (snd (fst x)) <> None)
      as Hk' by (intros x Hx; apply Hk; right; exact Hx).
    assert (unlabellable sha1 title_of ids (fst (fst t)) (snd (fst t)) <->
            mem (sha1 (mcs_title name0 name1)) ids = false /\
            mem (sha1 (mcs_title name1 name0)) ids = false) as Hbad.
    { split.
      - intros [n0 [n1 [F0 [F1 [F2 F3]]]]].
        rewrite E0 in F0. rewrite E1 in F1. injection F0 as <-. injection F1 as <-.
        split; apply not_true_is_false; intro Hm; apply mem_In in Hm; contradiction.
      - intros [F2 F3]. exists name0, name1.
        split; [exact E0|]. split; [exact E1|].
        split; intro Hm; apply mem_In in Hm; congruence. }
    cbn [add_mcs_id_loop]. unfold add_mcs_id_step. rewrite E0, E1.
    destruct (mem (sha1 (mcs_title name0 name1)) ids) eqn:M0.
    + rewrite (IH _ Hk'). split.
      * intros [x [Hx Hb]]. exists x. split; [right; exact Hx | exact Hb].
      * intros [x [[<-|Hx] Hb]].
        -- apply Hbad in Hb. destruct Hb. discriminate.
        -- exists x. auto.
    + destruct (mem (sha1 (mcs_title name1 name0)) ids) eqn:M1.
      * rewrite (IH _ Hk'). split.
        -- intros [x [Hx Hb]]. exists x. split; [right; exact Hx | exact Hb].
        -- intros [x [[<-|Hx] Hb]].
           ++ apply Hbad in Hb. destruct Hb. discriminate.
           ++ exists x. auto.
      * split; [|reflexivity]. intros _. exists t.
        split; [left; reflexivity|]. apply Hbad. auto.
Qed.

(** X27: with the title of every node known, [add_mcs_id] ends the program
    by [sys.exit()] exactly when the graph has an edge for which neither
    the hash of ["mcs@<title0>..<title1>"] nor the hash of the title in the
    other order is in [mcs_id_list]. *)
Theorem add_mcs_id_exits_on_an_unknown_pair (sha1 : string -> string)
  (title_of : node -> option string) (mcs_id_list : list string) (g : graph) :
  wf_graph g ->
  (forall n, In n (nodes g) -> title_of n <> None) ->
  add_mcs_id sha1 title_of mcs_id_list g = Exited <->
  exists e, In e (edges g) /\
            unlabellable sha1 title_of mcs_id_list (eu e) (ev e).
Proof.
  intros Hwf Hk. unfold add_mcs_id. rewrite add_mcs_id_loop_exits.
  - split.
    + intros [t [Ht Hb]].
      destruct (all_edges_from_edges _ _ Ht) as [e [He [Hsp _]]].
      exists e. split; [exact He|].
      destruct Hsp as [[-> ->]|[-> ->]]; [exact Hb | apply unlabellable_sym; exact Hb].
    + intros [e [He Hb]].
      destruct (@all_edges_complete g e Hwf He) as [Ht|Ht].
      * exists (eu e, ev e, ea e). split; [exact Ht | exact Hb].
      * exists (ev e, eu e, ea e). split; [exact Ht|].
        apply unlabellable_sym. exact Hb.
  - intros t Ht. destruct (all_edges_from_edges _ _ Ht) as [e [He [Hsp _]]].
    destruct (Hwf e He) as [Hu Hv].
    destruct Hsp as [[<- <-]|[<- <-]]; split; apply Hk; assumption.
Qed.

Lemma add_mcs_id_exits_on_an_unknown_pair_witness :
  add_mcs_id LabelExample.sha1 LabelExample.title_of
             ["#mcs@mol-a..mol-b"]%string LabelExample.g = Exited <->
  exists e, In e (edges LabelExample.g) /\
            unlabellable LabelExample.sha1 LabelExample.title_of
                         ["#mcs@mol-a..mol-b"]%string (eu e) (ev e).
Proof.
  apply (@add_mcs_id_exits_on_an_unknown_pair LabelExample.sha1
           LabelExample.title_of ["#mcs@mol-a..mol-b"]%string LabelExample.g).
  - exact label_example_wf.
  - intros n [<-|[<-|[<-|[]]]]; discriminate.
Defined.
